(** * CS-330 desk-lamp scene: SceneManager and ViewManager

    A shallow embedding of [SceneManager.cpp] and [ViewManager.cpp] and the
    properties of the scene composer and of the free-look camera controller.

    Conventions of the embedding.
    - C++ [float] and [double] values are real numbers ([R]); rounding,
      infinities and NaN are outside the model.
    - [int] values are integers ([Z]); none of the counters used here leaves
      the 32-bit range.
    - [std::string] is [string]; [a.compare(b) == 0] is [String.eqb a b].
    - OpenGL is a command stream: a uniform write or a draw call is one
      [GLCommand], in program order.
    - A call through a null [m_pShaderManager] has no defined behaviour; the
      embedding returns [None] for it. *)

From Stdlib Require Import Reals Lra ZArith String List Bool Lia.
From stdpp Require Import base list.
Import ListNotations.

(** ** GLM: vectors, matrices and the transform constructors *)

Module Glm.
Local Open Scope R_scope.

Record vec2 := Vec2 { v2x : R; v2y : R }.
Record vec3 := Vec3 { vx : R; vy : R; vz : R }.
Record vec4 := Vec4 { qx : R; qy : R; qz : R; qw : R }.

(** [glm::mat4] is column-major: [m[i]] is the i-th column. *)
Record mat4 := Mat4 { col0 : vec4; col1 : vec4; col2 : vec4; col3 : vec4 }.

(** [glm::vec3(s)]: the same scalar in each component. *)
Definition vec3_splat (s : R) : vec3 := Vec3 s s s.

Definition vec3_add (a b : vec3) : vec3 :=
  Vec3 (vx a + vx b) (vy a + vy b) (vz a + vz b).
Definition vec3_sub (a b : vec3) : vec3 :=
  Vec3 (vx a - vx b) (vy a - vy b) (vz a - vz b).
Definition vec3_scale (k : R) (a : vec3) : vec3 :=
  Vec3 (k * vx a) (k * vy a) (k * vz a).

Definition dot (a b : vec3) : R := vx a * vx b + vy a * vy b + vz a * vz b.

Definition cross (a b : vec3) : vec3 :=
  Vec3 (vy a * vz b - vy b * vz a)
       (vz a * vx b - vz b * vx a)
       (vx a * vy b - vx b * vy a).

Definition length3 (a : vec3) : R := sqrt (dot a a).

(** [glm::normalize(v) = v * inversesqrt(dot(v, v))]. *)
Definition normalize (a : vec3) : vec3 := vec3_scale (1 / sqrt (dot a a)) a.

(** [glm::radians] and [glm::degrees]. *)
Definition radians (deg : R) : R := deg * (PI / 180).
Definition degrees (rad : R) : R := rad * (180 / PI).

Definition vec4_add (a b : vec4) : vec4 :=
  Vec4 (qx a + qx b) (qy a + qy b) (qz a + qz b) (qw a + qw b).
Definition vec4_scale (k : R) (a : vec4) : vec4 :=
  Vec4 (k * qx a) (k * qy a) (k * qz a) (k * qw a).

(** [m * v]: the linear combination of the columns of [m]. *)
Definition mat4_mulv (m : mat4) (v : vec4) : vec4 :=
  vec4_add (vec4_add (vec4_add (vec4_scale (qx v) (col0 m))
                               (vec4_scale (qy v) (col1 m)))
                     (vec4_scale (qz v) (col2 m)))
           (vec4_scale (qw v) (col3 m)).

(** [a * b]: column j of the product is [a] applied to column j of [b]. *)
Definition mat4_mul (a b : mat4) : mat4 :=
  Mat4 (mat4_mulv a (col0 b)) (mat4_mulv a (col1 b))
       (mat4_mulv a (col2 b)) (mat4_mulv a (col3 b)).

Definition mat4_identity : mat4 :=
  Mat4 (Vec4 1 0 0 0) (Vec4 0 1 0 0) (Vec4 0 0 1 0) (Vec4 0 0 0 1).

(** [glm::translate(v)] of [glm/gtx/transform.hpp]: the identity with
    [v] in the last column. *)
Definition translate (v : vec3) : mat4 :=
  Mat4 (Vec4 1 0 0 0) (Vec4 0 1 0 0) (Vec4 0 0 1 0)
       (Vec4 (vx v) (vy v) (vz v) 1).

(** [glm::scale(v)]: the diagonal matrix of [v]. *)
Definition scale (v : vec3) : mat4 :=
  Mat4 (Vec4 (vx v) 0 0 0) (Vec4 0 (vy v) 0 0) (Vec4 0 0 (vz v) 0)
       (Vec4 0 0 0 1).

(** [glm::rotate(angle, v)]: GLM normalises the axis and fills the
    rotation block column by column from [c], [s] and [(1 - c) * axis]. *)
Definition rotate (angle : R) (v : vec3) : mat4 :=
  let c := cos angle in
  let s := sin angle in
  let axis := normalize v in
  let temp := vec3_scale (1 - c) axis in
  Mat4 (Vec4 (c + vx temp * vx axis)
             (vx temp * vy axis + s * vz axis)
             (vx temp * vz axis - s * vy axis) 0)
       (Vec4 (vy temp * vx axis - s * vz axis)
             (c + vy temp * vy axis)
             (vy temp * vz axis + s * vx axis) 0)
       (Vec4 (vz temp * vx axis + s * vy axis)
             (vz temp * vy axis - s * vx axis)
             (c + vz temp * vz axis) 0)
       (Vec4 0 0 0 1).

(** The homogeneous origin and the point part of a homogeneous vector. *)
Definition origin4 : vec4 := Vec4 0 0 0 1.
Definition point4 (p : vec3) : vec4 := Vec4 (vx p) (vy p) (vz p) 1.

(** The textbook rotations about the world axes. *)
Definition rot_x (a : R) : mat4 :=
  Mat4 (Vec4 1 0 0 0) (Vec4 0 (cos a) (sin a) 0)
       (Vec4 0 (- sin a) (cos a) 0) (Vec4 0 0 0 1).
Definition rot_y (a : R) : mat4 :=
  Mat4 (Vec4 (cos a) 0 (- sin a) 0) (Vec4 0 1 0 0)
       (Vec4 (sin a) 0 (cos a) 0) (Vec4 0 0 0 1).
Definition rot_z (a : R) : mat4 :=
  Mat4 (Vec4 (cos a) (sin a) 0 0) (Vec4 (- sin a) (cos a) 0 0)
       (Vec4 0 0 1 0) (Vec4 0 0 0 1).

(** [glm::ortho(left, right, bottom, top, zNear, zFar)] and
    [glm::perspective(fovy, aspect, zNear, zFar)] in GLM's default
    right-handed clip space with depth in [-1, 1]. *)
Definition ortho (left right bottom top zNear zFar : R) : mat4 :=
  Mat4 (Vec4 (2 / (right - left)) 0 0 0)
       (Vec4 0 (2 / (top - bottom)) 0 0)
       (Vec4 0 0 (- (2 / (zFar - zNear))) 0)
       (Vec4 (- ((right + left) / (right - left)))
             (- ((top + bottom) / (top - bottom)))
             (- ((zFar + zNear) / (zFar - zNear))) 1).

Definition perspective (fovy aspect zNear zFar : R) : mat4 :=
  let tanHalfFovy := tan (fovy / 2) in
  Mat4 (Vec4 (1 / (aspect * tanHalfFovy)) 0 0 0)
       (Vec4 0 (1 / tanHalfFovy) 0 0)
       (Vec4 0 0 (- ((zFar + zNear) / (zFar - zNear))) (-1))
       (Vec4 0 0 (- ((2 * zFar * zNear) / (zFar - zNear))) 0).

End Glm.

(** ** The OpenGL command stream *)

Module GL.
Import Glm.

Inductive Mesh :=
| PlaneMesh | BoxMesh | CylinderMesh | TaperedCylinderMesh | ConeMesh
| SphereMesh.

(** A value handed to one of the typed uniform setters. *)
Inductive UValue :=
| UInt (i : Z)
| UFloat (f : R)
| UVec2 (v : vec2)
| UVec3 (v : vec3)
| UVec4 (v : vec4)
| UMat4 (m : mat4)
| USampler (slot : Z).

Inductive GLCommand :=
| SetUniform (name : string) (v : UValue)
| Draw (mesh : Mesh).

(** The uniform values of the bound program. *)
Abbreviation Uniforms := (string -> option UValue).

Definition set_uniform (name : string) (v : UValue) (u : Uniforms) : Uniforms :=
  fun n => if String.eqb n name then Some v else u n.

(** Running a command stream: every draw call sees the uniform values
    written before it. *)
Fixpoint replay (u : Uniforms) (cmds : list GLCommand)
  : list (Mesh * Uniforms) :=
  match cmds with
  | [] => []
  | SetUniform name v :: rest => replay (set_uniform name v u) rest
  | Draw mesh :: rest => (mesh, u) :: replay u rest
  end.

(** The primitives drawn by a command stream, in order. *)
Fixpoint draws_of (cmds : list GLCommand) : list Mesh :=
  match cmds with
  | [] => []
  | SetUniform _ _ :: rest => draws_of rest
  | Draw mesh :: rest => mesh :: draws_of rest
  end.

(** Does the stream write uniform [name] (with a value accepted by [p])? *)
Fixpoint writes (name : string) (p : UValue -> bool) (cmds : list GLCommand)
  : bool :=
  match cmds with
  | [] => false
  | SetUniform n v :: rest =>
      (String.eqb n name && p v) || writes name p rest
  | Draw _ :: rest => writes name p rest
  end.

(** Where a draw call puts the mesh origin: its [model] matrix applied to
    the homogeneous origin. *)
Definition placement (u : Uniforms) : option vec4 :=
  match u "model"%string with
  | Some (UMat4 m) => Some (mat4_mulv m origin4)
  | _ => None
  end.

(** Modelled from the spec: the shader manager (ShaderManager.h is absent)
    exposes typed setters keyed by the uniform name; each one issues the
    uniform write. *)
Definition setMat4Value (name : string) (m : mat4) : list GLCommand :=
  [SetUniform name (UMat4 m)].
(** Modelled from the spec: [setVec2Value] of the absent shader manager. *)
Definition setVec2Value (name : string) (v : vec2) : list GLCommand :=
  [SetUniform name (UVec2 v)].
(** Modelled from the spec: [setVec3Value] of the absent shader manager. *)
Definition setVec3Value (name : string) (v : vec3) : list GLCommand :=
  [SetUniform name (UVec3 v)].
(** Modelled from the spec: [setVec4Value] of the absent shader manager. *)
Definition setVec4Value (name : string) (v : vec4) : list GLCommand :=
  [SetUniform name (UVec4 v)].
(** Modelled from the spec: [setFloatValue] of the absent shader manager. *)
Definition setFloatValue (name : string) (f : R) : list GLCommand :=
  [SetUniform name (UFloat f)].
(** Modelled from the spec: [setIntValue] of the absent shader manager. *)
Definition setIntValue (name : string) (i : Z) : list GLCommand :=
  [SetUniform name (UInt i)].
(** Modelled from the spec: [setSampler2DValue] of the absent shader manager. *)
Definition setSampler2DValue (name : string) (slot : Z) : list GLCommand :=
  [SetUniform name (USampler slot)].

(** The result of a rendering method: the commands it issued, or [None]
    when it called through a null pointer. *)
Definition Emit := option (list GLCommand).

Definition emit_seq (a b : Emit) : Emit :=
  match a with
  | Some l1 => match b with
               | Some l2 => Some (l1 ++ l2)
               | None => None
               end
  | None => None
  end.

End GL.

Declare Scope emit_scope.
Delimit Scope emit_scope with emit.
Bind Scope emit_scope with GL.Emit.
Notation "a ;; b" := (GL.emit_seq a%emit b%emit)
  (at level 100, b at level 200, right associativity) : emit_scope.

(** ** SceneManager.cpp *)

Module Scene.
Import Glm GL.
Local Open Scope string_scope.
Local Open Scope list_scope.
Local Open Scope R_scope.

(** The uniform names declared at the top of SceneManager.cpp. *)
Definition g_ModelName : string := "model".
Definition g_ColorValueName : string := "objectColor".
Definition g_TextureValueName : string := "objectTexture".
Definition g_UseTextureName : string := "bUseTexture".
Definition g_UseLightingName : string := "bUseLighting".

(** [TEXTURE_INFO] and [OBJECT_MATERIAL] of SceneManager.h, with the
    fields this file reads and writes. *)
Record TEXTURE_INFO := TextureInfo { ID : Z; tag : string }.

Record OBJECT_MATERIAL := ObjectMaterial {
  ambientStrength : R;
  ambientColor : vec3;
  diffuseColor : vec3;
  specularColor : vec3;
  shininess : R;
  mtag : string
}.

(** Modelled from the spec: the capacity of the [m_textureIDs] array,
    declared in SceneManager.h (absent); the registry holds 16 entries. *)
Definition MAX_TEXTURES : Z := 16.

(** The members of [SceneManager]. [m_pShaderManager] is [true] when the
    pointer is not null; [m_basicMeshes] is set by the constructor and
    never null. *)
Record SceneManager := MkSceneManager {
  m_pShaderManager : bool;
  m_textureIDs : list TEXTURE_INFO;
  m_loadedTextures : Z;
  m_objectMaterials : list OBJECT_MATERIAL
}.

(** A call [m_pShaderManager->f(...)] that is not guarded by a null test. *)
Definition through_shader (sm : SceneManager) (cmds : list GLCommand) : Emit :=
  if m_pShaderManager sm then Some cmds else None.

(** What [stbi_load] and [glGenTextures] hand back to [CreateGLTexture]:
    the channel count of the decoded image ([None] when decoding fails) and
    the generated texture name. *)
Record ImageLoad := MkImageLoad {
  colorChannels : option Z;
  textureID : Z
}.

(** [CreateGLTexture]: the registry effect and the return value. The
    texture-object set-up calls do not touch the registry and are not part
    of the command stream of a frame. Writing past the end of
    [m_textureIDs] has no defined behaviour: [None]. *)
Definition CreateGLTexture (img : ImageLoad) (tg : string) (sm : SceneManager)
  : option (bool * SceneManager) :=
  match colorChannels img with
  | Some channels =>
      if (channels =? 3)%Z || (channels =? 4)%Z then
        if (0 <=? m_loadedTextures sm)%Z
           && (m_loadedTextures sm <? MAX_TEXTURES)%Z
           && (Z.to_nat (m_loadedTextures sm) <? length (m_textureIDs sm))%nat
        then
          Some (true,
                MkSceneManager
                  (m_pShaderManager sm)
                  (<[Z.to_nat (m_loadedTextures sm) :=
                       TextureInfo (textureID img) tg]> (m_textureIDs sm))
                  (m_loadedTextures sm + 1)%Z
                  (m_objectMaterials sm))
        else None
      else Some (false, sm)
  | None => Some (false, sm)
  end.

(** The scan of [FindTextureID] / [FindTextureSlot]: [index] walks the
    registered entries until a tag compares equal. *)
Fixpoint scan_textures {A} (found : Z -> TEXTURE_INFO -> A) (miss : A)
    (entries : list TEXTURE_INFO) (tg : string) (index : Z) : A :=
  match entries with
  | [] => miss
  | e :: rest =>
      if String.eqb (tag e) tg then found index e
      else scan_textures found miss rest tg (index + 1)%Z
  end.

(** The entries below [m_loadedTextures]. *)
Definition registered (sm : SceneManager) : list TEXTURE_INFO :=
  take (Z.to_nat (m_loadedTextures sm)) (m_textureIDs sm).

Definition FindTextureID (sm : SceneManager) (tg : string) : Z :=
  scan_textures (fun _ e => ID e) (-1)%Z (registered sm) tg 0%Z.

Definition FindTextureSlot (sm : SceneManager) (tg : string) : Z :=
  scan_textures (fun index _ => index) (-1)%Z (registered sm) tg 0%Z.

(** The loop of [FindMaterial]: the first preset whose tag compares equal
    has its five shading fields copied into [material]. *)
Fixpoint FindMaterial_scan (presets : list OBJECT_MATERIAL) (tg : string)
    (material : OBJECT_MATERIAL) : OBJECT_MATERIAL :=
  match presets with
  | [] => material
  | p :: rest =>
      if String.eqb (mtag p) tg then
        ObjectMaterial (ambientStrength p) (ambientColor p) (diffuseColor p)
                       (specularColor p) (shininess p) (mtag material)
      else FindMaterial_scan rest tg material
  end.

(** [FindMaterial(tag, material)]: the returned flag and the out-parameter
    after the call. *)
Definition FindMaterial (sm : SceneManager) (tg : string)
    (material : OBJECT_MATERIAL) : bool * OBJECT_MATERIAL :=
  if (length (m_objectMaterials sm) =? 0)%nat then (false, material)
  else (true, FindMaterial_scan (m_objectMaterials sm) tg material).

(** [modelView] of [SetTransformations]. *)
Definition model_matrix (scaleXYZ : vec3)
    (XrotationDegrees YrotationDegrees ZrotationDegrees : R)
    (positionXYZ : vec3) : mat4 :=
  let scale := Glm.scale scaleXYZ in
  let rotationX := rotate (radians XrotationDegrees) (Vec3 1 0 0) in
  let rotationY := rotate (radians YrotationDegrees) (Vec3 0 1 0) in
  let rotationZ := rotate (radians ZrotationDegrees) (Vec3 0 0 1) in
  let translation := translate positionXYZ in
  mat4_mul (mat4_mul (mat4_mul (mat4_mul translation rotationX) rotationY)
                     rotationZ) scale.

Definition SetTransformations (sm : SceneManager) (scaleXYZ : vec3)
    (XrotationDegrees YrotationDegrees ZrotationDegrees : R)
    (positionXYZ : vec3) : Emit :=
  let modelView :=
    model_matrix scaleXYZ XrotationDegrees YrotationDegrees ZrotationDegrees
                 positionXYZ in
  if m_pShaderManager sm then Some (setMat4Value g_ModelName modelView)
  else Some [].

Definition SetShaderColor (sm : SceneManager)
    (redColorValue greenColorValue blueColorValue alphaValue : R) : Emit :=
  let currentColor :=
    Vec4 redColorValue greenColorValue blueColorValue alphaValue in
  if m_pShaderManager sm then
    Some (setIntValue g_UseTextureName 0
          ++ setVec4Value g_ColorValueName currentColor)
  else Some [].

Definition SetShaderTexture (sm : SceneManager) (textureTag : string) : Emit :=
  if m_pShaderManager sm then
    let textureID := FindTextureSlot sm textureTag in
    Some (setIntValue g_UseTextureName 1
          ++ setSampler2DValue g_TextureValueName textureID)
  else Some [].

Definition SetTextureUVScale (sm : SceneManager) (u v : R) : Emit :=
  if m_pShaderManager sm then Some (setVec2Value "UVscale" (Vec2 u v))
  else Some [].

(** [SetShaderMaterial]. The local [material] is not initialised before
    [FindMaterial] fills it; [indeterminate] is its content at that point. *)
Definition SetShaderMaterial (indeterminate : OBJECT_MATERIAL)
    (sm : SceneManager) (materialTag : string) : Emit :=
  if (0 <? length (m_objectMaterials sm))%nat then
    let '(bReturn, material) := FindMaterial sm materialTag indeterminate in
    if bReturn then
      through_shader sm
        (setVec3Value "material.ambientColor" (ambientColor material)
         ++ setFloatValue "material.ambientStrength" (ambientStrength material)
         ++ setVec3Value "material.diffuseColor" (diffuseColor material)
         ++ setVec3Value "material.specularColor" (specularColor material)
         ++ setFloatValue "material.shininess" (shininess material))
    else Some []
  else Some [].

(** [SetupMaterials]: the library is cleared and rebuilt. *)
Definition steel : OBJECT_MATERIAL :=
  ObjectMaterial 0.2 (vec3_splat 0.2) (vec3_splat 0.7) (vec3_splat 1.0) 64
                 "steel".
Definition plastic : OBJECT_MATERIAL :=
  ObjectMaterial 0.1 (vec3_splat 0.1) (vec3_splat 0.5) (vec3_splat 0.3) 8
                 "plastic".
Definition darkplastic : OBJECT_MATERIAL :=
  ObjectMaterial 0.1 (vec3_splat 0.05) (vec3_splat 0.2) (vec3_splat 0.2) 4
                 "darkplastic".
Definition gold : OBJECT_MATERIAL :=
  ObjectMaterial 0.25 (vec3_splat 0.3) (vec3_splat 0.6) (vec3_splat 1.0) 64
                 "gold".
Definition burntsand : OBJECT_MATERIAL :=
  ObjectMaterial 0.1 (vec3_splat 0.2) (vec3_splat 0.45) (vec3_splat 0.2) 8
                 "burntsand".

Definition SetupMaterials (sm : SceneManager) : SceneManager :=
  MkSceneManager (m_pShaderManager sm) (m_textureIDs sm) (m_loadedTextures sm)
                 ((((([] ++ [steel]) ++ [plastic]) ++ [darkplastic])
                     ++ [gold]) ++ [burntsand]).

(** [SetupLights]: thirteen writes, none of them behind a null test. *)
Definition SetupLights (sm : SceneManager) : Emit :=
  through_shader sm
    (setVec3Value "lightSources[0].ambientColor" (vec3_splat 0.2)
     ++ setVec3Value "lightSources[0].diffuseColor" (vec3_splat 0.7)
     ++ setVec3Value "lightSources[0].specularColor" (vec3_splat 0.9)
     ++ setFloatValue "lightSources[0].specularIntensity" 0.5
     ++ setVec3Value "lightSources[1].ambientColor" (vec3_splat 0.05)
     ++ setVec3Value "lightSources[1].diffuseColor" (vec3_splat 0.25)
     ++ setVec3Value "lightSources[1].specularColor" (vec3_splat 0.3)
     ++ setFloatValue "lightSources[1].specularIntensity" 0.2
     ++ setVec3Value "lightSources[2].ambientColor" (Vec3 0.1 0.05 0.05)
     ++ setVec3Value "lightSources[2].diffuseColor" (Vec3 0.9 0.3 0.3)
     ++ setVec3Value "lightSources[2].specularColor" (Vec3 1.0 0.5 0.5)
     ++ setFloatValue "lightSources[2].specularIntensity" 0.6
     ++ setIntValue g_UseLightingName 1).

(** A run of [CreateGLTexture] calls, each on the manager the previous one
    left, with the value every call returned. *)
Fixpoint create_all (calls : list (ImageLoad * string)) (sm : SceneManager)
  : option (list bool * SceneManager) :=
  match calls with
  | [] => Some ([], sm)
  | (img, tg) :: rest =>
      match CreateGLTexture img tg sm with
      | Some (ok, sm1) =>
          match create_all rest sm1 with
          | Some (oks, sm2) => Some (ok :: oks, sm2)
          | None => None
          end
      | None => None
      end
  end.

(** [LoadSceneTextures]: five [CreateGLTexture] calls whose results are
    dropped; [BindGLTextures] binds texture units and leaves the registry
    as it is. *)
Definition LoadSceneTextures (i1 i2 i3 i4 i5 : ImageLoad) (sm : SceneManager)
  : option SceneManager :=
  match create_all [(i1, "stainless"); (i2, "gold"); (i3, "wood");
                    (i4, "plastic"); (i5, "darkplastic")] sm with
  | Some (_, sm') => Some sm'
  | None => None
  end.

(** [PrepareScene]: lights, textures, materials; the six mesh loads have
    no effect on the manager or on the uniforms. *)
Definition PrepareScene (i1 i2 i3 i4 i5 : ImageLoad) (sm : SceneManager)
  : option (SceneManager * list GLCommand) :=
  match SetupLights sm with
  | Some lights =>
      match LoadSceneTextures i1 i2 i3 i4 i5 sm with
      | Some sm1 => Some (SetupMaterials sm1, lights)
      | None => None
      end
  | None => None
  end.

(** The draw calls of the mesh library ([m_basicMeshes]). *)
Definition DrawPlaneMesh : Emit := Some [Draw PlaneMesh].
Definition DrawBoxMesh : Emit := Some [Draw BoxMesh].
Definition DrawCylinderMesh : Emit := Some [Draw CylinderMesh].
Definition DrawTaperedCylinderMesh : Emit := Some [Draw TaperedCylinderMesh].
Definition DrawConeMesh : Emit := Some [Draw ConeMesh].
Definition DrawSphereMesh : Emit := Some [Draw SphereMesh].

(** The body of the cup-handle loop for one value of [i], and the loop
    [for (int i = 0; i < handleSegments; ++i)] with [todo] iterations left. *)
Definition handle_segment (indeterminate : OBJECT_MATERIAL) (sm : SceneManager)
    (handleCenterX handleRadius mugCenterY segmentRadius segmentLength : R)
    (cupPos : vec3) (handleSegments : Z) (i : Z) : Emit :=
  let t := IZR i / IZR (handleSegments - 1) in
  let angle := radians (-90.0 + t * 180.0) in
  let x := handleCenterX + handleRadius * cos angle in
  let y := mugCenterY + handleRadius * sin angle in
  let z := vz cupPos in
  let zRot := degrees angle in
  (SetTransformations sm (Vec3 segmentRadius segmentLength segmentRadius)
                      0 0 zRot (Vec3 x y z) ;;
   SetShaderTexture sm "plastic" ;;
   SetTextureUVScale sm 1.0 1.0 ;;
   SetShaderMaterial indeterminate sm "plastic" ;;
   DrawCylinderMesh)%emit.

Fixpoint handle_loop (indeterminate : OBJECT_MATERIAL) (sm : SceneManager)
    (handleCenterX handleRadius mugCenterY segmentRadius segmentLength : R)
    (cupPos : vec3) (handleSegments : Z) (todo : nat) (i : Z) : Emit :=
  match todo with
  | O => Some []
  | S todo' =>
      (handle_segment indeterminate sm handleCenterX handleRadius mugCenterY
                      segmentRadius segmentLength cupPos handleSegments i ;;
       handle_loop indeterminate sm handleCenterX handleRadius mugCenterY
                   segmentRadius segmentLength cupPos handleSegments
                   todo' (i + 1)%Z)%emit
  end.

(** The positions of the two lamp joints, as [RenderScene] computes them:
    [pos] after the elbow block and after the head-joint block. *)
Definition elbow_position : vec3 :=
  let lowerArmLength := 2.2 in
  let xRot := -50.0 in
  let pos := Vec3 (-8.0) 2.0 0.0 in
  let elbowOffset := -0.9 in
  let yRotElbow := 0.0 in
  let lowerArmAngleRad := radians (- xRot) in
  let lowerArmYRotRad := radians yRotElbow in
  let dx := lowerArmLength * sin lowerArmAngleRad * cos lowerArmYRotRad in
  let dy := lowerArmLength * cos lowerArmAngleRad in
  let dz := lowerArmLength * sin lowerArmAngleRad * sin lowerArmYRotRad in
  let elbowX := vx pos + dx + elbowOffset in
  let elbowY := vy pos + dy in
  let elbowZ := vz pos + dz in
  Vec3 elbowX elbowY elbowZ.

Definition head_position : vec3 :=
  let upperArmLength := 2.0 in
  let xRot := -25.0 in
  let pos := elbow_position in
  let upperX := vx pos + upperArmLength * sin (radians (- xRot)) in
  let upperY := vy pos + upperArmLength * cos (radians (- xRot)) in
  Vec3 upperX upperY (vz pos).

(** [RenderScene]: one frame of the scene, statement by statement. *)
Definition RenderScene (indeterminate : OBJECT_MATERIAL) (sm : SceneManager)
  : Emit :=
  let SetShaderMaterial := SetShaderMaterial indeterminate in
  let xRot := 0 in
  let yRot := 0 in
  let zRot := 0 in
  (* === World Plane === *)
  let scale := Vec3 100.0 1.0 100.0 in
  let pos := Vec3 0.0 (-0.3) 0.0 in
  (SetTransformations sm scale 0 0 0 pos ;;
   SetShaderMaterial sm "burntsand" ;;
   DrawPlaneMesh ;;
   (* === Desk === *)
   let scale := Vec3 25.0 0.4 8.0 in
   let pos := Vec3 0.0 (-0.3) 0.0 in
   SetTransformations sm scale 0 0 0 pos ;;
   SetShaderTexture sm "wood" ;;
   SetTextureUVScale sm 2.5 1.5 ;;
   DrawBoxMesh ;;
   (* === Lamp Base === *)
   let scale := Vec3 1.5 0.3 1.5 in
   let pos := Vec3 (-8.0) 0.6 0.0 in
   SetTransformations sm scale 0 0 0 pos ;;
   SetShaderTexture sm "stainless" ;;
   SetTextureUVScale sm 3.0 3.0 ;;
   DrawCylinderMesh ;;
   (* === Lamp Base Post === *)
   let scale := Vec3 0.3 1.0 0.3 in
   let pos := Vec3 (-8.0) 1.0 0.0 in
   SetTransformations sm scale 0 0 0 pos ;;
   SetShaderTexture sm "darkplastic" ;;
   SetTextureUVScale sm 1.0 1.0 ;;
   DrawCylinderMesh ;;
   (* === Lamp Lower Arm === *)
   let lowerArmLength := 2.2 in
   let scale := Vec3 0.15 lowerArmLength 0.15 in
   let xRot := -50.0 in
   let pos := Vec3 (-8.0) 2.0 0.0 in
   SetTransformations sm scale xRot 0 0 pos ;;
   SetShaderMaterial sm "darkplastic" ;;
   DrawTaperedCylinderMesh ;;
   (* === Lamp Elbow Joint === *)
   let elbowOffset := -0.9 in
   let yRotElbow := 0.0 in
   let lowerArmAngleRad := radians (- xRot) in
   let lowerArmYRotRad := radians yRotElbow in
   let dx := lowerArmLength * sin lowerArmAngleRad * cos lowerArmYRotRad in
   let dy := lowerArmLength * cos lowerArmAngleRad in
   let dz := lowerArmLength * sin lowerArmAngleRad * sin lowerArmYRotRad in
   let elbowX := vx pos + dx + elbowOffset in
   let elbowY := vy pos + dy in
   let elbowZ := vz pos + dz in
   let scale := Vec3 0.25 0.25 0.25 in
   let pos := Vec3 elbowX elbowY elbowZ in
   SetTransformations sm scale 0 0 0 pos ;;
   SetShaderTexture sm "plastic" ;;
   SetTextureUVScale sm 1.0 1.0 ;;
   DrawSphereMesh ;;
   (* === Lamp Upper Arm === *)
   let upperArmLength := 2.0 in
   let scale := Vec3 0.15 upperArmLength 0.15 in
   let xRot := -25.0 in
   let yRot := 90.0 in
   SetTransformations sm scale xRot yRot 0 pos ;;
   SetShaderTexture sm "darkplastic" ;;
   SetTextureUVScale sm 1.0 1.0 ;;
   SetShaderMaterial sm "darkplastic" ;;
   DrawTaperedCylinderMesh ;;
   (* === Lamp Head Joint === *)
   let upperX := vx pos + upperArmLength * sin (radians (- xRot)) in
   let upperY := vy pos + upperArmLength * cos (radians (- xRot)) in
   let scale := Vec3 0.25 0.25 0.25 in
   let pos := Vec3 upperX upperY (vz pos) in
   SetTransformations sm scale 0 0 0 pos ;;
   SetShaderTexture sm "plastic" ;;
   SetTextureUVScale sm 1.0 1.0 ;;
   DrawSphereMesh ;;
   (* === Lamp Neck === *)
   let neckLength := 0.7 in
   let scale := Vec3 0.12 neckLength 0.12 in
   let xRot := -50.0 in
   let neckStart := pos in
   SetTransformations sm scale xRot 0 0 neckStart ;;
   SetShaderMaterial sm "darkplastic" ;;
   DrawCylinderMesh ;;
   (* === Lamp Shade === *)
   let shadeX := vx neckStart + neckLength * sin (radians (- xRot)) in
   let shadeY := vy neckStart + neckLength * cos (radians (- xRot)) in
   let scale := Vec3 1.2 0.8 1.2 in
   let xRot := 220.0 in
   let pos := Vec3 shadeX shadeY (vz neckStart) in
   SetTransformations sm scale xRot 0 0 pos ;;
   SetShaderTexture sm "stainless" ;;
   SetTextureUVScale sm 1.0 1.0 ;;
   DrawConeMesh ;;
   (* === Lamp Bulb === *)
   let scale := Vec3 0.2 0.2 0.2 in
   let pos := Vec3 shadeX (shadeY + 0.2) (vz neckStart) in
   SetTransformations sm scale 0 0 0 pos ;;
   SetShaderTexture sm "gold" ;;
   SetTextureUVScale sm 1.0 1.0 ;;
   SetShaderMaterial sm "gold" ;;
   DrawSphereMesh ;;
   (* ==== CLOSED LAPTOP ==== *)
   let laptopPos := Vec3 0.0 (-0.1 + 0.13 / 2) 0.0 in
   let laptopScale := Vec3 7.0 0.13 4.5 in
   SetTransformations sm laptopScale 0 0 0 laptopPos ;;
   SetShaderTexture sm "darkplastic" ;;
   SetTextureUVScale sm 2.0 1.5 ;;
   SetShaderMaterial sm "darkplastic" ;;
   DrawBoxMesh ;;
   let lidScale := Vec3 6.9 0.10 4.4 in
   let lidPos :=
     vec3_add laptopPos (Vec3 0.0 ((vy laptopScale + vy lidScale) / 2) 0.0) in
   SetTransformations sm lidScale 0 0 0 lidPos ;;
   SetShaderTexture sm "stainless" ;;
   SetTextureUVScale sm 2.0 1.5 ;;
   SetShaderMaterial sm "steel" ;;
   DrawBoxMesh ;;
   (* ==== COFFEE CUP ==== *)
   let cupPos := Vec3 4.5 (-0.1 + 0.0 / 2) 0.3 in
   let cupScale := Vec3 0.42 0.95 0.42 in
   SetTransformations sm cupScale 0 0 0 cupPos ;;
   SetShaderTexture sm "plastic" ;;
   SetTextureUVScale sm 1.0 1.0 ;;
   SetShaderMaterial sm "plastic" ;;
   DrawCylinderMesh ;;
   let rimScale := Vec3 0.48 0.09 0.48 in
   let rimPos := vec3_add cupPos (Vec3 0.0 0.94 0.0) in
   SetTransformations sm rimScale 180.0 0 0 rimPos ;;
   SetShaderTexture sm "stainless" ;;
   SetTextureUVScale sm 2.0 1.5 ;;
   SetShaderMaterial sm "steel" ;;
   DrawTaperedCylinderMesh ;;
   (* Cup handle *)
   let mugRadius := vx cupScale / 2.0 in
   let handleRadius := mugRadius * 0.8 in
   let mugCenterY := vy cupPos + (vy cupScale / 2.0) in
   let segmentLength := 0.13 in
   let segmentRadius := 0.07 in
   let handleSegments := 7%Z in
   let handleCenterX :=
     vx cupPos + mugRadius + handleRadius + segmentRadius * 0.72 in
   handle_loop indeterminate sm handleCenterX handleRadius mugCenterY
               segmentRadius segmentLength cupPos handleSegments
               (Z.to_nat (handleSegments - 0)) 0%Z ;;
   (* Book 1 *)
   let book1Pos := Vec3 5.90 (-0.1 + 0.95 / 2) 1.0 in
   let book1Scale := Vec3 0.50 2.17 1.62 in
   SetTransformations sm book1Scale 0 0 (-8) book1Pos ;;
   SetShaderTexture sm "darkplastic" ;;
   SetTextureUVScale sm 0.5 1.0 ;;
   SetShaderMaterial sm "darkplastic" ;;
   DrawBoxMesh ;;
   (* Book 2 *)
   let book2Pos := Vec3 6.5 (-0.1 + 0.95 / 2) 1.0 in
   let book2Scale := Vec3 0.47 1.67 1.37 in
   SetTransformations sm book2Scale 0 0 0 book2Pos ;;
   SetShaderTexture sm "plastic" ;;
   SetTextureUVScale sm 0.5 1.0 ;;
   SetShaderMaterial sm "plastic" ;;
   DrawBoxMesh ;;
   (* Book 3 *)
   let book3Pos := Vec3 7.89 (-0.1 + 0.18 / 2) 0.98 in
   let book3Scale := Vec3 1.37 0.45 2.27 in
   SetTransformations sm book3Scale 0 (-90) 0 book3Pos ;;
   SetShaderTexture sm "gold" ;;
   SetTextureUVScale sm 0.7 1.0 ;;
   SetShaderMaterial sm "gold" ;;
   DrawBoxMesh)%emit.

(** The loop of [BindGLTextures]: texture unit [GL_TEXTURE0 + i] is made
    active and the i-th registered texture is bound to it. The result
    lists the (unit, texture name) bindings in the order they are made. *)
Fixpoint bind_units (entries : list TEXTURE_INFO) (i : Z) : list (Z * Z) :=
  match entries with
  | [] => []
  | e :: rest => (i, ID e) :: bind_units rest (i + 1)%Z
  end.

Definition BindGLTextures (sm : SceneManager) : list (Z * Z) :=
  bind_units (registered sm) 0%Z.

(** The loop of [DestroyGLTextures]: the texture names handed to
    [glDeleteTextures], in order. The members of the manager are not
    assigned. *)
Fixpoint delete_textures (entries : list TEXTURE_INFO) : list Z :=
  match entries with
  | [] => []
  | e :: rest => ID e :: delete_textures rest
  end.

Definition DestroyGLTextures (sm : SceneManager) : list Z :=
  delete_textures (registered sm).

(** The position of the lamp shade, as [RenderScene] computes it: [pos]
    after the shade block. *)
Definition shade_position : vec3 :=
  let neckLength := 0.7 in
  let xRot := -50.0 in
  let neckStart := head_position in
  let shadeX := vx neckStart + neckLength * sin (radians (- xRot)) in
  let shadeY := vy neckStart + neckLength * cos (radians (- xRot)) in
  Vec3 shadeX shadeY (vz neckStart).

End Scene.

(** ** ViewManager.cpp *)

Module View.
Import Glm.
Local Open Scope R_scope.

(** [Camera] of camera.h (absent), with the members ViewManager.cpp uses. *)
Record Camera := MkCamera {
  Position : vec3;
  Front : vec3;
  Up : vec3;
  Yaw : R;
  Pitch : R;
  Zoom : R
}.

(** The file-local globals, the function-local statics of
    [ProcessKeyboardEvents] and the close flag of the window. *)
Record ViewState := MkViewState {
  g_pCamera : Camera;
  gLastX : R;
  gLastY : R;
  gFirstMouse : bool;
  gDeltaTime : R;
  gLastFrame : R;
  gCameraSpeed : R;
  bOrthographicProjection : bool;
  pPressed : bool;
  oPressed : bool;
  viewKeyPressed_0 : bool;
  viewKeyPressed_1 : bool;
  viewKeyPressed_2 : bool;
  windowShouldClose : bool
}.

Definition WINDOW_WIDTH : Z := 1000.
Definition WINDOW_HEIGHT : Z := 800.

Definition set_camera (c : Camera) (s : ViewState) : ViewState :=
  MkViewState c (gLastX s) (gLastY s) (gFirstMouse s) (gDeltaTime s)
    (gLastFrame s) (gCameraSpeed s) (bOrthographicProjection s) (pPressed s)
    (oPressed s) (viewKeyPressed_0 s) (viewKeyPressed_1 s)
    (viewKeyPressed_2 s) (windowShouldClose s).
Definition set_cursor (x y : R) (first : bool) (s : ViewState) : ViewState :=
  MkViewState (g_pCamera s) x y first (gDeltaTime s)
    (gLastFrame s) (gCameraSpeed s) (bOrthographicProjection s) (pPressed s)
    (oPressed s) (viewKeyPressed_0 s) (viewKeyPressed_1 s)
    (viewKeyPressed_2 s) (windowShouldClose s).
Definition set_clock (delta last : R) (s : ViewState) : ViewState :=
  MkViewState (g_pCamera s) (gLastX s) (gLastY s) (gFirstMouse s) delta
    last (gCameraSpeed s) (bOrthographicProjection s) (pPressed s)
    (oPressed s) (viewKeyPressed_0 s) (viewKeyPressed_1 s)
    (viewKeyPressed_2 s) (windowShouldClose s).
Definition set_speed (v : R) (s : ViewState) : ViewState :=
  MkViewState (g_pCamera s) (gLastX s) (gLastY s) (gFirstMouse s)
    (gDeltaTime s) (gLastFrame s) v (bOrthographicProjection s) (pPressed s)
    (oPressed s) (viewKeyPressed_0 s) (viewKeyPressed_1 s)
    (viewKeyPressed_2 s) (windowShouldClose s).
Definition set_ortho (b : bool) (s : ViewState) : ViewState :=
  MkViewState (g_pCamera s) (gLastX s) (gLastY s) (gFirstMouse s)
    (gDeltaTime s) (gLastFrame s) (gCameraSpeed s) b (pPressed s)
    (oPressed s) (viewKeyPressed_0 s) (viewKeyPressed_1 s)
    (viewKeyPressed_2 s) (windowShouldClose s).
Definition set_pPressed (b : bool) (s : ViewState) : ViewState :=
  MkViewState (g_pCamera s) (gLastX s) (gLastY s) (gFirstMouse s)
    (gDeltaTime s) (gLastFrame s) (gCameraSpeed s)
    (bOrthographicProjection s) b
    (oPressed s) (viewKeyPressed_0 s) (viewKeyPressed_1 s)
    (viewKeyPressed_2 s) (windowShouldClose s).
Definition set_oPressed (b : bool) (s : ViewState) : ViewState :=
  MkViewState (g_pCamera s) (gLastX s) (gLastY s) (gFirstMouse s)
    (gDeltaTime s) (gLastFrame s) (gCameraSpeed s)
    (bOrthographicProjection s) (pPressed s)
    b (viewKeyPressed_0 s) (viewKeyPressed_1 s)
    (viewKeyPressed_2 s) (windowShouldClose s).
Definition set_viewKeyPressed_0 (b : bool) (s : ViewState) : ViewState :=
  MkViewState (g_pCamera s) (gLastX s) (gLastY s) (gFirstMouse s)
    (gDeltaTime s) (gLastFrame s) (gCameraSpeed s)
    (bOrthographicProjection s) (pPressed s)
    (oPressed s) b (viewKeyPressed_1 s)
    (viewKeyPressed_2 s) (windowShouldClose s).
Definition set_viewKeyPressed_1 (b : bool) (s : ViewState) : ViewState :=
  MkViewState (g_pCamera s) (gLastX s) (gLastY s) (gFirstMouse s)
    (gDeltaTime s) (gLastFrame s) (gCameraSpeed s)
    (bOrthographicProjection s) (pPressed s)
    (oPressed s) (viewKeyPressed_0 s) b
    (viewKeyPressed_2 s) (windowShouldClose s).
Definition set_viewKeyPressed_2 (b : bool) (s : ViewState) : ViewState :=
  MkViewState (g_pCamera s) (gLastX s) (gLastY s) (gFirstMouse s)
    (gDeltaTime s) (gLastFrame s) (gCameraSpeed s)
    (bOrthographicProjection s) (pPressed s)
    (oPressed s) (viewKeyPressed_0 s) (viewKeyPressed_1 s)
    b (windowShouldClose s).
Definition set_close (b : bool) (s : ViewState) : ViewState :=
  MkViewState (g_pCamera s) (gLastX s) (gLastY s) (gFirstMouse s)
    (gDeltaTime s) (gLastFrame s) (gCameraSpeed s)
    (bOrthographicProjection s) (pPressed s)
    (oPressed s) (viewKeyPressed_0 s) (viewKeyPressed_1 s)
    (viewKeyPressed_2 s) b.

Definition set_Position (p : vec3) (c : Camera) : Camera :=
  MkCamera p (Front c) (Up c) (Yaw c) (Pitch c) (Zoom c).
Definition set_Front (f : vec3) (c : Camera) : Camera :=
  MkCamera (Position c) f (Up c) (Yaw c) (Pitch c) (Zoom c).
Definition set_Up (u : vec3) (c : Camera) : Camera :=
  MkCamera (Position c) (Front c) u (Yaw c) (Pitch c) (Zoom c).
Definition set_Yaw (y : R) (c : Camera) : Camera :=
  MkCamera (Position c) (Front c) (Up c) y (Pitch c) (Zoom c).
Definition set_Pitch (p : R) (c : Camera) : Camera :=
  MkCamera (Position c) (Front c) (Up c) (Yaw c) p (Zoom c).
Definition set_Zoom (z : R) (c : Camera) : Camera :=
  MkCamera (Position c) (Front c) (Up c) (Yaw c) (Pitch c) z.

(** The constructor: the globals at their initialisers, and the camera
    that [new Camera()] yields with four members overwritten. *)
Definition ViewManager (new_Camera : Camera) : ViewState :=
  let cam := set_Position (Vec3 0.0 5.0 12.0) new_Camera in
  let cam := set_Front (Vec3 0.0 (-0.5) (-2.0)) cam in
  let cam := set_Up (Vec3 0.0 1.0 0.0) cam in
  let cam := set_Zoom 80 cam in
  MkViewState cam
    (IZR WINDOW_WIDTH / 2.0) (IZR WINDOW_HEIGHT / 2.0) true
    0.0 0.0 5.0 false false false false false false false.

(** The "recalculate camera front" block, repeated verbatim after every
    change of yaw or pitch. *)
Definition front_of (yaw pitch : R) : vec3 :=
  let front :=
    Vec3 (cos (radians yaw) * cos (radians pitch))
         (sin (radians pitch))
         (sin (radians yaw) * cos (radians pitch)) in
  normalize front.

Definition recalculate_front (c : Camera) : Camera :=
  set_Front (front_of (Yaw c) (Pitch c)) c.

(** The scaled cursor offsets of [Mouse_Position_Callback]: [xoffset] and
    [yoffset] after the multiplication by [sensitivity]. *)
Definition mouse_offsets (xMousePos yMousePos : R) (s : ViewState) : R * R :=
  let s := if gFirstMouse s then set_cursor xMousePos yMousePos false s
           else s in
  let xoffset := xMousePos - gLastX s in
  let yoffset := gLastY s - yMousePos in
  let sensitivity := 0.1 in
  (xoffset * sensitivity, yoffset * sensitivity).

Definition clamp_pitch (c : Camera) : Camera :=
  let c := if Rgt_dec (Pitch c) 89.0 then set_Pitch 89.0 c else c in
  if Rlt_dec (Pitch c) (-89.0) then set_Pitch (-89.0) c else c.

Definition Mouse_Position_Callback (xMousePos yMousePos : R) (s : ViewState)
  : ViewState :=
  let '(xoffset, yoffset) := mouse_offsets xMousePos yMousePos s in
  let s := set_cursor xMousePos yMousePos false s in
  let c := g_pCamera s in
  let c := set_Yaw (Yaw c + xoffset) c in
  let c := set_Pitch (Pitch c + yoffset) c in
  let c := clamp_pitch c in
  set_camera (recalculate_front c) s.

Definition Scroll_Callback (xoffset yoffset : R) (s : ViewState) : ViewState :=
  let s := set_speed (gCameraSpeed s + yoffset) s in
  let s := if Rlt_dec (gCameraSpeed s) 1.0 then set_speed 1.0 s else s in
  if Rgt_dec (gCameraSpeed s) 20.0 then set_speed 20.0 s else s.

(** [glfwGetKey] for the keys the controller polls: [true] is
    [GLFW_PRESS], [false] is [GLFW_RELEASE]. *)
Record Keys := MkKeys {
  KEY_ESCAPE : bool;
  KEY_W : bool; KEY_S : bool; KEY_A : bool; KEY_D : bool;
  KEY_Q : bool; KEY_E : bool;
  KEY_P : bool; KEY_O : bool;
  KEY_1 : bool; KEY_2 : bool; KEY_3 : bool
}.

(** The one-shot blocks of [ProcessKeyboardEvents]. *)
Inductive Action :=
| PerspectiveReset | OrthographicReset | FrontView | TopView | SideView.

(** A statement of [ProcessKeyboardEvents]: the new state and the one-shot
    blocks that ran, in program order. *)
Definition Stmt := ViewState -> ViewState * list Action.

Definition modify (f : ViewState -> ViewState) : Stmt := fun s => (f s, []).
Definition ran (a : Action) : Stmt := fun s => (s, [a]).
Definition skip : Stmt := fun s => (s, []).
Definition then_ (p q : Stmt) : Stmt :=
  fun s => let '(s1, l1) := p s in
           let '(s2, l2) := q s1 in (s2, l1 ++ l2).
Definition when (c : ViewState -> bool) (p : Stmt) : Stmt :=
  fun s => if c s then p s else skip s.

Definition on_camera (f : Camera -> Camera) : Stmt :=
  modify (fun s => set_camera (f (g_pCamera s)) s).

(** [g_pCamera->Position += d] for a displacement computed from the
    camera. *)
Definition move (d : Camera -> vec3) : Stmt :=
  on_camera (fun c => set_Position (vec3_add (Position c) (d c)) c).
Definition move_back (d : Camera -> vec3) : Stmt :=
  on_camera (fun c => set_Position (vec3_sub (Position c) (d c)) c).

(** The pose assignments shared by the five one-shot blocks. *)
Definition pose (position : vec3) (yaw pitch : R) : Stmt :=
  on_camera (fun c =>
    recalculate_front (set_Pitch pitch (set_Yaw yaw (set_Position position c)))).

Declare Scope stmt_scope.
Delimit Scope stmt_scope with stmt.
Bind Scope stmt_scope with Stmt.
Notation "p ;; q" := (then_ p%stmt q%stmt)
  (at level 100, q at level 200, right associativity) : stmt_scope.

(** [ProcessKeyboardEvents], statement by statement. *)
Definition ProcessKeyboardEvents (k : Keys) : Stmt :=
  (when (fun _ => KEY_ESCAPE k) (modify (set_close true)) ;;
   (fun s0 =>
    let cameraSpeed := gCameraSpeed s0 * gDeltaTime s0 in
    (when (fun _ => KEY_W k)
       (move (fun c => vec3_scale cameraSpeed (Front c))) ;;
     when (fun _ => KEY_S k)
       (move_back (fun c => vec3_scale cameraSpeed (Front c))) ;;
     when (fun _ => KEY_A k)
       (move_back (fun c =>
          vec3_scale cameraSpeed (normalize (cross (Front c) (Up c))))) ;;
     when (fun _ => KEY_D k)
       (move (fun c =>
          vec3_scale cameraSpeed (normalize (cross (Front c) (Up c))))) ;;
     when (fun _ => KEY_Q k)
       (move (fun c => vec3_scale cameraSpeed (Up c))) ;;
     when (fun _ => KEY_E k)
       (move_back (fun c => vec3_scale cameraSpeed (Up c))))%stmt s0) ;;
   (* P = perspective *)
   when (fun s => KEY_P k && negb (pPressed s))
     (modify (set_ortho false) ;;
      modify (set_pPressed true) ;;
      pose (Vec3 0.0 5.0 12.0) (-90.0) (-20.0) ;;
      ran PerspectiveReset) ;;
   when (fun _ => negb (KEY_P k)) (modify (set_pPressed false)) ;;
   (* O = orthographic *)
   when (fun s => KEY_O k && negb (oPressed s))
     (modify (set_ortho true) ;;
      modify (set_oPressed true) ;;
      pose (Vec3 0.0 5.0 12.0) (-90.0) (-20.0) ;;
      ran OrthographicReset) ;;
   when (fun _ => negb (KEY_O k)) (modify (set_oPressed false)) ;;
   (* 1 = front, 2 = top, 3 = side *)
   when (fun s => KEY_1 k && negb (viewKeyPressed_0 s))
     (modify (set_ortho true) ;;
      modify (set_viewKeyPressed_0 true) ;;
      pose (Vec3 0.0 5.0 12.0) (-90.0) (-20.0) ;;
      ran FrontView) ;;
   when (fun _ => negb (KEY_1 k)) (modify (set_viewKeyPressed_0 false)) ;;
   when (fun s => KEY_2 k && negb (viewKeyPressed_1 s))
     (modify (set_ortho true) ;;
      modify (set_viewKeyPressed_1 true) ;;
      pose (Vec3 0.0 15.0 0.0) (-90.0) (-89.9) ;;
      ran TopView) ;;
   when (fun _ => negb (KEY_2 k)) (modify (set_viewKeyPressed_1 false)) ;;
   when (fun s => KEY_3 k && negb (viewKeyPressed_2 s))
     (modify (set_ortho true) ;;
      modify (set_viewKeyPressed_2 true) ;;
      pose (Vec3 15.0 5.0 0.0) (-180.0) (-20.0) ;;
      ran SideView) ;;
   when (fun _ => negb (KEY_3 k)) (modify (set_viewKeyPressed_2 false)))%stmt.

(** [PrepareSceneView]: the frame clock and the keyboard poll. The view
    and projection uniforms pushed afterwards leave this state as it is.
    [currentFrame] is the value of [glfwGetTime()]. *)
Definition PrepareSceneView (currentFrame : R) (k : Keys) : Stmt :=
  (modify (fun s => set_clock (currentFrame - gLastFrame s) currentFrame s) ;;
   ProcessKeyboardEvents k)%stmt.

(** What the event loop delivers to the controller. *)
Inductive Event :=
| MouseMove (xMousePos yMousePos : R)
| Scroll (xoffset yoffset : R)
| Frame (currentFrame : R) (k : Keys).

Definition deliver (e : Event) : Stmt :=
  match e with
  | MouseMove x y => modify (Mouse_Position_Callback x y)
  | Scroll x y => modify (Scroll_Callback x y)
  | Frame t k => PrepareSceneView t k
  end.

Fixpoint run (evs : list Event) : Stmt :=
  match evs with
  | [] => skip
  | e :: rest => (deliver e ;; run rest)%stmt
  end.

(** The pitch increment ([yoffset] after scaling) of every mouse-move
    event of a run, in order. *)
Fixpoint pitch_increments (evs : list Event) (s : ViewState) : list R :=
  match evs with
  | [] => []
  | e :: rest =>
      let tail := pitch_increments rest (fst (deliver e s)) in
      match e with
      | MouseMove x y => snd (mouse_offsets x y s) :: tail
      | _ => tail
      end
  end.

Definition Rsum (l : list R) : R := fold_right Rplus 0 l.

Definition holds_P (e : Event) : bool :=
  match e with Frame _ k => KEY_P k | _ => true end.

Definition is_PerspectiveReset (a : Action) : bool :=
  match a with PerspectiveReset => true | _ => false end.

(** How many times the perspective reset ran. *)
Definition perspective_resets (log : list Action) : nat :=
  length (List.filter is_PerspectiveReset log).

(** The projection matrix [PrepareSceneView] defines after the keyboard
    poll. *)
Definition projection_of (s : ViewState) : mat4 :=
  if negb (bOrthographicProjection s) then
    perspective (radians (Zoom (g_pCamera s)))
      (IZR WINDOW_WIDTH / IZR WINDOW_HEIGHT) 0.1 100.0
  else
    let orthoSize := 10.0 in
    let aspect := IZR WINDOW_WIDTH / IZR WINDOW_HEIGHT in
    ortho (- orthoSize * aspect) (orthoSize * aspect)
      (- orthoSize) orthoSize 0.1 100.0.

End View.

(** ** Specification-side definitions *)

Module Spec.
Import Glm GL Scene View.
Local Open Scope string_scope.
Local Open Scope list_scope.
Local Open Scope R_scope.

(** The forward-kinematics formula of the specification (section 4.2.4):
    the tip of a segment of length [L], rotated [alpha] degrees about X and
    [beta] degrees about Y, with its base at [p]. *)
Definition fk_tip_spec (p : vec3) (L alpha beta : R) : vec3 :=
  let dx := L * sin (radians (- alpha)) * cos (radians beta) in
  let dy := L * cos (radians (- alpha)) in
  let dz := L * sin (radians (- alpha)) * sin (radians beta) in
  vec3_add p (Vec3 dx dy dz).

(** The scene list of the specification as primitives: rows 1 to 15, the
    seven handle segments in place of row 16, rows 17 to 19. *)
Definition scene_meshes : list Mesh :=
  [PlaneMesh; BoxMesh; CylinderMesh; CylinderMesh; TaperedCylinderMesh;
   SphereMesh; TaperedCylinderMesh; SphereMesh; CylinderMesh; ConeMesh;
   SphereMesh; BoxMesh; BoxMesh; CylinderMesh; TaperedCylinderMesh]
  ++ repeat CylinderMesh 7
  ++ [BoxMesh; BoxMesh; BoxMesh].

(** Rows of the scene list, counted from 0 in the draw order. *)
Definition row_ground_plane : nat := 0.
Definition row_lamp_post : nat := 3.
Definition row_lower_arm : nat := 4.
Definition row_elbow_joint : nat := 5.
Definition row_head_joint : nat := 7.
Definition row_neck : nat := 8.

Definition no_uniforms : Uniforms := fun _ => None.

(** Where the k-th draw of a command stream puts the origin of its mesh. *)
Definition draw_position (cmds : list GLCommand) (k : nat) : option vec3 :=
  match replay no_uniforms cmds !! k with
  | Some (_, u) =>
      match placement u with
      | Some v => Some (Vec3 (qx v) (qy v) (qz v))
      | None => None
      end
  | None => None
  end.

Definition is_zero (v : UValue) : bool :=
  match v with UInt 0 => true | _ => false end.
Definition any_value (v : UValue) : bool := true.

(** The registry entry a successful [CreateGLTexture] call appends. *)
Definition entry_of (c : ImageLoad * string) : TEXTURE_INFO :=
  TextureInfo (textureID (fst c)) (snd c).

(** A scene manager as the application sets it up: a live shader manager,
    an empty registry of [MAX_TEXTURES] entries, no materials; and the
    same manager after [PrepareScene] with five decodable RGB images. *)
Definition fresh_manager : SceneManager :=
  MkSceneManager true (repeat (TextureInfo 0 "") (Z.to_nat MAX_TEXTURES)) 0 [].

Definition rgb_image (name : Z) : ImageLoad := MkImageLoad (Some 3%Z) name.

Definition scene_textures : list (ImageLoad * string) :=
  [(rgb_image 1, "stainless"); (rgb_image 2, "gold"); (rgb_image 3, "wood");
   (rgb_image 4, "plastic"); (rgb_image 5, "darkplastic")].

Definition prepared_manager : SceneManager :=
  match PrepareScene (rgb_image 1) (rgb_image 2) (rgb_image 3) (rgb_image 4)
                     (rgb_image 5) fresh_manager with
  | Some (sm, _) => sm
  | None => fresh_manager
  end.

(** The clamp of the pitch as a function of the unclamped value. *)
Definition clampR (v : R) : R :=
  if Rgt_dec v 89 then 89 else if Rlt_dec v (-89) then -89 else v.

Definition pitch_step (p d : R) : R := clampR (p + d).

(** A run of mouse-move events through the given cursor positions. *)
Definition mouse_moves (ps : list (R * R)) : list Event :=
  map (fun p => MouseMove (fst p) (snd p)) ps.

Definition is_MouseMove (e : Event) : bool :=
  match e with MouseMove _ _ => true | _ => false end.

(** The front vector is the one derived from yaw and pitch. *)
Definition front_derived (c : Camera) : Prop :=
  Front c = front_of (Yaw c) (Pitch c).

Definition front_ok (s : ViewState) : Prop := front_derived (g_pCamera s).

(** A statement is sound when it keeps the front invariant, and
    establishes it whenever one of its one-shot blocks runs. *)
Definition sound (p : Stmt) : Prop :=
  forall s, front_ok s \/ snd (p s) <> [] -> front_ok (fst (p s)).

(** A statement tracks [f] when its effect on the P latch and the number
    of perspective resets it runs are [f] of the latch before it. *)
Definition tracks (p : Stmt) (f : bool -> bool * nat) : Prop :=
  forall s, pPressed (fst (p s)) = fst (f (pPressed s))
            /\ perspective_resets (snd (p s)) = snd (f (pPressed s)).

Definition quiet (p : Stmt) : Prop := tracks p (fun b => (b, O)).

(** The latch transformer of one frame in which P is down or up. *)
Definition latch_frame (p_down : bool) (b : bool) : bool * nat :=
  (p_down, if p_down && negb b then 1%nat else 0%nat).

(** A camera as [new Camera()] could leave it, and the keys of a frame in
    which only P is down. *)
Definition sample_camera : Camera :=
  MkCamera (Vec3 0 0 0) (Vec3 0 0 (-1)) (Vec3 0 1 0) (-90) 0 45.

Definition only_P : Keys :=
  MkKeys false false false false false false false true false false false
         false.
Definition no_keys : Keys :=
  MkKeys false false false false false false false false false false false
         false.

(** Cursor positions whose pitch increments are +20000 and then -10000. *)
Definition zigzag : list (R * R) := [(0, 0); (0, -200000); (0, -100000)].
(** Cursor positions whose pitch increments are 0 and then -10000. *)
Definition steady_down : list (R * R) := [(0, 0); (0, 100000)].

(** The texture bound to a unit after a list of bindings: the last
    binding made for that unit. *)
Fixpoint bound_texture (bindings : list (Z * Z)) (unit : Z) : option Z :=
  match bindings with
  | [] => None
  | (u, t) :: rest =>
      match bound_texture rest unit with
      | Some t' => Some t'
      | None => if (u =? unit)%Z then Some t else None
      end
  end.

(** An image [CreateGLTexture] accepts: decoded, with 3 or 4 channels. *)
Definition decodable (img : ImageLoad) : bool :=
  match colorChannels img with
  | Some ch => (ch =? 3)%Z || (ch =? 4)%Z
  | None => false
  end.

(** Four loads of which the second does not decode and the third has a
    single channel. *)
Definition mixed_loads : list (ImageLoad * string) :=
  [(rgb_image 1, "stainless"); (MkImageLoad None 0, "gold");
   (MkImageLoad (Some 1%Z) 7, "grey"); (rgb_image 3, "wood")].

Definition accepted (calls : list (ImageLoad * string))
  : list (ImageLoad * string) :=
  filter (fun c => decodable (fst c) = true) calls.

(** The five uniform writes of the material block, for given values. *)
Definition material_block (m : OBJECT_MATERIAL) : list GLCommand :=
  [SetUniform "material.ambientColor" (UVec3 (ambientColor m));
   SetUniform "material.ambientStrength" (UFloat (ambientStrength m));
   SetUniform "material.diffuseColor" (UVec3 (diffuseColor m));
   SetUniform "material.specularColor" (UVec3 (specularColor m));
   SetUniform "material.shininess" (UFloat (shininess m))].

(** The preset [FindMaterial] stops at. *)
Definition find_preset (sm : SceneManager) (tg : string)
  : option OBJECT_MATERIAL :=
  List.find (fun p => String.eqb (mtag p) tg) (m_objectMaterials sm).

(** The material tags [RenderScene] asks for. *)
Definition scene_material_tags : list string :=
  ["burntsand"; "darkplastic"; "gold"; "steel"; "plastic"].

(** The uniform values after a command stream. *)
Fixpoint final_uniforms (u : Uniforms) (cmds : list GLCommand) : Uniforms :=
  match cmds with
  | [] => u
  | SetUniform name v :: rest => final_uniforms (set_uniform name v u) rest
  | Draw _ :: rest => final_uniforms u rest
  end.

(** Is every draw call preceded, since the draw before it, by a write of
    [model]? [fresh] tells whether one has been seen already. *)
Fixpoint models_fresh (fresh : bool) (cmds : list GLCommand) : bool :=
  match cmds with
  | [] => true
  | SetUniform name _ :: rest =>
      models_fresh (fresh || String.eqb name "model") rest
  | Draw _ :: rest => fresh && models_fresh false rest
  end.

(** [n] frames one after the other. *)
Fixpoint frames (n : nat) (cmds : list GLCommand) : list GLCommand :=
  match n with
  | O => []
  | S n' => cmds ++ frames n' cmds
  end.

(** The arc angle, in degrees, of handle segment [i] out of [n], and the
    point of the arc it belongs to: centre ([cx], [cy]), radius [r], depth
    of the cup. *)
Definition segment_angle (n i : Z) : R :=
  -90.0 + IZR i / IZR (n - 1) * 180.0.

Definition segment_centre (cx r cy : R) (cupPos : vec3) (n i : Z) : vec3 :=
  Vec3 (cx + r * cos (radians (segment_angle n i)))
       (cy + r * sin (radians (segment_angle n i)))
       (vz cupPos).

(** A statement keeps an observation of the state when running it never
    changes it. *)
Definition keeps {A} (obs : ViewState -> A) (p : Stmt) : Prop :=
  forall s, obs (fst (p s)) = obs s.

(** What the movement keys leave alone: field of view, up vector, speed;
    and what only the mouse and the one-shot blocks change. *)
Definition lens_of (s : ViewState) : R * vec3 * R :=
  (Zoom (g_pCamera s), Up (g_pCamera s), gCameraSpeed s).

Definition heading_of (s : ViewState) : R * R * vec3 * bool :=
  (Yaw (g_pCamera s), Pitch (g_pCamera s), Front (g_pCamera s),
   bOrthographicProjection s).

(** The clamp of the camera speed as a function of the unclamped value,
    and a run of scroll events with the given vertical offsets. *)
Definition clamp_speed (v : R) : R :=
  let v := if Rlt_dec v 1 then 1 else v in
  if Rgt_dec v 20 then 20 else v.

Definition speed_step (v d : R) : R := clamp_speed (v + d).

Definition scrolls (ys : list R) : list Event := map (Scroll 0) ys.

(** The latch and the key of each one-shot block. *)
Definition latch_of (a : Action) (s : ViewState) : bool :=
  match a with
  | PerspectiveReset => pPressed s
  | OrthographicReset => oPressed s
  | FrontView => viewKeyPressed_0 s
  | TopView => viewKeyPressed_1 s
  | SideView => viewKeyPressed_2 s
  end.

Definition key_of (a : Action) (k : Keys) : bool :=
  match a with
  | PerspectiveReset => KEY_P k
  | OrthographicReset => KEY_O k
  | FrontView => KEY_1 k
  | TopView => KEY_2 k
  | SideView => KEY_3 k
  end.

Definition same_action (a b : Action) : bool :=
  match a, b with
  | PerspectiveReset, PerspectiveReset
  | OrthographicReset, OrthographicReset
  | FrontView, FrontView
  | TopView, TopView
  | SideView, SideView => true
  | _, _ => false
  end.

(** How many times block [a] ran. *)
Definition runs_of (a : Action) (log : list Action) : nat :=
  length (List.filter (same_action a) log).

(** [tracks] for an arbitrary block: the effect of a statement on the
    latch of [a] and the number of times it runs [a]. *)
Definition tracks_on (a : Action) (p : Stmt) (f : bool -> bool * nat) : Prop :=
  forall s, latch_of a (fst (p s)) = fst (f (latch_of a s))
            /\ runs_of a (snd (p s)) = snd (f (latch_of a s)).

Definition quiet_on (a : Action) (p : Stmt) : Prop :=
  tracks_on a p (fun b => (b, O)).

(** The key of [a] is down in every frame event. *)
Definition holds_key (a : Action) (e : Event) : bool :=
  match e with Frame _ k => key_of a k | _ => true end.

(** The blocks in program order, and what each of them assigns. *)
Definition all_actions : list Action :=
  [PerspectiveReset; OrthographicReset; FrontView; TopView; SideView].

Definition ortho_of (a : Action) : bool :=
  match a with PerspectiveReset => false | _ => true end.

Definition position_of (a : Action) : vec3 :=
  match a with
  | TopView => Vec3 0.0 15.0 0.0
  | SideView => Vec3 15.0 5.0 0.0
  | _ => Vec3 0.0 5.0 12.0
  end.

Definition yaw_of (a : Action) : R :=
  match a with SideView => -180.0 | _ => -90.0 end.

Definition pitch_of (a : Action) : R :=
  match a with TopView => -89.9 | _ => -20.0 end.

(** The state shows the pose and projection that block [a] assigns. *)
Definition posed (a : Action) (s : ViewState) : Prop :=
  bOrthographicProjection s = ortho_of a
  /\ Position (g_pCamera s) = position_of a
  /\ Yaw (g_pCamera s) = yaw_of a
  /\ Pitch (g_pCamera s) = pitch_of a
  /\ Front (g_pCamera s) = front_of (yaw_of a) (pitch_of a).

Definition view_of (s : ViewState) : Camera * bool :=
  (g_pCamera s, bOrthographicProjection s).

(** The last block a statement ran decides the view; a statement that
    ran none leaves the view alone. *)
Definition last_wins (p : Stmt) : Prop :=
  forall s, match last (snd (p s)) with
            | Some a => posed a (fst (p s))
            | None => view_of (fst (p s)) = view_of s
            end.

(** The blocks a statement runs form a sublist of [l], in order. *)
Definition emits (p : Stmt) (l : list Action) : Prop :=
  forall s, snd (p s) `sublist_of` l.

(** The blocks of [l] whose key is down on a clear latch. *)
Definition fired (k : Keys) (s : ViewState) (l : list Action) : list Action :=
  List.filter (fun a => key_of a k && negb (latch_of a s)) l.

(** One movement axis: its forward key, its backward key. *)
Definition axis (forward backward : bool) : R :=
  (if forward then 1 else 0) - (if backward then 1 else 0).

(** The direction the movement keys of a frame ask for. *)
Definition heading_keys (k : Keys) (c : Camera) : vec3 :=
  let right := normalize (cross (Front c) (Up c)) in
  vec3_add
    (vec3_add (vec3_scale (axis (KEY_W k) (KEY_S k)) (Front c))
              (vec3_scale (axis (KEY_D k) (KEY_A k)) right))
    (vec3_scale (axis (KEY_Q k) (KEY_E k)) (Up c)).

(** A statement made of the blocks [l] and their release tests: it runs
    the blocks of [l] that are due, touches no other latch, and leaves the
    view to the last block it ran. *)
Definition presets (k : Keys) (p : Stmt) (l : list Action) : Prop :=
  forall s,
    snd (p s) = fired k s l
    /\ (forall a, ~ In a l -> latch_of a (fst (p s)) = latch_of a s)
    /\ match last (snd (p s)) with
       | Some a => posed a (fst (p s))
       | None => view_of (fst (p s)) = view_of s
       end.

(** The cursor column after a run of events, from the column before. *)
Definition cursor_x (evs : list Event) (x0 : R) : R :=
  fold_left (fun x e => match e with MouseMove x' _ => x' | _ => x end) evs x0.

(** What only the mouse handler changes. *)
Definition cursor_of (s : ViewState) : R * bool := (gLastX s, gFirstMouse s).

Definition escape_down (e : Event) : bool :=
  match e with Frame _ k => KEY_ESCAPE k | _ => false end.

(** A clip-space point inside the cube that survives clipping. *)
Definition in_clip_cube (v : vec4) : Prop :=
  -1 <= qx v <= 1 /\ -1 <= qy v <= 1 /\ -1 <= qz v <= 1.

(** The slots written to the sampler uniform, in program order. *)
Fixpoint sampler_writes (cmds : list GLCommand) : list Z :=
  match cmds with
  | [] => []
  | SetUniform name (USampler slot) :: rest =>
      if String.eqb name g_TextureValueName then slot :: sampler_writes rest
      else sampler_writes rest
  | _ :: rest => sampler_writes rest
  end.

(** The tags [RenderScene] hands to [SetShaderTexture], in program order;
    the cup handle asks for its tag once per segment. *)
Definition scene_texture_uses : list string :=
  ["wood"; "stainless"; "darkplastic"; "plastic"; "darkplastic"; "plastic";
   "stainless"; "gold"; "darkplastic"; "stainless"; "plastic"; "stainless"]
  ++ repeat "plastic" 7
  ++ ["darkplastic"; "plastic"; "gold"].

(** The calls of [LoadSceneTextures] for given outcomes of the five image
    loads. *)
Definition scene_loads (i1 i2 i3 i4 i5 : ImageLoad)
  : list (ImageLoad * string) :=
  [(i1, "stainless"); (i2, "gold"); (i3, "wood"); (i4, "plastic");
   (i5, "darkplastic")].

(** A row of the scene list of section 4.2.4: the primitive, its scale,
    its rotation angles in degrees and its position. *)
Record SceneRow := MkSceneRow {
  row_mesh : Mesh;
  row_scale : vec3;
  row_rx : R;
  row_ry : R;
  row_rz : R;
  row_position : vec3
}.

(** Segment [i] of the mug handle (row 16): on the half circle around
    (mug_x + mug_radius + handle_radius + 0.72 segment_radius,
    mug_y + mug_height / 2) at the depth of the mug, turned about Z by its
    arc angle. The mug radius is half the mug's X scale and the handle
    radius 0.8 of it. *)
Definition handle_row (i : Z) : SceneRow :=
  let mug := Vec3 4.5 (-0.1) 0.3 in
  let mug_radius := 0.21 in
  let handle_radius := 0.168 in
  let segment_radius := 0.07 in
  let cx := 4.5 + mug_radius + handle_radius + 0.72 * segment_radius in
  let cy := -0.1 + 0.95 / 2 in
  MkSceneRow CylinderMesh (Vec3 0.07 0.13 0.07) 0 0 (segment_angle 7 i)
             (segment_centre cx handle_radius cy mug 7 i).

(** The scene list, row by row in the order of the specification. The
    three lamp joints the list places relative to one another are at the
    positions [RenderScene] computes; the lid rests on the laptop base and
    the rim sits 0.94 above the origin of the mug. *)
Definition scene_list : list SceneRow :=
  [ (* 1 ground plane *)
    MkSceneRow PlaneMesh (Vec3 100 1 100) 0 0 0 (Vec3 0 (-0.3) 0);
    (* 2 desk top *)
    MkSceneRow BoxMesh (Vec3 25 0.4 8) 0 0 0 (Vec3 0 (-0.3) 0);
    (* 3 lamp base disk *)
    MkSceneRow CylinderMesh (Vec3 1.5 0.3 1.5) 0 0 0 (Vec3 (-8) 0.6 0);
    (* 4 lamp post *)
    MkSceneRow CylinderMesh (Vec3 0.3 1.0 0.3) 0 0 0 (Vec3 (-8) 1.0 0);
    (* 5 lower arm *)
    MkSceneRow TaperedCylinderMesh (Vec3 0.15 2.2 0.15) (-50) 0 0
               (Vec3 (-8) 2 0);
    (* 6 elbow joint *)
    MkSceneRow SphereMesh (Vec3 0.25 0.25 0.25) 0 0 0 elbow_position;
    (* 7 upper arm *)
    MkSceneRow TaperedCylinderMesh (Vec3 0.15 2.0 0.15) (-25) 90 0
               elbow_position;
    (* 8 head joint *)
    MkSceneRow SphereMesh (Vec3 0.25 0.25 0.25) 0 0 0 head_position;
    (* 9 neck *)
    MkSceneRow CylinderMesh (Vec3 0.12 0.7 0.12) (-50) 0 0 head_position;
    (* 10 shade *)
    MkSceneRow ConeMesh (Vec3 1.2 0.8 1.2) 220 0 0 shade_position;
    (* 11 bulb *)
    MkSceneRow SphereMesh (Vec3 0.2 0.2 0.2) 0 0 0
               (vec3_add shade_position (Vec3 0 0.2 0));
    (* 12 laptop base *)
    MkSceneRow BoxMesh (Vec3 7 0.13 4.5) 0 0 0 (Vec3 0 (-0.035) 0);
    (* 13 laptop lid *)
    MkSceneRow BoxMesh (Vec3 6.9 0.10 4.4) 0 0 0 (Vec3 0 0.08 0);
    (* 14 mug body *)
    MkSceneRow CylinderMesh (Vec3 0.42 0.95 0.42) 0 0 0 (Vec3 4.5 (-0.1) 0.3);
    (* 15 mug rim *)
    MkSceneRow TaperedCylinderMesh (Vec3 0.48 0.09 0.48) 180 0 0
               (Vec3 4.5 0.84 0.3) ]
  (* 16 mug handle *)
  ++ (handle_row <$> [0; 1; 2; 3; 4; 5; 6]%Z)
  ++ [ (* 17 book 1 *)
       MkSceneRow BoxMesh (Vec3 0.50 2.17 1.62) 0 0 (-8) (Vec3 5.9 0.375 1.0);
       (* 18 book 2 *)
       MkSceneRow BoxMesh (Vec3 0.47 1.67 1.37) 0 0 0 (Vec3 6.5 0.375 1.0);
       (* 19 book 3 *)
       MkSceneRow BoxMesh (Vec3 1.37 0.45 2.27) 0 (-90) 0
                  (Vec3 7.89 (-0.01) 0.98) ].

(** What a draw call of a row looks like: its primitive and the [model]
    matrix [SetTransformations] builds for it. *)
Definition row_draw (r : SceneRow) : Mesh * option UValue :=
  (row_mesh r,
   Some (UMat4 (model_matrix (row_scale r) (row_rx r) (row_ry r) (row_rz r)
                             (row_position r)))).

(** What holds of the controller at any point after construction: no
    mouse event has been seen yet, or the pitch is one that a mouse event
    or a one-shot block leaves. *)
Definition pitch_settled (s : ViewState) : Prop :=
  gFirstMouse s = true \/ -89.9 <= Pitch (g_pCamera s) <= 89.

(** A mouse event and then a frame with key 2 down: the top view is on and
    the pitch is -89.9. Cursor positions whose pitch increments from there
    are +4000 and +6000. *)
Definition only_2 : Keys :=
  MkKeys false false false false false false false false false false true
         false.
Definition to_top_view : list Event := [MouseMove 0 0; Frame 1 only_2].
Definition climb : list (R * R) := [(0, -40000); (0, -100000)].

(** The primitive and the [model] uniform of every draw call of a command
    stream run from the uniform values [u0]. *)
Definition drawn_models (u0 : Uniforms) (cmds : list GLCommand)
  : list (Mesh * option UValue) :=
  (fun d => (fst d, snd d "model")) <$> replay u0 cmds.

End Spec.

(** ** Properties *)

Import Glm GL Scene View Spec.
Local Open Scope string_scope.
Local Open Scope list_scope.
Local Open Scope R_scope.

(** *** Matrix algebra *)

Section GlmFacts.

Lemma vec4_eq a b c d a' b' c' d' :
  a = a' -> b = b' -> c = c' -> d = d' -> Vec4 a b c d = Vec4 a' b' c' d'.
Proof. intros; subst; reflexivity. Qed.

Lemma mat4_eq a b c d a' b' c' d' :
  a = a' -> b = b' -> c = c' -> d = d' -> Mat4 a b c d = Mat4 a' b' c' d'.
Proof. intros; subst; reflexivity. Qed.

End GlmFacts.

Ltac glm_unfold :=
  cbv [mat4_mul mat4_mulv vec4_add vec4_scale mat4_identity translate
       Glm.scale rot_x rot_y rot_z origin4 point4 vec3_scale vec3_add
       vec3_sub dot col0 col1 col2 col3 qx qy qz qw vx vy vz].

Ltac vec_ring := glm_unfold; try apply mat4_eq; apply vec4_eq; ring.

Section Transforms.

Lemma normalize_unit (v : vec3) : dot v v = 1 -> normalize v = v.
Proof.
  intros H. unfold normalize. rewrite H, sqrt_1.
  destruct v as [a b c]. cbv [vec3_scale vx vy vz]. f_equal; field.
Qed.

Lemma rotate_x a : rotate a (Vec3 1 0 0) = rot_x a.
Proof.
  unfold rotate. rewrite normalize_unit by (cbv [dot vx vy vz]; ring).
  cbv [rot_x vec3_scale vx vy vz]. apply mat4_eq; apply vec4_eq; ring.
Qed.

Lemma rotate_y a : rotate a (Vec3 0 1 0) = rot_y a.
Proof.
  unfold rotate. rewrite normalize_unit by (cbv [dot vx vy vz]; ring).
  cbv [rot_y vec3_scale vx vy vz]. apply mat4_eq; apply vec4_eq; ring.
Qed.

Lemma rotate_z a : rotate a (Vec3 0 0 1) = rot_z a.
Proof.
  unfold rotate. rewrite normalize_unit by (cbv [dot vx vy vz]; ring).
  cbv [rot_z vec3_scale vx vy vz]. apply mat4_eq; apply vec4_eq; ring.
Qed.

Lemma mat4_mulv_assoc a b v :
  mat4_mulv (mat4_mul a b) v = mat4_mulv a (mat4_mulv b v).
Proof. destruct a as [[] [] [] []], b as [[] [] [] []], v. vec_ring. Qed.

Lemma mat4_mul_identity_r a : mat4_mul a mat4_identity = a.
Proof. destruct a as [[] [] [] []]. vec_ring. Qed.

Lemma rot_x_0 : rot_x 0 = mat4_identity.
Proof. unfold rot_x. rewrite sin_0, cos_0. vec_ring. Qed.
Lemma rot_y_0 : rot_y 0 = mat4_identity.
Proof. unfold rot_y. rewrite sin_0, cos_0. vec_ring. Qed.
Lemma rot_z_0 : rot_z 0 = mat4_identity.
Proof. unfold rot_z. rewrite sin_0, cos_0. vec_ring. Qed.

Lemma radians_0 : radians 0 = 0.
Proof. unfold radians. lra. Qed.
Lemma radians_90 : radians 90 = PI / 2.
Proof. unfold radians. lra. Qed.

Lemma scale_origin s : mat4_mulv (Glm.scale s) origin4 = origin4.
Proof. vec_ring. Qed.
Lemma rot_x_origin a : mat4_mulv (rot_x a) origin4 = origin4.
Proof. vec_ring. Qed.
Lemma rot_y_origin a : mat4_mulv (rot_y a) origin4 = origin4.
Proof. vec_ring. Qed.
Lemma rot_z_origin a : mat4_mulv (rot_z a) origin4 = origin4.
Proof. vec_ring. Qed.
Lemma translate_origin p : mat4_mulv (translate p) origin4 = point4 p.
Proof. vec_ring. Qed.

(** Each rotation leaves its own world axis where it is. *)
Lemma rot_x_axis a : mat4_mulv (rot_x a) (Vec4 1 0 0 0) = Vec4 1 0 0 0.
Proof. vec_ring. Qed.
Lemma rot_y_axis a : mat4_mulv (rot_y a) (Vec4 0 1 0 0) = Vec4 0 1 0 0.
Proof. vec_ring. Qed.
Lemma rot_z_axis a : mat4_mulv (rot_z a) (Vec4 0 0 1 0) = Vec4 0 0 1 0.
Proof. vec_ring. Qed.

Lemma model_matrix_TRS s rx ry rz p :
  model_matrix s rx ry rz p =
  mat4_mul (mat4_mul (mat4_mul (mat4_mul (translate p) (rot_x (radians rx)))
                               (rot_y (radians ry)))
                     (rot_z (radians rz)))
           (Glm.scale s).
Proof. unfold model_matrix. now rewrite rotate_x, rotate_y, rotate_z. Qed.

Lemma model_matrix_origin s rx ry rz p :
  mat4_mulv (model_matrix s rx ry rz p) origin4 = point4 p.
Proof.
  rewrite model_matrix_TRS, !mat4_mulv_assoc.
  now rewrite scale_origin, rot_z_origin, rot_y_origin, rot_x_origin,
    translate_origin.
Qed.

Lemma model_matrix_no_rotation s p :
  model_matrix s 0 0 0 p = mat4_mul (translate p) (Glm.scale s).
Proof.
  rewrite model_matrix_TRS, radians_0, rot_x_0, rot_y_0, rot_z_0.
  now rewrite !mat4_mul_identity_r.
Qed.

End Transforms.

(** C4. With a shader manager, [SetTransformations] writes exactly one
    uniform, [model], whose value is [T * Rx * Ry * Rz * S]: [T] the
    translation, [S] the scale and [Rx], [Ry], [Rz] the rotations about the
    world X, Y and Z axes by the given degrees converted to radians. That
    matrix sends the homogeneous origin to the translation, and is [T * S]
    when the three angles are zero. *)
Theorem SetTransformations_pushes_TRS
    (sm : SceneManager) (scaleXYZ : vec3) (rx ry rz : R) (positionXYZ : vec3) :
  m_pShaderManager sm = true ->
  let T := translate positionXYZ in
  let Rx := rot_x (rx * (PI / 180)) in
  let Ry := rot_y (ry * (PI / 180)) in
  let Rz := rot_z (rz * (PI / 180)) in
  let S := Glm.scale scaleXYZ in
  let M := mat4_mul (mat4_mul (mat4_mul (mat4_mul T Rx) Ry) Rz) S in
  SetTransformations sm scaleXYZ rx ry rz positionXYZ
    = Some [SetUniform "model" (UMat4 M)]
  /\ mat4_mulv Rx (Vec4 1 0 0 0) = Vec4 1 0 0 0
  /\ mat4_mulv Ry (Vec4 0 1 0 0) = Vec4 0 1 0 0
  /\ mat4_mulv Rz (Vec4 0 0 1 0) = Vec4 0 0 1 0
  /\ mat4_mulv M (Vec4 0 0 0 1)
     = Vec4 (vx positionXYZ) (vy positionXYZ) (vz positionXYZ) 1
  /\ (rx = 0 -> ry = 0 -> rz = 0 -> M = mat4_mul T S).
Proof.
  intros Hshader T Rx Ry Rz S M.
  assert (HM : M = model_matrix scaleXYZ rx ry rz positionXYZ)
    by (symmetry; apply model_matrix_TRS).
  split; [|split; [|split; [|split; [|split]]]].
  - unfold SetTransformations. now rewrite Hshader, HM.
  - apply rot_x_axis.
  - apply rot_y_axis.
  - apply rot_z_axis.
  - rewrite HM. apply model_matrix_origin.
  - intros -> -> ->. rewrite HM. apply model_matrix_no_rotation.
Qed.

Lemma SetTransformations_pushes_TRS_witness :
  SetTransformations prepared_manager (Vec3 2 3 4) 0 0 0 (Vec3 5 6 7)
  = Some [SetUniform "model"
            (UMat4 (mat4_mul (translate (Vec3 5 6 7)) (Glm.scale (Vec3 2 3 4))))].
Proof.
  destruct (SetTransformations_pushes_TRS prepared_manager (Vec3 2 3 4) 0 0 0
              (Vec3 5 6 7) eq_refl) as (Hpush & _ & _ & _ & _ & Hplain).
  rewrite Hpush. rewrite (Hplain eq_refl eq_refl eq_refl). reflexivity.
Defined.

(** *** The material library *)

(** C5. [FindMaterial] returns [false] exactly when the library is empty,
    and [true] for every non-empty library whether or not the tag occurs.
    When the tag occurs, the five shading fields of the first preset that
    carries it are copied into the out-parameter; when it does not, the
    out-parameter is returned as it was. *)
Theorem FindMaterial_contract
    (sm : SceneManager) (tg : string) (out : OBJECT_MATERIAL) :
  let result := FindMaterial sm tg out in
  (fst result = false <-> m_objectMaterials sm = [])
  /\ (m_objectMaterials sm <> [] -> fst result = true)
  /\ match List.find (fun p => String.eqb (mtag p) tg) (m_objectMaterials sm)
     with
     | Some p =>
         ambientColor (snd result) = ambientColor p
         /\ ambientStrength (snd result) = ambientStrength p
         /\ diffuseColor (snd result) = diffuseColor p
         /\ specularColor (snd result) = specularColor p
         /\ shininess (snd result) = shininess p
     | None => snd result = out
     end.
Proof.
  intros result. subst result. unfold FindMaterial.
  destruct (m_objectMaterials sm) as [|p0 ps] eqn:E.
  - cbn. repeat split; auto; congruence.
  - cbn [length Nat.eqb fst snd].
    split; [split; discriminate|]. split; [reflexivity|].
    generalize (p0 :: ps). intros l.
    induction l as [|p l IH]; cbn [List.find FindMaterial_scan]; [reflexivity|].
    destruct (String.eqb (mtag p) tg); [cbn; auto | exact IH].
Qed.

Lemma FindMaterial_contract_witness :
  fst (FindMaterial prepared_manager "gold" steel) = true
  /\ fst (FindMaterial prepared_manager "velvet" steel) = true
  /\ shininess (snd (FindMaterial prepared_manager "gold" steel)) = 64
  /\ snd (FindMaterial prepared_manager "velvet" steel) = steel.
Proof.
  pose proof (FindMaterial_contract prepared_manager "gold" steel) as Hgold.
  pose proof (FindMaterial_contract prepared_manager "velvet" steel) as Hmiss.
  cbv zeta in Hgold, Hmiss.
  destruct Hgold as (_ & Hg & Hfields). destruct Hmiss as (_ & Hm & Hsame).
  split; [apply Hg; discriminate|]. split; [apply Hm; discriminate|].
  split; [exact (proj2 (proj2 (proj2 (proj2 Hfields)))) | exact Hsame].
Defined.

(** *** The texture registry *)

Section Registry.

Lemma CreateGLTexture_registers img tg sm sm' :
  CreateGLTexture img tg sm = Some (true, sm') ->
  registered sm' = registered sm ++ [TextureInfo (textureID img) tg].
Proof.
  unfold CreateGLTexture.
  destruct (colorChannels img) as [ch|]; [|discriminate].
  destruct ((ch =? 3)%Z || (ch =? 4)%Z); [|discriminate].
  destruct (_ && _) eqn:Hb; [|discriminate].
  apply andb_true_iff in Hb as [Hb Hlen]. apply andb_true_iff in Hb as [H0 _].
  apply Z.leb_le in H0. apply Nat.ltb_lt in Hlen.
  intros [= <-]. unfold registered. cbn.
  replace (Z.to_nat (m_loadedTextures sm + 1))
    with (S (Z.to_nat (m_loadedTextures sm))) by lia.
  rewrite (take_S_r _ _ (TextureInfo (textureID img) tg))
    by (now apply list_lookup_insert_eq).
  now rewrite take_insert_ge by lia.
Qed.

(** A call that returns [false] registers nothing. *)
Lemma CreateGLTexture_false img tg sm sm' :
  CreateGLTexture img tg sm = Some (false, sm') -> sm' = sm.
Proof.
  unfold CreateGLTexture.
  destruct (colorChannels img) as [ch|]; [|now intros [= <-]].
  destruct ((ch =? 3)%Z || (ch =? 4)%Z); [|now intros [= <-]].
  destruct (_ && _); discriminate.
Qed.

(** A decodable image is registered as long as the array has room. *)
Lemma CreateGLTexture_succeeds img tg sm :
  colorChannels img = Some 3%Z \/ colorChannels img = Some 4%Z ->
  (0 <= m_loadedTextures sm < MAX_TEXTURES)%Z ->
  length (m_textureIDs sm) = Z.to_nat MAX_TEXTURES ->
  exists sm', CreateGLTexture img tg sm = Some (true, sm')
              /\ m_loadedTextures sm' = (m_loadedTextures sm + 1)%Z
              /\ length (m_textureIDs sm') = Z.to_nat MAX_TEXTURES.
Proof.
  intros Hch Hn Hlen. unfold CreateGLTexture.
  assert (Hin : (0 <=? m_loadedTextures sm)%Z
                && (m_loadedTextures sm <? MAX_TEXTURES)%Z
                && (Z.to_nat (m_loadedTextures sm) <? length (m_textureIDs sm))%nat
                = true).
  { rewrite !andb_true_iff, Z.leb_le, Z.ltb_lt, Nat.ltb_lt. lia. }
  destruct Hch as [-> | ->]; cbn [Z.eqb Pos.eqb orb]; rewrite Hin;
    eexists; (split; [reflexivity|]); cbn; rewrite length_insert; auto.
Qed.

Lemma create_all_registers calls : forall sm oks sm',
  create_all calls sm = Some (oks, sm') ->
  Forall (fun ok => ok = true) oks ->
  registered sm' = registered sm ++ (entry_of <$> calls).
Proof.
  induction calls as [|[img tg] rest IH]; intros sm oks sm' Hrun Hok.
  - injection Hrun as <- <-. now rewrite app_nil_r.
  - cbn [create_all] in Hrun.
    destruct (CreateGLTexture img tg sm) as [[ok sm1]|] eqn:H1; [|discriminate].
    destruct (create_all rest sm1) as [[oks' sm2]|] eqn:H2; [|discriminate].
    injection Hrun as <- <-. inversion Hok as [|? ? -> Hoks]; subst.
    rewrite (IH _ _ _ H2 Hoks), (CreateGLTexture_registers _ _ _ _ H1).
    now rewrite <- app_assoc.
Qed.

(** Up to the capacity, a run of decodable images succeeds call by call. *)
Lemma create_all_succeeds calls : forall sm,
  Forall (fun c => colorChannels (fst c) = Some 3%Z
                   \/ colorChannels (fst c) = Some 4%Z) calls ->
  (0 <= m_loadedTextures sm)%Z ->
  (m_loadedTextures sm + Z.of_nat (length calls) <= MAX_TEXTURES)%Z ->
  length (m_textureIDs sm) = Z.to_nat MAX_TEXTURES ->
  exists sm', create_all calls sm = Some (repeat true (length calls), sm').
Proof.
  induction calls as [|[img tg] rest IH]; intros sm Hch H0 Hroom Hlen.
  - now exists sm.
  - inversion Hch as [|? ? Hc Hrest]; subst. cbn [length] in Hroom.
    destruct (CreateGLTexture_succeeds img tg sm Hc) as (sm1 & H1 & Hn & Hl);
      [lia | exact Hlen |].
    destruct (IH sm1 Hrest) as (sm2 & H2); [lia | lia | exact Hl |].
    exists sm2. cbn [create_all length repeat]. now rewrite H1, H2.
Qed.

Lemma scan_slot_found l : forall tg i0 k e,
  NoDup (tag <$> l) -> l !! k = Some e -> tag e = tg ->
  scan_textures (fun index _ => index) (-1)%Z l tg i0 = (i0 + Z.of_nat k)%Z.
Proof.
  induction l as [|e0 l IH]; intros tg i0 k e Hnd Hk He; [discriminate|].
  rewrite fmap_cons in Hnd. apply NoDup_cons in Hnd as [Hnotin Hnd].
  destruct k as [|k]; cbn [scan_textures].
  - injection Hk as ->. rewrite He, String.eqb_refl. lia.
  - cbn in Hk. destruct (String.eqb_spec (tag e0) tg) as [Heq|_].
    + exfalso. apply Hnotin. rewrite Heq, <- He.
      apply list_elem_of_fmap_2. eapply list_elem_of_lookup_2; eauto.
    + rewrite (IH tg (i0 + 1)%Z k e); auto. lia.
Qed.

Lemma scan_slot_missing l : forall tg i0,
  tg ∉ (tag <$> l) ->
  scan_textures (fun index _ => index) (-1)%Z l tg i0 = (-1)%Z.
Proof.
  induction l as [|e0 l IH]; intros tg i0 Hnotin; [reflexivity|].
  rewrite fmap_cons in Hnotin. apply not_elem_of_cons in Hnotin as [Hne Hnotin].
  cbn [scan_textures]. destruct (String.eqb_spec (tag e0) tg); [congruence|].
  now apply IH.
Qed.

Lemma tags_of_entries (calls : list (ImageLoad * string)) :
  tag <$> (entry_of <$> calls) = snd <$> calls.
Proof. rewrite <- list_fmap_compose. reflexivity. Qed.

Lemma slot_of_registered (l : list (ImageLoad * string)) extra k tg :
  NoDup (tag <$> ((entry_of <$> l) ++ extra)) ->
  (snd <$> l) !! k = Some tg ->
  scan_textures (fun index _ => index) (-1)%Z ((entry_of <$> l) ++ extra) tg 0%Z
  = Z.of_nat k.
Proof.
  intros Hnd Hk. rewrite list_lookup_fmap in Hk.
  destruct (l !! k) as [c|] eqn:Hc; [|discriminate]. injection Hk as <-.
  rewrite (scan_slot_found _ (snd c) 0%Z k (entry_of c)); [lia | exact Hnd | | reflexivity].
  apply lookup_app_l_Some. now rewrite list_lookup_fmap, Hc.
Qed.

End Registry.

(** C6. After any run of successful [CreateGLTexture] calls with pairwise
    distinct tags, started on an empty registry, [FindTextureSlot] of the
    k-th tag is k; a tag that was never registered gets -1; and one more
    successful call with a fresh tag leaves every earlier slot as it was. *)
Theorem texture_slots_follow_insertion_order
    (sm0 sm : SceneManager) (calls : list (ImageLoad * string))
    (oks : list bool) :
  m_loadedTextures sm0 = 0%Z ->
  create_all calls sm0 = Some (oks, sm) ->
  Forall (fun ok => ok = true) oks ->
  NoDup (snd <$> calls) ->
  (forall k tg, (snd <$> calls) !! k = Some tg ->
                FindTextureSlot sm tg = Z.of_nat k)
  /\ (forall tg, tg ∉ (snd <$> calls) -> FindTextureSlot sm tg = (-1)%Z)
  /\ (forall img tg' sm',
        tg' ∉ (snd <$> calls) ->
        CreateGLTexture img tg' sm = Some (true, sm') ->
        forall k tg, (snd <$> calls) !! k = Some tg ->
                     FindTextureSlot sm' tg = Z.of_nat k).
Proof.
  intros H0 Hrun Hok Hnd.
  assert (Hreg : registered sm = entry_of <$> calls).
  { rewrite (create_all_registers _ _ _ _ Hrun Hok).
    unfold registered. now rewrite H0. }
  split; [|split].
  - intros k tg Hk. unfold FindTextureSlot. rewrite Hreg.
    rewrite <- (app_nil_r (entry_of <$> calls)).
    apply slot_of_registered; [|exact Hk].
    now rewrite app_nil_r, tags_of_entries.
  - intros tg Hnotin. unfold FindTextureSlot. rewrite Hreg.
    apply scan_slot_missing. now rewrite tags_of_entries.
  - intros img tg' sm' Hfresh Hnew k tg Hk.
    unfold FindTextureSlot.
    rewrite (CreateGLTexture_registers _ _ _ _ Hnew), Hreg.
    apply slot_of_registered; [|exact Hk].
    rewrite fmap_app, tags_of_entries. cbn.
    apply NoDup_app. split; [exact Hnd|]. split.
    + intros x Hx Hx'. apply list_elem_of_singleton in Hx'. now subst.
    + apply NoDup_singleton.
Qed.

Ltac distinct_strings :=
  cbn;
  repeat first
    [ apply NoDup_nil_2
    | apply NoDup_cons_2
    | apply not_elem_of_nil
    | apply not_elem_of_cons; split; [discriminate|] ].

Lemma texture_slots_follow_insertion_order_witness :
  exists sm sm',
    create_all scene_textures fresh_manager
      = Some ([true; true; true; true; true], sm)
    /\ FindTextureSlot sm "stainless" = 0%Z
    /\ FindTextureSlot sm "wood" = 2%Z
    /\ FindTextureSlot sm "darkplastic" = 4%Z
    /\ FindTextureSlot sm "marble" = (-1)%Z
    /\ CreateGLTexture (rgb_image 6) "marble" sm = Some (true, sm')
    /\ FindTextureSlot sm' "wood" = 2%Z.
Proof.
  do 2 eexists. split; [reflexivity|].
  assert (Hoks : Forall (fun ok => ok = true) [true; true; true; true; true])
    by (repeat constructor).
  assert (Hnd : NoDup (snd <$> scene_textures)) by distinct_strings.
  destruct (texture_slots_follow_insertion_order fresh_manager _ scene_textures
              _ eq_refl eq_refl Hoks Hnd) as (Hslot & Hmiss & Hstable).
  split; [exact (Hslot 0%nat "stainless" eq_refl)|].
  split; [exact (Hslot 2%nat "wood" eq_refl)|].
  split; [exact (Hslot 4%nat "darkplastic" eq_refl)|].
  split; [apply Hmiss; distinct_strings|].
  assert (Hfresh : "marble" ∉ (snd <$> scene_textures)) by distinct_strings.
  split; [reflexivity|].
  exact (Hstable (rgb_image 6) "marble" _ Hfresh eq_refl 2%nat "wood" eq_refl).
Defined.

(** *** One frame of the scene *)

Section Frame.

Lemma placement_model (u : Uniforms) s rx ry rz p :
  u "model" = Some (UMat4 (model_matrix s rx ry rz p)) ->
  placement u = Some (point4 p).
Proof.
  intros H. unfold placement. rewrite H. now rewrite model_matrix_origin.
Qed.

Lemma draw_position_at cmds k m (u : Uniforms) s rx ry rz p :
  replay no_uniforms cmds !! k = Some (m, u) ->
  u "model" = Some (UMat4 (model_matrix s rx ry rz p)) ->
  draw_position cmds k = Some p.
Proof.
  intros H1 H2. unfold draw_position. rewrite H1.
  rewrite (placement_model _ _ _ _ _ _ H2). now destruct p.
Qed.

(** With a shader manager the frame runs to its end, draws the scene list
    in order, and puts the two joint spheres at [elbow_position] and
    [head_position]. *)
Lemma RenderScene_frame indeterminate sm :
  m_pShaderManager sm = true ->
  exists cmds,
    RenderScene indeterminate sm = Some cmds
    /\ draws_of cmds = scene_meshes
    /\ draw_position cmds row_elbow_joint = Some elbow_position
    /\ draw_position cmds row_head_joint = Some head_position.
Proof.
  destruct sm as [shader textures loaded materials]. cbn [m_pShaderManager].
  intros ->.
  destruct materials as [|m0 materials];
    (eexists; split; [reflexivity|]; split; [reflexivity|]);
    split; (eapply draw_position_at; [reflexivity|]); reflexivity.
Qed.

(** Without a shader manager and without materials nothing is
    dereferenced: the frame consists of the draw calls alone. *)
Lemma RenderScene_without_shader indeterminate sm :
  m_pShaderManager sm = false -> m_objectMaterials sm = [] ->
  RenderScene indeterminate sm = Some (map Draw scene_meshes).
Proof.
  destruct sm as [shader textures loaded materials].
  cbn [m_pShaderManager m_objectMaterials]. intros -> ->. reflexivity.
Qed.

Lemma draws_of_map_Draw l : draws_of (map Draw l) = l.
Proof. induction l as [|m l IH]; [reflexivity|]. cbn. now rewrite IH. Qed.

Lemma sin_radians_25_pos : 0 < sin (radians 25).
Proof.
  pose proof PI_RGT_0. apply sin_gt_0; unfold radians; lra.
Qed.

End Frame.

(** C2. The elbow sphere (the sixth draw) sits at the lower-arm base
    (-8, 2, 0) moved by the forward-kinematics displacement for L = 2.2,
    alpha = -50, beta = 0 and then by -0.9 along X. The formula itself
    gives the tip (1, 0, 0) for base 0, L = 1, alpha = -90, beta = 0, and
    the tip (0, 1, 0) for alpha = 0 (whatever beta is); both exactly, so
    within any tolerance. *)
Theorem elbow_joint_by_forward_kinematics
    (indeterminate : OBJECT_MATERIAL) (sm : SceneManager) :
  m_pShaderManager sm = true ->
  exists cmds,
    RenderScene indeterminate sm = Some cmds
    /\ draws_of cmds !! row_elbow_joint = Some SphereMesh
    /\ draw_position cmds row_elbow_joint
       = Some (vec3_add (fk_tip_spec (Vec3 (-8) 2 0) 2.2 (-50) 0)
                        (Vec3 (-0.9) 0 0))
    /\ fk_tip_spec (Vec3 0 0 0) 1 (-90) 0 = Vec3 1 0 0
    /\ (forall beta, fk_tip_spec (Vec3 0 0 0) 1 0 beta = Vec3 0 1 0).
Proof.
  intros Hshader.
  destruct (RenderScene_frame indeterminate sm Hshader)
    as (cmds & Hcmds & Hdraws & Helbow & _).
  exists cmds. split; [exact Hcmds|]. split; [now rewrite Hdraws|].
  split; [|split].
  - rewrite Helbow. f_equal.
    cbv [elbow_position fk_tip_spec vec3_add vx vy vz].
    replace (- -50.0) with (- -50) by lra. replace 0.0 with 0 by lra.
    f_equal; lra.
  - cbv [fk_tip_spec vec3_add vx vy vz].
    replace (radians (- -90)) with (PI / 2) by (unfold radians; lra).
    rewrite radians_0, sin_PI2, cos_PI2, sin_0, cos_0. f_equal; lra.
  - intros beta. cbv [fk_tip_spec vec3_add vx vy vz].
    replace (radians (- 0)) with 0 by (unfold radians; lra).
    rewrite sin_0, cos_0. f_equal; lra.
Qed.

Lemma elbow_joint_by_forward_kinematics_witness :
  exists cmds,
    RenderScene steel prepared_manager = Some cmds
    /\ draw_position cmds row_elbow_joint
       = Some (vec3_add (fk_tip_spec (Vec3 (-8) 2 0) 2.2 (-50) 0)
                        (Vec3 (-0.9) 0 0)).
Proof.
  destruct (elbow_joint_by_forward_kinematics steel prepared_manager eq_refl)
    as (cmds & Hcmds & _ & Hpos & _).
  exists cmds. split; [exact Hcmds | exact Hpos].
Defined.

(** C1, as the code has it. The head-joint sphere (the eighth draw) is
    displaced from the elbow sphere by the planar offset
    (L sin 25°, L cos 25°, 0) with L = 2.0: the X-rotation of the upper arm
    enters, its Y-rotation of 90° does not. *)
Theorem head_joint_planar_offset
    (indeterminate : OBJECT_MATERIAL) (sm : SceneManager) :
  m_pShaderManager sm = true ->
  exists cmds elbow head,
    RenderScene indeterminate sm = Some cmds
    /\ draws_of cmds !! row_head_joint = Some SphereMesh
    /\ draw_position cmds row_elbow_joint = Some elbow
    /\ draw_position cmds row_head_joint = Some head
    /\ vec3_sub head elbow
       = Vec3 (2.0 * sin (radians 25)) (2.0 * cos (radians 25)) 0.
Proof.
  intros Hshader.
  destruct (RenderScene_frame indeterminate sm Hshader)
    as (cmds & Hcmds & Hdraws & Helbow & Hhead).
  exists cmds, elbow_position, head_position.
  split; [exact Hcmds|]. split; [now rewrite Hdraws|].
  split; [exact Helbow|]. split; [exact Hhead|].
  unfold head_position. set (e := elbow_position).
  cbv [vec3_sub vx vy vz]. destruct e as [ex ey ez]. cbn [vx vy vz].
  replace (- -25.0) with 25 by lra. f_equal; lra.
Qed.

Lemma head_joint_planar_offset_witness :
  exists cmds elbow head,
    RenderScene steel prepared_manager = Some cmds
    /\ draw_position cmds row_elbow_joint = Some elbow
    /\ draw_position cmds row_head_joint = Some head
    /\ vec3_sub head elbow
       = Vec3 (2.0 * sin (radians 25)) (2.0 * cos (radians 25)) 0.
Proof.
  destruct (head_joint_planar_offset steel prepared_manager eq_refl)
    as (cmds & elbow & head & Hcmds & _ & Helbow & Hhead & Hoffset).
  exists cmds, elbow, head. auto.
Defined.

(** C1, as stated, fails on the prepared scene: the displacement of the
    head joint from the elbow is not the one the forward-kinematics formula
    gives for L = 2.0, alpha = -25, beta = 90. *)
Lemma head_joint_off_the_formula_tip :
  exists cmds elbow head,
    RenderScene steel prepared_manager = Some cmds
    /\ draw_position cmds row_elbow_joint = Some elbow
    /\ draw_position cmds row_head_joint = Some head
    /\ vec3_sub head elbow
       <> Vec3 (2.0 * sin (radians 25) * cos (radians 90))
               (2.0 * cos (radians 25))
               (2.0 * sin (radians 25) * sin (radians 90)).
Proof.
  destruct (RenderScene_frame steel prepared_manager eq_refl)
    as (cmds & Hcmds & _ & Helbow & Hhead).
  exists cmds, elbow_position, head_position.
  split; [exact Hcmds|]. split; [exact Helbow|]. split; [exact Hhead|].
  intros H. apply (f_equal vz) in H. revert H.
  unfold head_position. set (e := elbow_position).
  cbv [vec3_sub vx vy vz]. destruct e as [ex ey ez]. cbn [vx vy vz].
  rewrite radians_90, sin_PI2. pose proof sin_radians_25_pos. lra.
Qed.

(** C10. A frame never takes the solid-colour path: it writes no
    [objectColor] and never sets [bUseTexture] to 0. The three rows that
    bind a material only are therefore drawn with the [bUseTexture] and
    [objectTexture] of the textured draw before them: the lower arm with
    those of the lamp post, the neck with those of the head joint, and the
    ground plane with whatever the frame found on entry, which in a second
    frame is what the last book of the first one left. *)
Theorem RenderScene_never_solid_colour
    (indeterminate : OBJECT_MATERIAL) (sm : SceneManager) (u0 : Uniforms) :
  m_pShaderManager sm = true ->
  exists cmds,
    RenderScene indeterminate sm = Some cmds
    /\ writes "objectColor" any_value cmds = false
    /\ writes "bUseTexture" is_zero cmds = false
    /\ exists plane post arm head neck plane' : Uniforms,
         let frames := replay u0 (cmds ++ cmds) in
         frames !! row_ground_plane = Some (PlaneMesh, plane)
         /\ frames !! row_lamp_post = Some (CylinderMesh, post)
         /\ frames !! row_lower_arm = Some (TaperedCylinderMesh, arm)
         /\ frames !! row_head_joint = Some (SphereMesh, head)
         /\ frames !! row_neck = Some (CylinderMesh, neck)
         /\ frames !! (25 + row_ground_plane)%nat = Some (PlaneMesh, plane')
         /\ plane "bUseTexture" = u0 "bUseTexture"
         /\ plane "objectTexture" = u0 "objectTexture"
         /\ post "bUseTexture" = Some (UInt 1)
         /\ post "objectTexture"
            = Some (USampler (FindTextureSlot sm "darkplastic"))
         /\ arm "bUseTexture" = post "bUseTexture"
         /\ arm "objectTexture" = post "objectTexture"
         /\ head "bUseTexture" = Some (UInt 1)
         /\ head "objectTexture"
            = Some (USampler (FindTextureSlot sm "plastic"))
         /\ neck "bUseTexture" = head "bUseTexture"
         /\ neck "objectTexture" = head "objectTexture"
         /\ plane' "bUseTexture" = Some (UInt 1)
         /\ plane' "objectTexture"
            = Some (USampler (FindTextureSlot sm "gold")).
Proof.
  destruct sm as [shader textures loaded materials]. cbn [m_pShaderManager].
  intros ->.
  destruct materials as [|m0 materials];
    (eexists; split; [reflexivity|]; split; [reflexivity|];
     split; [reflexivity|]);
    do 6 eexists;
    do 6 (split; [reflexivity|]);
    repeat (split; [lazy; reflexivity|]); lazy; reflexivity.
Qed.

Lemma RenderScene_never_solid_colour_witness :
  exists cmds,
    RenderScene steel prepared_manager = Some cmds
    /\ writes "objectColor" any_value cmds = false
    /\ writes "bUseTexture" is_zero cmds = false.
Proof.
  destruct (RenderScene_never_solid_colour steel prepared_manager no_uniforms
              eq_refl) as (cmds & Hcmds & Hcolour & Hflag & _).
  exists cmds. auto.
Defined.

(** *** The camera: pitch clamp *)

Section PitchClamp.

Lemma clampR_bounds v : -89 <= clampR v <= 89.
Proof. unfold clampR. destruct (Rgt_dec v 89), (Rlt_dec v (-89)); lra. Qed.

Lemma clampR_high v : 89 <= v -> clampR v = 89.
Proof. unfold clampR. destruct (Rgt_dec v 89), (Rlt_dec v (-89)); lra. Qed.

Lemma clampR_low v : v <= -89 -> clampR v = -89.
Proof. unfold clampR. destruct (Rgt_dec v 89), (Rlt_dec v (-89)); lra. Qed.

Lemma clampR_mid v : -89 <= v <= 89 -> clampR v = v.
Proof. unfold clampR. destruct (Rgt_dec v 89), (Rlt_dec v (-89)); lra. Qed.

Lemma clamp_pitch_Pitch c : Pitch (clamp_pitch c) = clampR (Pitch c).
Proof.
  unfold clamp_pitch, clampR.
  destruct (Rgt_dec (Pitch c) 89.0) as [H|H]; simpl.
  - destruct (Rgt_dec (Pitch c) 89); [|lra].
    destruct (Rlt_dec 89.0 (-89.0)); simpl; lra.
  - destruct (Rgt_dec (Pitch c) 89); [lra|].
    destruct (Rlt_dec (Pitch c) (-89.0)), (Rlt_dec (Pitch c) (-89));
      simpl; lra.
Qed.

Lemma Mouse_Pitch x y s :
  Pitch (g_pCamera (Mouse_Position_Callback x y s))
  = clampR (Pitch (g_pCamera s) + snd (mouse_offsets x y s)).
Proof.
  unfold Mouse_Position_Callback. destruct (mouse_offsets x y s) as [xo yo].
  simpl. now rewrite clamp_pitch_Pitch.
Qed.

Lemma run_cons e rest s :
  run (e :: rest) s =
  (fst (run rest (fst (deliver e s))),
   snd (deliver e s) ++ snd (run rest (fst (deliver e s)))).
Proof.
  simpl. unfold then_. destruct (deliver e s) as [s1 l1]. cbn [fst snd].
  destruct (run rest s1) as [s2 l2]. reflexivity.
Qed.

Lemma run_fst e rest s :
  fst (run (e :: rest) s) = fst (run rest (fst (deliver e s))).
Proof. now rewrite run_cons. Qed.

Lemma run_snd e rest s :
  snd (run (e :: rest) s)
  = snd (deliver e s) ++ snd (run rest (fst (deliver e s))).
Proof. now rewrite run_cons. Qed.

(** Over a run of mouse moves the pitch is the fold of the clamped
    addition over the increments. *)
Lemma run_mouse_pitch ps : forall s,
  Pitch (g_pCamera (fst (run (mouse_moves ps) s)))
  = fold_left pitch_step (pitch_increments (mouse_moves ps) s)
              (Pitch (g_pCamera s)).
Proof.
  induction ps as [|[x y] ps IH]; intros s; [reflexivity|].
  unfold mouse_moves; fold (mouse_moves ps). rewrite map_cons, run_cons.
  cbn [fst snd pitch_increments fold_left deliver modify].
  rewrite IH. cbn [fst]. unfold pitch_step at 2. now rewrite Mouse_Pitch.
Qed.

Lemma Rsum_nonneg l : Forall (fun d => 0 <= d) l -> 0 <= Rsum l.
Proof. induction 1; simpl; lra. Qed.

Lemma Rsum_nonpos l : Forall (fun d => d <= 0) l -> Rsum l <= 0.
Proof. induction 1; simpl; lra. Qed.

Lemma Rsum_nonzero_nonempty l v : Rsum l = v -> v <> 0 -> l <> [].
Proof. intros H Hv ->. simpl in H. lra. Qed.

Lemma pitch_saturates_up incs : forall p,
  Forall (fun d => 0 <= d) incs -> incs <> [] ->
  -89 <= p -> 89 <= p + Rsum incs ->
  fold_left pitch_step incs p = 89.
Proof.
  induction incs as [|d l IH]; intros p Hpos Hne Hp Hsum; [congruence|].
  inversion Hpos as [|? ? Hd Hl]; subst. simpl in *.
  pose proof (Rsum_nonneg l Hl) as Hl0.
  pose proof (clampR_bounds (p + d)) as Hb.
  destruct l as [|d' l'].
  - simpl in *. unfold pitch_step. apply clampR_high. lra.
  - apply IH; [exact Hl | discriminate | unfold pitch_step; lra |].
    unfold pitch_step.
    destruct (Rle_dec 89 (p + d)) as [Hge|Hlt].
    + rewrite clampR_high by lra. lra.
    + rewrite clampR_mid by lra. lra.
Qed.

Lemma pitch_saturates_down incs : forall p,
  Forall (fun d => d <= 0) incs -> incs <> [] ->
  p <= 89 -> p + Rsum incs <= -89 ->
  fold_left pitch_step incs p = -89.
Proof.
  induction incs as [|d l IH]; intros p Hneg Hne Hp Hsum; [congruence|].
  inversion Hneg as [|? ? Hd Hl]; subst. simpl in *.
  pose proof (Rsum_nonpos l Hl) as Hl0.
  pose proof (clampR_bounds (p + d)) as Hb.
  destruct l as [|d' l'].
  - simpl in *. unfold pitch_step. apply clampR_low. lra.
  - apply IH; [exact Hl | discriminate | unfold pitch_step; lra |].
    unfold pitch_step.
    destruct (Rle_dec (p + d) (-89)) as [Hge|Hlt].
    + rewrite clampR_low by lra. lra.
    + rewrite clampR_mid by lra. lra.
Qed.

(** The first mouse event after construction seeds the cursor position
    and moves nothing. *)
Lemma first_mouse_increment x y s :
  gFirstMouse s = true -> snd (mouse_offsets x y s) = 0.
Proof. intros H. unfold mouse_offsets. rewrite H. cbn. lra. Qed.

Lemma zigzag_increments :
  pitch_increments (mouse_moves zigzag) (ViewManager sample_camera)
  = [(0 - 0) * 0.1; (0 - -200000) * 0.1; (-200000 - -100000) * 0.1].
Proof. reflexivity. Qed.

Lemma steady_down_increments :
  pitch_increments (mouse_moves steady_down) (ViewManager sample_camera)
  = [(0 - 0) * 0.1; (0 - 100000) * 0.1].
Proof. reflexivity. Qed.

End PitchClamp.

(** C8, as stated, fails: the cursor positions of [zigzag] give pitch
    increments +20000 and -10000, which total +10000, and leave the pitch
    at -89. *)
Lemma pitch_total_alone_does_not_saturate :
  Rsum (pitch_increments (mouse_moves zigzag) (ViewManager sample_camera))
  = 10000
  /\ Pitch (g_pCamera (fst (run (mouse_moves zigzag)
                                (ViewManager sample_camera)))) = -89
  /\ Pitch (g_pCamera (fst (run (mouse_moves zigzag)
                                (ViewManager sample_camera)))) <> 89.
Proof.
  assert (Hfinal : Pitch (g_pCamera (fst (run (mouse_moves zigzag)
                                              (ViewManager sample_camera))))
                   = -89).
  { rewrite run_mouse_pitch, zigzag_increments. cbn [fold_left].
    unfold pitch_step.
    replace (Pitch (g_pCamera (ViewManager sample_camera))) with 0
      by reflexivity.
    rewrite (clampR_mid (0 + (0 - 0) * 0.1)) by lra.
    rewrite (clampR_high (0 + (0 - 0) * 0.1 + (0 - -200000) * 0.1)) by lra.
    apply clampR_low. lra. }
  split; [rewrite zigzag_increments; simpl; lra|].
  split; [exact Hfinal|]. rewrite Hfinal. lra.
Qed.

(** *** The keyboard latches *)

Section Statements.

Lemma then_fst (p q : Stmt) s : fst (then_ p q s) = fst (q (fst (p s))).
Proof.
  unfold then_. destruct (p s) as [s1 l1]. cbn [fst]. now destruct (q s1).
Qed.

Lemma then_snd (p q : Stmt) s :
  snd (then_ p q s) = snd (p s) ++ snd (q (fst (p s))).
Proof.
  unfold then_. destruct (p s) as [s1 l1]. cbn [fst snd].
  now destruct (q s1).
Qed.

Lemma then_assoc (p q r : Stmt) s :
  then_ (then_ p q) r s = then_ p (then_ q r) s.
Proof.
  unfold then_.
  destruct (p s) as [s1 l1], (q s1) as [s2 l2], (r s2) as [s3 l3].
  now rewrite app_assoc.
Qed.

Lemma perspective_resets_app l1 l2 :
  perspective_resets (l1 ++ l2)
  = (perspective_resets l1 + perspective_resets l2)%nat.
Proof. unfold perspective_resets. now rewrite List.filter_app, length_app. Qed.

End Statements.

Section Latch.

Lemma tracks_then p q f g :
  tracks p f -> tracks q g ->
  tracks (then_ p q)
         (fun b => (fst (g (fst (f b))), (snd (f b) + snd (g (fst (f b))))%nat)).
Proof.
  intros Hp Hq s. rewrite then_fst, then_snd, perspective_resets_app.
  destruct (Hp s) as [H1 H2]. destruct (Hq (fst (p s))) as [H3 H4].
  cbn [fst snd]. now rewrite H3, H4, H2, H1.
Qed.

Lemma tracks_ext p f g : (forall b, f b = g b) -> tracks p f -> tracks p g.
Proof. intros E H s. rewrite <- E. apply H. Qed.

Lemma quiet_then p q : quiet p -> quiet q -> quiet (then_ p q).
Proof.
  intros Hp Hq.
  apply (tracks_ext _ _ _ (fun _ => eq_refl) (tracks_then _ _ _ _ Hp Hq)).
Qed.

Lemma quiet_then_tracks p q f : quiet p -> tracks q f -> tracks (then_ p q) f.
Proof.
  intros Hp Hq. refine (tracks_ext _ _ _ _ (tracks_then _ _ _ _ Hp Hq)).
  intros b. cbn [fst snd]. now destruct (f b).
Qed.

Lemma tracks_then_quiet p q f : tracks p f -> quiet q -> tracks (then_ p q) f.
Proof.
  intros Hp Hq. refine (tracks_ext _ _ _ _ (tracks_then _ _ _ _ Hp Hq)).
  intros b. cbn [fst snd]. destruct (f b); cbn [fst snd]. f_equal. lia.
Qed.

Lemma quiet_modify f :
  (forall s, pPressed (f s) = pPressed s) -> quiet (modify f).
Proof. intros H s. split; [apply H | reflexivity]. Qed.

Lemma quiet_skip : quiet skip.
Proof. intros s. split; reflexivity. Qed.

Lemma quiet_ran a : is_PerspectiveReset a = false -> quiet (ran a).
Proof. intros H s. unfold ran, perspective_resets. simpl. now rewrite H. Qed.

Lemma quiet_when c p : quiet p -> quiet (when c p).
Proof.
  intros H s. unfold when. destruct (c s); [apply H | apply quiet_skip].
Qed.

Lemma quiet_on_camera f : quiet (on_camera f).
Proof. apply quiet_modify. reflexivity. Qed.

Lemma quiet_move d : quiet (move d).
Proof. apply quiet_on_camera. Qed.

Lemma quiet_move_back d : quiet (move_back d).
Proof. apply quiet_on_camera. Qed.

Lemma quiet_pose p y t : quiet (pose p y t).
Proof. apply quiet_on_camera. Qed.

End Latch.

Create HintDb latch.
#[local] Hint Resolve quiet_then quiet_when quiet_move quiet_move_back
  quiet_pose quiet_skip : latch.
#[local] Hint Extern 1 (quiet (modify _)) =>
  (apply quiet_modify; intros; reflexivity) : latch.
#[local] Hint Extern 1 (quiet (ran _)) =>
  (apply quiet_ran; reflexivity) : latch.

(** The statement applied to the state in a goal about the P latch is
    quiet. *)
Ltac quiet_step :=
  match goal with
  | |- pPressed (fst (?p ?x)) = _ /\ _ =>
      let Hq := fresh "Hq" in
      assert (Hq : quiet p) by auto 20 with latch; exact (Hq x)
  | |- pPressed (fst (?p ?x)) = _ =>
      let Hq := fresh "Hq" in
      assert (Hq : quiet p) by auto 20 with latch; rewrite (proj1 (Hq x))
  end.

Section Frames.

Lemma ProcessKeyboardEvents_tracks k :
  tracks (ProcessKeyboardEvents k) (latch_frame (KEY_P k)).
Proof.
  unfold ProcessKeyboardEvents.
  apply quiet_then_tracks; [auto with latch|].
  apply quiet_then_tracks; [intros s; cbv beta zeta; quiet_step|].
  assert (Hblock : tracks
    (then_ (when (fun s => KEY_P k && negb (pPressed s))
              (then_ (modify (set_ortho false))
                 (then_ (modify (set_pPressed true))
                    (then_ (pose (Vec3 0.0 5.0 12.0) (-90.0) (-20.0))
                           (ran PerspectiveReset)))))
           (when (fun _ => negb (KEY_P k)) (modify (set_pPressed false))))
    (latch_frame (KEY_P k))).
  { intros s.
    unfold latch_frame, then_, when, modify, ran, pose, on_camera, skip.
    destruct (KEY_P k), (pPressed s) eqn:E; cbn; rewrite ?E; split;
      reflexivity. }
  intros s. rewrite <- then_assoc.
  apply tracks_then_quiet; [exact Hblock | auto 30 with latch].
Qed.

Lemma deliver_tracks e :
  tracks (deliver e)
         (match e with
          | Frame _ k => latch_frame (KEY_P k)
          | _ => fun b => (b, O)
          end).
Proof.
  destruct e as [x y|x y|t k]; cbn [deliver].
  - apply quiet_modify. intros s. unfold Mouse_Position_Callback.
    now destruct (mouse_offsets x y s).
  - apply quiet_modify. intros s. unfold Scroll_Callback.
    repeat match goal with |- context [if ?c then _ else _] => destruct c end;
      reflexivity.
  - unfold PrepareSceneView. apply quiet_then_tracks; [auto with latch|].
    apply ProcessKeyboardEvents_tracks.
Qed.

(** While P stays down and the latch is set, nothing fires. *)
Lemma held_is_silent evs : forall s,
  pPressed s = true -> forallb holds_P evs = true ->
  perspective_resets (snd (run evs s)) = O
  /\ pPressed (fst (run evs s)) = true.
Proof.
  induction evs as [|e rest IH]; intros s Hs Hheld; [now split|].
  cbn [forallb] in Hheld. apply andb_true_iff in Hheld as [He Hrest].
  rewrite run_fst, run_snd, perspective_resets_app.
  destruct (deliver_tracks e s) as [H1 H2]. rewrite Hs in H1, H2.
  assert (Hs1 : pPressed (fst (deliver e s)) = true).
  { rewrite H1. destruct e; cbn in *; auto. }
  destruct (IH _ Hs1 Hrest) as [-> ->]. split; [|reflexivity].
  rewrite H2. destruct e; cbn in *; try reflexivity. now rewrite He.
Qed.

(** A frame in which P is up clears the latch. *)
Lemma released_clears_latch s t k :
  KEY_P k = false -> pPressed (fst (deliver (Frame t k) s)) = false.
Proof.
  intros Hk. destruct (deliver_tracks (Frame t k) s) as [H _].
  now rewrite H, Hk.
Qed.

(** What the perspective block leaves behind when no other preset key is
    down in the same frame. *)
Lemma perspective_reset_effect s k :
  pPressed s = false -> KEY_P k = true ->
  KEY_O k = false -> KEY_1 k = false -> KEY_2 k = false -> KEY_3 k = false ->
  let s1 := fst (ProcessKeyboardEvents k s) in
  bOrthographicProjection s1 = false
  /\ Position (g_pCamera s1) = Vec3 0.0 5.0 12.0
  /\ Yaw (g_pCamera s1) = -90.0
  /\ Pitch (g_pCamera s1) = -20.0
  /\ Front (g_pCamera s1) = front_of (-90.0) (-20.0).
Proof.
  intros Hs Hp Ho H1 H2 H3 s1. subst s1. unfold ProcessKeyboardEvents.
  rewrite then_fst, (then_fst (fun s0 => _)).
  match goal with |- context [fst (?q (fst (?p s)))] =>
    assert (Hs' : pPressed (fst (q (fst (p s)))) = false);
    [| generalize dependent (fst (q (fst (p s)))); intros s' Hs']
  end.
  { match goal with |- pPressed (fst (?q ?x)) = _ =>
      assert (Hq : quiet q) by (intros s0; cbv beta zeta; quiet_step);
      rewrite (proj1 (Hq x))
    end.
    cbn [fst]. quiet_step. exact Hs. }
  unfold then_, when, modify, on_camera, pose, ran, skip.
  rewrite Hp, Ho, H1, H2, H3, Hs'. cbn. repeat split; reflexivity.
Qed.

End Frames.

(** C9. When P goes down in a frame whose latch is clear (as it is at
    start-up and after every frame in which P is up) and stays down through
    any number of further frames, the perspective reset runs exactly once,
    in the first of them; while no other preset key is down in that frame
    it clears the orthographic flag, puts the camera at (0, 5, 12) with yaw
    -90 and pitch -20, and recomputes the front. The latch is then set, and
    a later reset implies a frame in which P was up. *)
Theorem perspective_reset_once
    (s : ViewState) (t : R) (k : Keys) (held later : list Event) :
  pPressed s = false -> KEY_P k = true -> forallb holds_P held = true ->
  let first := deliver (Frame t k) s in
  let pressed := run (Frame t k :: held) s in
  perspective_resets (snd first) = 1%nat
  /\ perspective_resets (snd pressed) = 1%nat
  /\ pPressed (fst pressed) = true
  /\ (perspective_resets (snd (run later (fst pressed))) <> O ->
      forallb holds_P later = false)
  /\ (KEY_O k = false -> KEY_1 k = false -> KEY_2 k = false ->
      KEY_3 k = false ->
      bOrthographicProjection (fst first) = false
      /\ Position (g_pCamera (fst first)) = Vec3 0 5 12
      /\ Yaw (g_pCamera (fst first)) = -90
      /\ Pitch (g_pCamera (fst first)) = -20
      /\ Front (g_pCamera (fst first)) = front_of (-90) (-20))
  /\ (forall new_Camera, pPressed (ViewManager new_Camera) = false)
  /\ (forall s' t' k', KEY_P k' = false ->
                       pPressed (fst (deliver (Frame t' k') s')) = false).
Proof.
  intros Hs Hk Hheld first pressed. subst first pressed.
  rewrite run_fst, run_snd, perspective_resets_app.
  destruct (deliver_tracks (Frame t k) s) as [H1 H2].
  rewrite Hs, Hk in H1, H2. unfold latch_frame in H1, H2.
  cbn [fst snd andb negb] in H1, H2.
  destruct (held_is_silent held _ H1 Hheld) as [H3 H4].
  rewrite H2, H3. split; [reflexivity|]. split; [reflexivity|].
  split; [exact H4|]. split; [|split; [|split]].
  - intros Hfire. destruct (forallb holds_P later) eqn:Hl; [|reflexivity].
    destruct (held_is_silent later _ H4 Hl) as [H5 _]. congruence.
  - intros Ho Hk1 Hk2 Hk3. cbn [deliver]. unfold PrepareSceneView.
    rewrite then_fst.
    destruct (perspective_reset_effect
                (fst (modify (fun s0 => set_clock (t - gLastFrame s0) t s0) s))
                k Hs Hk Ho Hk1 Hk2 Hk3) as (E1 & E2 & E3 & E4 & E5).
    rewrite E1, E2, E3, E4, E5.
    replace 0.0 with 0 by lra. replace 5.0 with 5 by lra.
    replace 12.0 with 12 by lra. replace (-90.0) with (-90) by lra.
    replace (-20.0) with (-20) by lra. auto.
  - reflexivity.
  - intros s' t' k'. apply released_clears_latch.
Qed.

Lemma perspective_reset_once_witness :
  let held := [Frame 2 only_P; MouseMove 10 10; Frame 3 only_P] in
  let pressed := run (Frame 1 only_P :: held) (ViewManager sample_camera) in
  perspective_resets (snd pressed) = 1%nat
  /\ pPressed (fst pressed) = true
  /\ Pitch (g_pCamera (fst (deliver (Frame 1 only_P)
                                    (ViewManager sample_camera)))) = -20.
Proof.
  intros held pressed.
  destruct (perspective_reset_once (ViewManager sample_camera) 1 only_P held []
              eq_refl eq_refl eq_refl) as (_ & Honce & Hlatch & _ & Hpose & _).
  split; [exact Honce|]. split; [exact Hlatch|].
  exact (proj1 (proj2 (proj2 (proj2
           (Hpose eq_refl eq_refl eq_refl eq_refl))))).
Defined.

(** *** The camera: front vector *)

Section FrontVector.

Lemma Mouse_front x y s :
  front_derived (g_pCamera (Mouse_Position_Callback x y s)).
Proof.
  unfold Mouse_Position_Callback, front_derived.
  destruct (mouse_offsets x y s) as [xo yo]. reflexivity.
Qed.

Lemma front_of_dot yaw pitch : dot (front_of yaw pitch) (front_of yaw pitch) = 1.
Proof.
  unfold front_of.
  set (v := Vec3 _ _ _).
  assert (Hv : dot v v = 1).
  { subst v. cbv [dot vx vy vz].
    pose proof (sin2_cos2 (radians yaw)) as Hy.
    pose proof (sin2_cos2 (radians pitch)) as Hp.
    unfold Rsqr in *.
    replace (cos (radians yaw) * cos (radians pitch)
               * (cos (radians yaw) * cos (radians pitch))
             + sin (radians pitch) * sin (radians pitch)
             + sin (radians yaw) * cos (radians pitch)
               * (sin (radians yaw) * cos (radians pitch)))
      with ((sin (radians yaw) * sin (radians yaw)
             + cos (radians yaw) * cos (radians yaw))
              * (cos (radians pitch) * cos (radians pitch))
            + sin (radians pitch) * sin (radians pitch)) by ring.
    rewrite Hy. lra. }
  now rewrite (normalize_unit v Hv).
Qed.

Lemma front_of_unit yaw pitch : length3 (front_of yaw pitch) = 1.
Proof. unfold length3. rewrite front_of_dot. apply sqrt_1. Qed.

Lemma sound_then p q : sound p -> sound q -> sound (then_ p q).
Proof.
  intros Hp Hq s H. rewrite then_fst. rewrite then_snd in H.
  apply Hq. destruct H as [H|H].
  - left. apply Hp. now left.
  - destruct (snd (p s)) as [|a l] eqn:E.
    + right. exact H.
    + left. apply Hp. right. rewrite E. discriminate.
Qed.

Lemma sound_modify f :
  (forall s, front_ok s -> front_ok (f s)) -> sound (modify f).
Proof. intros Hf s [H|H]; [now apply Hf | now elim H]. Qed.

Lemma sound_when c p : sound p -> sound (when c p).
Proof.
  intros Hp s H. unfold when in *. destruct (c s); [now apply Hp|].
  destruct H as [H|H]; [exact H | now elim H].
Qed.

Lemma sound_establishes p : (forall s, front_ok (fst (p s))) -> sound p.
Proof. intros H s _. apply H. Qed.

Lemma sound_reposition (f : Camera -> vec3) g :
  (forall c, g c = set_Position (f c) c) -> sound (on_camera g).
Proof.
  intros Hg. apply sound_modify. intros s H.
  unfold front_ok, front_derived in *. cbn. rewrite Hg. exact H.
Qed.

Lemma one_shot_block_establishes f g position yaw pitch a s :
  front_ok (fst (then_ (modify f) (then_ (modify g)
                   (then_ (pose position yaw pitch) (ran a))) s)).
Proof. reflexivity. Qed.

Lemma Scroll_camera x y s : g_pCamera (Scroll_Callback x y s) = g_pCamera s.
Proof.
  unfold Scroll_Callback.
  repeat match goal with |- context [if ?c then _ else _] => destruct c end;
    reflexivity.
Qed.

End FrontVector.

Create HintDb front.
#[local] Hint Resolve sound_then sound_when : front.
#[local] Hint Extern 1
  (sound (then_ (modify _) (then_ (modify _) (then_ (pose _ _ _) (ran _))))) =>
  (apply sound_establishes; intros; apply one_shot_block_establishes) : front.
#[local] Hint Extern 2 (sound (modify _)) =>
  (apply sound_modify; intros ? H; exact H) : front.
#[local] Hint Extern 1 (sound (move _)) =>
  (eapply sound_reposition; intros; reflexivity) : front.
#[local] Hint Extern 1 (sound (move_back _)) =>
  (eapply sound_reposition; intros; reflexivity) : front.

Section FrontInvariant.

Lemma ProcessKeyboardEvents_sound k : sound (ProcessKeyboardEvents k).
Proof.
  unfold ProcessKeyboardEvents.
  apply sound_then; [auto with front|].
  apply sound_then; [|auto 40 with front].
  intros s H. cbv beta zeta in *.
  match goal with |- front_ok (fst (?p s)) =>
    assert (Hp : sound p) by auto 20 with front; exact (Hp s H)
  end.
Qed.

Lemma deliver_sound e : sound (deliver e).
Proof.
  destruct e as [x y|x y|t k]; cbn [deliver].
  - apply sound_establishes. intros s. apply Mouse_front.
  - apply sound_modify. intros s H. unfold front_ok.
    now rewrite Scroll_camera.
  - unfold PrepareSceneView. apply sound_then; [auto with front|].
    apply ProcessKeyboardEvents_sound.
Qed.

(** The invariant holds at the end of a run that starts with it, contains
    a mouse move, or runs a one-shot block. *)
Lemma run_front evs : forall s,
  front_ok s \/ existsb is_MouseMove evs = true \/ snd (run evs s) <> [] ->
  front_ok (fst (run evs s)).
Proof.
  induction evs as [|e rest IH]; intros s H.
  - destruct H as [H|[H|H]]; [exact H | discriminate | now elim H].
  - rewrite run_fst. rewrite run_snd in H. cbn [existsb] in H. apply IH.
    destruct H as [H|[H|H]].
    + left. apply deliver_sound. now left.
    + apply orb_true_iff in H as [H|H]; [left | right; now left].
      destruct e; try discriminate. apply Mouse_front.
    + destruct (snd (deliver e s)) as [|a l] eqn:E.
      * right; right. exact H.
      * left. apply deliver_sound. right. rewrite E. discriminate.
Qed.

End FrontInvariant.

(** C7, as the code has it. The constructor leaves the front vector at
    (0, -0.5, -2). From the first mouse-move event or pose reset (P, O, 1,
    2, 3) on, whatever events follow, the front vector is the normalised
    (cos yaw cos pitch, sin pitch, sin yaw cos pitch) of the current yaw
    and pitch in radians, and has length 1. *)
Theorem front_derived_once_set (new_Camera : Camera) (evs : list Event) :
  let final := run evs (ViewManager new_Camera) in
  existsb is_MouseMove evs = true \/ snd final <> [] ->
  Front (g_pCamera (fst final))
  = normalize
      (Vec3 (cos (radians (Yaw (g_pCamera (fst final))))
               * cos (radians (Pitch (g_pCamera (fst final)))))
            (sin (radians (Pitch (g_pCamera (fst final)))))
            (sin (radians (Yaw (g_pCamera (fst final))))
               * cos (radians (Pitch (g_pCamera (fst final))))))
  /\ length3 (Front (g_pCamera (fst final))) = 1
  /\ Front (g_pCamera (ViewManager new_Camera)) = Vec3 0 (-0.5) (-2).
Proof.
  intros final H.
  assert (Hf : front_ok (fst final)) by (apply run_front; now right).
  split; [exact Hf|]. split.
  - rewrite Hf. apply front_of_unit.
  - cbn. f_equal; lra.
Qed.

Lemma front_derived_once_set_witness :
  let final := run [Frame 1 no_keys; MouseMove 3 4; Frame 2 only_P]
                   (ViewManager sample_camera) in
  length3 (Front (g_pCamera (fst final))) = 1.
Proof.
  intros final.
  apply (front_derived_once_set sample_camera
           [Frame 1 no_keys; MouseMove 3 4; Frame 2 only_P]).
  left. reflexivity.
Defined.

(** C7, as stated, fails right after construction: the front vector of the
    new controller is not the one derived from its yaw and pitch, and is
    not of length 1. *)
Lemma front_not_derived_at_construction :
  Front (g_pCamera (ViewManager sample_camera))
  <> front_of (Yaw (g_pCamera (ViewManager sample_camera)))
              (Pitch (g_pCamera (ViewManager sample_camera)))
  /\ length3 (Front (g_pCamera (ViewManager sample_camera))) <> 1.
Proof.
  assert (Hd : dot (Front (g_pCamera (ViewManager sample_camera)))
                   (Front (g_pCamera (ViewManager sample_camera))) = 4.25).
  { cbn. cbv [dot vx vy vz]. lra. }
  split.
  - intros H. rewrite H, front_of_dot in Hd. lra.
  - unfold length3. rewrite Hd. intros H.
    apply (f_equal Rsqr) in H. rewrite Rsqr_sqrt in H by lra.
    unfold Rsqr in H. lra.
Qed.

(** *** More on the texture registry *)

Section RegistryLookups.

Lemma scan_id_missing l : forall tg i0,
  tg ∉ (tag <$> l) ->
  scan_textures (fun _ e => ID e) (-1)%Z l tg i0 = (-1)%Z.
Proof.
  induction l as [|e0 l IH]; intros tg i0 Hnotin; [reflexivity|].
  rewrite fmap_cons in Hnotin. apply not_elem_of_cons in Hnotin as [Hne Hnotin].
  cbn [scan_textures]. destruct (String.eqb_spec (tag e0) tg); [congruence|].
  now apply IH.
Qed.

Lemma scan_first_match {A} (found : Z -> TEXTURE_INFO -> A) miss l :
  forall tg i0 k e,
  l !! k = Some e -> tag e = tg ->
  (forall j e', (j < k)%nat -> l !! j = Some e' -> tag e' <> tg) ->
  scan_textures found miss l tg i0 = found (i0 + Z.of_nat k)%Z e.
Proof.
  induction l as [|e0 l IH]; intros tg i0 k e Hk He Hfirst; [discriminate|].
  destruct k as [|k]; cbn [scan_textures].
  - injection Hk as ->. rewrite He, String.eqb_refl. f_equal. lia.
  - destruct (String.eqb_spec (tag e0) tg) as [Heq|_].
    + exfalso. apply (Hfirst 0%nat e0); [lia | reflexivity | exact Heq].
    + rewrite (IH tg (i0 + 1)%Z k e); [f_equal; lia | exact Hk | exact He |].
      intros j e' Hj Hl. apply (Hfirst (S j) e'); [lia | exact Hl].
Qed.

(** A tag that occurs has a first occurrence. *)
Lemma first_occurrence (l : list TEXTURE_INFO) : forall tg,
  tg ∈ (tag <$> l) ->
  exists k e, l !! k = Some e /\ tag e = tg
    /\ forall j e', (j < k)%nat -> l !! j = Some e' -> tag e' <> tg.
Proof.
  induction l as [|e0 l IH]; intros tg Hin; [now apply elem_of_nil in Hin|].
  destruct (String.eqb_spec (tag e0) tg) as [Heq|Hne].
  - exists 0%nat, e0. split; [reflexivity|]. split; [exact Heq|]. lia.
  - rewrite fmap_cons in Hin. apply elem_of_cons in Hin as [Hin|Hin];
      [congruence|].
    destruct (IH tg Hin) as (k & e & Hk & He & Hfirst).
    exists (S k), e. split; [exact Hk|]. split; [exact He|].
    intros [|j] e' Hj Hl; [now injection Hl as <-|].
    apply (Hfirst j e'); [lia | exact Hl].
Qed.

Lemma scan_slot_range l : forall tg i0,
  (0 <= i0)%Z ->
  let slot := scan_textures (fun index _ => index) (-1)%Z l tg i0 in
  slot = (-1)%Z \/ (i0 <= slot < i0 + Z.of_nat (length l))%Z.
Proof.
  induction l as [|e0 l IH]; intros tg i0 Hi0; [now left|].
  cbn [scan_textures length]. destruct (String.eqb (tag e0) tg).
  - right. lia.
  - destruct (IH tg (i0 + 1)%Z) as [H|H]; [lia | now left | right; lia].
Qed.

Lemma bind_units_below l : forall i unit,
  (unit < i)%Z -> bound_texture (bind_units l i) unit = None.
Proof.
  induction l as [|e l IH]; intros i unit Hlt; [reflexivity|].
  cbn [bind_units bound_texture]. rewrite IH by lia.
  destruct (Z.eqb_spec i unit); [lia | reflexivity].
Qed.

Lemma bind_units_at l : forall i k e,
  l !! k = Some e ->
  bound_texture (bind_units l i) (i + Z.of_nat k)%Z = Some (ID e).
Proof.
  induction l as [|e0 l IH]; intros i k e Hk; [discriminate|].
  cbn [bind_units bound_texture]. destruct k as [|k].
  - injection Hk as ->. rewrite bind_units_below by lia.
    replace (i + Z.of_nat 0)%Z with i by lia. now rewrite Z.eqb_refl.
  - replace (i + Z.of_nat (S k))%Z with ((i + 1) + Z.of_nat k)%Z by lia.
    now rewrite (IH (i + 1)%Z k e Hk).
Qed.

Lemma delete_textures_ids l : delete_textures l = ID <$> l.
Proof. induction l as [|e l IH]; [reflexivity|]. cbn. now rewrite IH. Qed.

Lemma bind_units_ids l : forall i, snd <$> bind_units l i = ID <$> l.
Proof.
  induction l as [|e l IH]; intros i; [reflexivity|]. cbn. now rewrite IH.
Qed.

End RegistryLookups.

Lemma texture_lookup_first sm tg k e :
  registered sm !! k = Some e -> tag e = tg ->
  (forall j e', (j < k)%nat -> registered sm !! j = Some e' -> tag e' <> tg) ->
  FindTextureSlot sm tg = Z.of_nat k /\ FindTextureID sm tg = ID e.
Proof.
  intros Hk He Hfirst. unfold FindTextureSlot, FindTextureID.
  rewrite !(scan_first_match _ _ _ tg 0%Z k e Hk He Hfirst).
  split; [lia | reflexivity].
Qed.

(** X1. [FindTextureSlot] and [FindTextureID] stop at the first registered
    entry that carries the tag: they return its index and its texture
    name. Both return -1 when no registered entry carries the tag, and a
    slot other than -1 is an index below the number of registered
    entries. *)
Theorem texture_lookup_finds_first_match (sm : SceneManager) (tg : string) :
  (tg ∉ (tag <$> registered sm) ->
   FindTextureSlot sm tg = (-1)%Z /\ FindTextureID sm tg = (-1)%Z)
  /\ (forall k e,
        registered sm !! k = Some e -> tag e = tg ->
        (forall j e', (j < k)%nat -> registered sm !! j = Some e' ->
                      tag e' <> tg) ->
        FindTextureSlot sm tg = Z.of_nat k /\ FindTextureID sm tg = ID e)
  /\ (FindTextureSlot sm tg = (-1)%Z
      \/ (0 <= FindTextureSlot sm tg < Z.of_nat (length (registered sm)))%Z).
Proof.
  unfold FindTextureSlot, FindTextureID. split; [|split].
  - intros Hmiss. split; [now apply scan_slot_missing | now apply scan_id_missing].
  - intros k e Hk He Hfirst. fold (FindTextureSlot sm tg) (FindTextureID sm tg).
    now apply texture_lookup_first.
  - apply (scan_slot_range (registered sm) tg 0%Z). lia.
Qed.

Lemma texture_lookup_finds_first_match_witness :
  FindTextureSlot prepared_manager "wood" = 2%Z
  /\ FindTextureID prepared_manager "wood" = 3%Z
  /\ FindTextureSlot prepared_manager "marble" = (-1)%Z
  /\ FindTextureID prepared_manager "marble" = (-1)%Z.
Proof.
  destruct (texture_lookup_finds_first_match prepared_manager "wood")
    as (_ & Hwood & _).
  destruct (texture_lookup_finds_first_match prepared_manager "marble")
    as (Hmiss & _ & _).
  destruct (Hwood 2%nat (TextureInfo 3 "wood") eq_refl eq_refl) as [Hs Hi].
  { intros [|[|j]] e' Hj Hl; [| |lia]; injection Hl as <-; discriminate. }
  destruct Hmiss as [Hs' Hi']; [distinct_strings|].
  auto.
Defined.

Section RegistryGrowth.

Lemma scan_app_found {A} (found : Z -> TEXTURE_INFO -> A) miss l extra :
  forall tg i0,
  tg ∈ (tag <$> l) ->
  scan_textures found miss (l ++ extra) tg i0 = scan_textures found miss l tg i0.
Proof.
  induction l as [|e0 l IH]; intros tg i0 Hin; [now apply elem_of_nil in Hin|].
  cbn [app scan_textures]. destruct (String.eqb_spec (tag e0) tg) as [|Hne];
    [reflexivity|].
  apply IH. rewrite fmap_cons in Hin.
  apply elem_of_cons in Hin as [Hin|Hin]; [congruence | exact Hin].
Qed.

Lemma scan_app_missing {A} (found : Z -> TEXTURE_INFO -> A) miss l extra :
  forall tg i0,
  tg ∉ (tag <$> l) ->
  scan_textures found miss (l ++ extra) tg i0
  = scan_textures found miss extra tg (i0 + Z.of_nat (length l))%Z.
Proof.
  induction l as [|e0 l IH]; intros tg i0 Hnotin.
  - cbn. f_equal. lia.
  - rewrite fmap_cons in Hnotin.
    apply not_elem_of_cons in Hnotin as [Hne Hnotin].
    cbn [app scan_textures length].
    destruct (String.eqb_spec (tag e0) tg); [congruence|].
    rewrite IH by exact Hnotin. f_equal. lia.
Qed.

Lemma CreateGLTexture_bounds img tg sm sm' :
  CreateGLTexture img tg sm = Some (true, sm') ->
  (0 <= m_loadedTextures sm < MAX_TEXTURES)%Z
  /\ length (registered sm) = Z.to_nat (m_loadedTextures sm)
  /\ m_loadedTextures sm' = (m_loadedTextures sm + 1)%Z
  /\ length (m_textureIDs sm') = length (m_textureIDs sm).
Proof.
  unfold CreateGLTexture.
  destruct (colorChannels img) as [ch|]; [|discriminate].
  destruct ((ch =? 3)%Z || (ch =? 4)%Z); [|discriminate].
  destruct (_ && _) eqn:Hb; [|discriminate].
  apply andb_true_iff in Hb as [Hb Hlen]. apply andb_true_iff in Hb as [H0 H1].
  apply Z.leb_le in H0. apply Z.ltb_lt in H1. apply Nat.ltb_lt in Hlen.
  intros [= <-]. cbn. unfold registered.
  rewrite length_take_le by lia. rewrite length_insert. auto.
Qed.

Lemma CreateGLTexture_decodable img tg sm ok sm' :
  CreateGLTexture img tg sm = Some (ok, sm') -> ok = decodable img.
Proof.
  unfold CreateGLTexture, decodable.
  destruct (colorChannels img) as [ch|]; [|now intros [= <- _]].
  destruct ((ch =? 3)%Z || (ch =? 4)%Z); [|now intros [= <- _]].
  destruct (_ && _); [now intros [= <- _] | discriminate].
Qed.

End RegistryGrowth.

(** X2. A [CreateGLTexture] call, whatever it returns and whatever tag it
    is given, leaves the slot and the texture name of every tag that was
    already registered as they were: registering a tag a second time does
    not redirect it. A successful call with a tag that was not registered
    puts it in slot [m_loadedTextures] under the generated texture name. *)
Theorem registration_keeps_slots
    (img : ImageLoad) (new_tag : string) (sm sm' : SceneManager) (ok : bool) :
  CreateGLTexture img new_tag sm = Some (ok, sm') ->
  (forall tg, tg ∈ (tag <$> registered sm) ->
              FindTextureSlot sm' tg = FindTextureSlot sm tg
              /\ FindTextureID sm' tg = FindTextureID sm tg)
  /\ (ok = true -> new_tag ∉ (tag <$> registered sm) ->
      FindTextureSlot sm' new_tag = m_loadedTextures sm
      /\ FindTextureID sm' new_tag = textureID img).
Proof.
  intros Hcall. destruct ok.
  - pose proof (CreateGLTexture_registers _ _ _ _ Hcall) as Hreg.
    destruct (CreateGLTexture_bounds _ _ _ _ Hcall) as (Hn & Hlen & _).
    unfold FindTextureSlot, FindTextureID. rewrite Hreg. split.
    + intros tg Hin. now rewrite !scan_app_found.
    + intros _ Hfresh. rewrite !scan_app_missing by exact Hfresh.
      cbn [scan_textures tag ID]. rewrite String.eqb_refl. split; [lia | reflexivity].
  - rewrite (CreateGLTexture_false _ _ _ _ Hcall). split; [auto | discriminate].
Qed.

Lemma registration_keeps_slots_witness :
  exists sm',
    CreateGLTexture (rgb_image 9) "wood" prepared_manager = Some (true, sm')
    /\ FindTextureSlot sm' "wood" = 2%Z
    /\ FindTextureID sm' "wood" = 3%Z.
Proof.
  eexists. split; [reflexivity|].
  destruct (registration_keeps_slots (rgb_image 9) "wood" prepared_manager _
              true eq_refl) as [Hkeep _].
  assert (Hin : "wood" ∈ (tag <$> registered prepared_manager)).
  { cbn. do 2 apply list_elem_of_further. apply list_elem_of_here. }
  destruct (Hkeep "wood" Hin) as [-> ->]. split; reflexivity.
Defined.

Lemma create_all_accepted calls : forall sm0 sm oks,
  create_all calls sm0 = Some (oks, sm) ->
  oks = (fun c => decodable (fst c)) <$> calls
  /\ registered sm = registered sm0 ++ (entry_of <$> accepted calls)
  /\ m_objectMaterials sm = m_objectMaterials sm0
  /\ m_pShaderManager sm = m_pShaderManager sm0.
Proof.
  induction calls as [|[img tg] rest IH]; intros sm0 sm oks Hrun.
  - injection Hrun as <- <-. now rewrite app_nil_r.
  - cbn [create_all] in Hrun.
    destruct (CreateGLTexture img tg sm0) as [[ok sm1]|] eqn:H1; [|discriminate].
    destruct (create_all rest sm1) as [[oks' sm2]|] eqn:H2; [|discriminate].
    injection Hrun as <- <-.
    destruct (IH _ _ _ H2) as (Hoks & Hreg & Hmat & Hsh).
    pose proof (CreateGLTexture_decodable _ _ _ _ _ H1) as Hok.
    rewrite fmap_cons, Hreg, Hmat, Hsh. cbn [fst]. unfold accepted.
    rewrite filter_cons. cbn [fst]. rewrite <- Hok, <- Hoks.
    split; [reflexivity|]. destruct ok.
    + rewrite decide_True by reflexivity.
      rewrite (CreateGLTexture_registers _ _ _ _ H1), fmap_cons, <- app_assoc.
      split; [reflexivity|].
      revert H1. unfold CreateGLTexture.
      destruct (colorChannels img) as [ch|]; [|discriminate].
      destruct ((ch =? 3)%Z || (ch =? 4)%Z); [|discriminate].
      destruct (_ && _); [|discriminate]. intros [= <-]. auto.
    + rewrite decide_False by discriminate.
      now rewrite (CreateGLTexture_false _ _ _ _ H1).
Qed.

(** Lookups in a registry built from the accepted calls of a run with
    pairwise distinct tags. *)
Lemma accepted_lookup calls : forall j c i0,
  NoDup (snd <$> calls) -> calls !! j = Some c ->
  scan_textures (fun index _ => index) (-1)%Z
                (entry_of <$> accepted calls) (snd c) i0
  = (if decodable (fst c)
     then i0 + Z.of_nat (length (accepted (take j calls))) else -1)%Z
  /\ scan_textures (fun _ e => ID e) (-1)%Z
                   (entry_of <$> accepted calls) (snd c) i0
     = (if decodable (fst c) then textureID (fst c) else -1)%Z.
Proof.
  induction calls as [|c0 rest IH]; intros j c i0 Hnd Hj; [discriminate|].
  rewrite fmap_cons in Hnd. apply NoDup_cons in Hnd as [Hnew Hnd].
  assert (Hrest : snd c0 ∉ (tag <$> (entry_of <$> accepted rest))).
  { rewrite tags_of_entries. intros Hin. apply Hnew.
    apply list_elem_of_fmap in Hin as (c' & -> & Hc').
    apply list_elem_of_fmap_2. unfold accepted in Hc'.
    now apply list_elem_of_filter in Hc' as [_ Hc']. }
  unfold accepted in *. rewrite filter_cons.
  destruct j as [|j].
  - injection Hj as ->. cbn [take]. rewrite filter_nil. cbn [length].
    destruct (decodable (fst c)) eqn:Ec.
    + rewrite decide_True by reflexivity. rewrite fmap_cons.
      cbn [scan_textures entry_of tag ID]. rewrite String.eqb_refl.
      split; [lia | reflexivity].
    + rewrite decide_False by discriminate.
      split; [now apply scan_slot_missing | now apply scan_id_missing].
  - cbn in Hj. cbn [take]. rewrite filter_cons.
    assert (Hne : snd c0 <> snd c).
    { intros Heq. apply Hnew. rewrite Heq. apply list_elem_of_fmap_2.
      eapply list_elem_of_lookup_2; eauto. }
    destruct (decodable (fst c0)) eqn:E0.
    + rewrite !decide_True by reflexivity. rewrite fmap_cons.
      cbn [scan_textures entry_of tag length].
      destruct (String.eqb_spec (snd c0) (snd c)) as [|_]; [contradiction|].
      destruct (IH j c (i0 + 1)%Z Hnd Hj) as [-> ->].
      split; [destruct (decodable (fst c)); lia | reflexivity].
    + rewrite !decide_False by discriminate.
      apply (IH j c i0 Hnd Hj).
Qed.

(** X3. After any run of [CreateGLTexture] calls that stays within the
    array, each call returns whether its image was decodable with 3 or 4
    channels, and the registry has grown by exactly the accepted calls, in
    call order. A failed load takes no slot: for a run with pairwise
    distinct tags on an empty registry, the slot of a tag is the number of
    accepted calls before its own, and -1 when its own call failed. *)
Theorem registry_holds_accepted_calls
    (calls : list (ImageLoad * string)) (sm0 sm : SceneManager)
    (oks : list bool) :
  create_all calls sm0 = Some (oks, sm) ->
  oks = (fun c => decodable (fst c)) <$> calls
  /\ registered sm = registered sm0 ++ (entry_of <$> accepted calls)
  /\ m_objectMaterials sm = m_objectMaterials sm0
  /\ m_pShaderManager sm = m_pShaderManager sm0
  /\ (m_loadedTextures sm0 = 0%Z -> NoDup (snd <$> calls) ->
      forall j c, calls !! j = Some c ->
        FindTextureSlot sm (snd c)
        = (if decodable (fst c)
           then Z.of_nat (length (accepted (take j calls))) else -1)%Z).
Proof.
  intros Hrun.
  destruct (create_all_accepted calls sm0 sm oks Hrun) as (H1 & H2 & H3 & H4).
  do 4 (split; [assumption|]).
  intros Hzero Hnd j c Hj. unfold FindTextureSlot. rewrite H2.
  assert (Hempty : registered sm0 = [])
    by (unfold registered; now rewrite Hzero).
  rewrite Hempty. cbn [app].
  destruct (accepted_lookup calls j c 0%Z Hnd Hj) as [-> _].
  now destruct (decodable (fst c)).
Qed.

Lemma registry_holds_accepted_calls_witness :
  exists sm,
    create_all mixed_loads fresh_manager
    = Some ([true; false; false; true], sm)
    /\ registered sm = [TextureInfo 1 "stainless"; TextureInfo 3 "wood"].
Proof.
  eexists. split; [reflexivity|].
  exact (proj1 (proj2 (registry_holds_accepted_calls mixed_loads fresh_manager
                         _ [true; false; false; true] eq_refl))).
Defined.

Section Capacity.

Lemma create_all_overflows calls : forall sm,
  Forall (fun c => decodable (fst c) = true) calls ->
  (0 <= m_loadedTextures sm <= MAX_TEXTURES)%Z ->
  length (m_textureIDs sm) = Z.to_nat MAX_TEXTURES ->
  (MAX_TEXTURES < m_loadedTextures sm + Z.of_nat (length calls))%Z ->
  create_all calls sm = None.
Proof.
  induction calls as [|[img tg] rest IH]; intros sm Hdec Hn Hlen Hover.
  - cbn in Hover. lia.
  - inversion Hdec as [|? ? Hd Hrest]; subst. cbn [fst] in Hd.
    cbn [create_all].
    destruct (CreateGLTexture img tg sm) as [[ok sm1]|] eqn:H1; [|reflexivity].
    pose proof (CreateGLTexture_decodable _ _ _ _ _ H1) as Hok.
    rewrite Hd in Hok. subst ok.
    destruct (CreateGLTexture_bounds _ _ _ _ H1) as (Hb & _ & Hn1 & Hl1).
    rewrite (IH sm1); [reflexivity | exact Hrest | lia | congruence |].
    cbn [length] in Hover. lia.
Qed.

Lemma create_all_loaded calls : forall sm oks sm',
  create_all calls sm = Some (oks, sm') ->
  Forall (fun ok => ok = true) oks ->
  m_loadedTextures sm' = (m_loadedTextures sm + Z.of_nat (length calls))%Z.
Proof.
  induction calls as [|[img tg] rest IH]; intros sm oks sm' Hrun Hok.
  - injection Hrun as <- <-. cbn. lia.
  - cbn [create_all] in Hrun.
    destruct (CreateGLTexture img tg sm) as [[ok sm1]|] eqn:H1; [|discriminate].
    destruct (create_all rest sm1) as [[oks' sm2]|] eqn:H2; [|discriminate].
    injection Hrun as <- <-. inversion Hok as [|? ? -> Hoks]; subst.
    rewrite (IH _ _ _ H2 Hoks).
    destruct (CreateGLTexture_bounds _ _ _ _ H1) as (_ & _ & -> & _).
    cbn [length]. lia.
Qed.

Lemma decodable_channels img :
  decodable img = true ->
  colorChannels img = Some 3%Z \/ colorChannels img = Some 4%Z.
Proof.
  unfold decodable. destruct (colorChannels img) as [ch|]; [|discriminate].
  intros H. apply orb_true_iff in H as [H|H]; apply Z.eqb_eq in H; subst; auto.
Qed.

End Capacity.

(** X4. Starting from an empty registry of 16 entries, a run of decodable
    images succeeds call by call as long as it has at most 16 calls, and
    then [m_loadedTextures] is the number of calls; a longer run has no
    defined outcome, because [CreateGLTexture] does not test the index
    before it writes the 17th entry. *)
Theorem registry_capacity
    (calls : list (ImageLoad * string)) (sm0 : SceneManager) :
  m_loadedTextures sm0 = 0%Z ->
  length (m_textureIDs sm0) = Z.to_nat MAX_TEXTURES ->
  Forall (fun c => decodable (fst c) = true) calls ->
  if (length calls <=? 16)%nat then
    exists sm, create_all calls sm0 = Some (repeat true (length calls), sm)
               /\ m_loadedTextures sm = Z.of_nat (length calls)
  else create_all calls sm0 = None.
Proof.
  intros H0 Hlen Hdec. destruct (Nat.leb_spec (length calls) 16) as [Hle|Hgt].
  - destruct (create_all_succeeds calls sm0) as (sm & Hrun).
    + eapply Forall_impl; [exact Hdec|]. intros c Hc. now apply decodable_channels.
    + lia.
    + rewrite H0. unfold MAX_TEXTURES. lia.
    + exact Hlen.
    + exists sm. split; [exact Hrun|].
      rewrite (create_all_loaded _ _ _ _ Hrun), H0; [lia|].
      clear. induction (length calls); cbn; constructor; auto.
  - apply create_all_overflows; auto.
    + rewrite H0. unfold MAX_TEXTURES. lia.
    + rewrite H0. unfold MAX_TEXTURES. lia.
Qed.

Lemma registry_capacity_witness :
  create_all (repeat (rgb_image 1, "t") 17) fresh_manager = None
  /\ exists sm, create_all scene_textures fresh_manager
                = Some ([true; true; true; true; true], sm)
                /\ m_loadedTextures sm = 5%Z.
Proof.
  split.
  - apply (registry_capacity (repeat (rgb_image 1, "t") 17) fresh_manager
             eq_refl eq_refl).
    repeat constructor.
  - apply (registry_capacity scene_textures fresh_manager eq_refl eq_refl).
    repeat constructor.
Defined.

(** X5. [BindGLTextures] binds texture unit k to the k-th registered
    texture, so the unit that [FindTextureSlot] names for a tag holds the
    texture that [FindTextureID] names for it: a sampler set to the slot
    of a registered tag samples that tag's texture. *)
Theorem sampler_slot_holds_the_tagged_texture
    (sm : SceneManager) (tg : string) :
  tg ∈ (tag <$> registered sm) ->
  FindTextureSlot sm tg <> (-1)%Z
  /\ bound_texture (BindGLTextures sm) (FindTextureSlot sm tg)
     = Some (FindTextureID sm tg)
  /\ length (BindGLTextures sm) = length (registered sm).
Proof.
  intros Hin.
  destruct (first_occurrence _ _ Hin) as (k & e & Hk & He & Hfirst).
  destruct (texture_lookup_first _ _ _ _ Hk He Hfirst) as [Hs Hi].
  rewrite Hs, Hi. split; [lia|]. split.
  - unfold BindGLTextures.
    now rewrite <- (bind_units_at (registered sm) 0%Z k e Hk).
  - unfold BindGLTextures. rewrite <- (length_fmap snd), bind_units_ids.
    apply length_fmap.
Qed.

Lemma sampler_slot_holds_the_tagged_texture_witness :
  bound_texture (BindGLTextures prepared_manager)
                (FindTextureSlot prepared_manager "plastic")
  = Some (FindTextureID prepared_manager "plastic").
Proof.
  apply (sampler_slot_holds_the_tagged_texture prepared_manager "plastic").
  cbn. do 3 apply list_elem_of_further. apply list_elem_of_here.
Defined.

(** X6. [DestroyGLTextures] deletes exactly the textures that
    [BindGLTextures] binds, one [glDeleteTextures] call per registered
    entry, so every texture that [FindTextureID] can return for a
    registered tag is released. *)
Theorem destroy_releases_every_registered_texture
    (sm : SceneManager) (tg : string) :
  DestroyGLTextures sm = snd <$> BindGLTextures sm
  /\ length (DestroyGLTextures sm) = length (registered sm)
  /\ (tg ∈ (tag <$> registered sm) ->
      FindTextureID sm tg ∈ DestroyGLTextures sm).
Proof.
  unfold DestroyGLTextures, BindGLTextures.
  rewrite delete_textures_ids, bind_units_ids. split; [reflexivity|].
  split; [apply length_fmap|].
  intros Hin.
  destruct (first_occurrence _ _ Hin) as (k & e & Hk & He & Hfirst).
  destruct (texture_lookup_first _ _ _ _ Hk He Hfirst) as [_ ->].
  apply list_elem_of_fmap_2. eapply list_elem_of_lookup_2; eauto.
Qed.

Lemma destroy_releases_every_registered_texture_witness :
  DestroyGLTextures prepared_manager = [1; 2; 3; 4; 5]%Z
  /\ FindTextureID prepared_manager "gold" ∈ DestroyGLTextures prepared_manager.
Proof.
  destruct (destroy_releases_every_registered_texture prepared_manager "gold")
    as (Heq & _ & Hin).
  split; [rewrite Heq; reflexivity|].
  apply Hin. cbn. apply list_elem_of_further. apply list_elem_of_here.
Defined.

(** *** Shading parameters *)

(** X7. With a shader manager, [SetShaderTexture] for a tag that is not
    registered still switches texturing on and points the sampler at
    slot -1; for a registered tag the sampler gets the slot of its first
    registration. Without a shader manager nothing is written. *)
Theorem SetShaderTexture_missing_tag (sm : SceneManager) (tg : string) :
  (m_pShaderManager sm = false -> SetShaderTexture sm tg = Some [])
  /\ (m_pShaderManager sm = true ->
      SetShaderTexture sm tg
      = Some [SetUniform "bUseTexture" (UInt 1);
              SetUniform "objectTexture" (USampler (FindTextureSlot sm tg))]
      /\ (tg ∉ (tag <$> registered sm) ->
          SetShaderTexture sm tg
          = Some [SetUniform "bUseTexture" (UInt 1);
                  SetUniform "objectTexture" (USampler (-1))])).
Proof.
  unfold SetShaderTexture. split; [now intros ->|]. intros ->.
  split; [reflexivity|]. intros Hmiss.
  unfold FindTextureSlot. now rewrite scan_slot_missing.
Qed.

Lemma SetShaderTexture_missing_tag_witness :
  SetShaderTexture prepared_manager "marble"
  = Some [SetUniform "bUseTexture" (UInt 1);
          SetUniform "objectTexture" (USampler (-1))].
Proof.
  apply (proj2 (SetShaderTexture_missing_tag prepared_manager "marble"));
    [reflexivity | distinct_strings].
Defined.

Section MaterialBlock.

Lemma FindMaterial_scan_found l : forall tg out p,
  List.find (fun q => String.eqb (mtag q) tg) l = Some p ->
  material_block (FindMaterial_scan l tg out) = material_block p.
Proof.
  induction l as [|q l IH]; intros tg out p Hfind; [discriminate|].
  cbn [List.find FindMaterial_scan] in *.
  destruct (String.eqb (mtag q) tg); [now injection Hfind as <- | now apply IH].
Qed.

Lemma FindMaterial_scan_missing l : forall tg out,
  List.find (fun q => String.eqb (mtag q) tg) l = None ->
  FindMaterial_scan l tg out = out.
Proof.
  induction l as [|q l IH]; intros tg out Hfind; [reflexivity|].
  cbn [List.find FindMaterial_scan] in *.
  destruct (String.eqb (mtag q) tg); [discriminate | now apply IH].
Qed.

(** What [SetShaderMaterial] issues, case by case. *)
Lemma SetShaderMaterial_block indeterminate sm tg :
  SetShaderMaterial indeterminate sm tg =
  match m_objectMaterials sm with
  | [] => Some []
  | _ :: _ =>
      if m_pShaderManager sm then
        Some (material_block (match find_preset sm tg with
                              | Some p => p
                              | None => indeterminate
                              end))
      else None
  end.
Proof.
  unfold SetShaderMaterial, FindMaterial, find_preset, through_shader.
  destruct (m_objectMaterials sm) as [|q l] eqn:E; [reflexivity|].
  cbn [length Nat.ltb Nat.leb Nat.eqb].
  destruct (m_pShaderManager sm); [|reflexivity]. f_equal.
  destruct (List.find _ (q :: l)) as [p|] eqn:Hfind.
  - apply (FindMaterial_scan_found _ _ indeterminate) in Hfind. exact Hfind.
  - now rewrite FindMaterial_scan_missing.
Qed.

End MaterialBlock.

(** X8. [SetShaderMaterial] writes nothing when the library is empty, and
    dereferences the null shader manager when the library is not empty
    and there is no shader manager. Otherwise it writes the five material
    uniforms: from the first preset with the tag when there is one, and
    from the uninitialised local [material] when there is none, because
    [FindMaterial] reports success for every non-empty library. *)
Theorem SetShaderMaterial_cases
    (indeterminate : OBJECT_MATERIAL) (sm : SceneManager) (tg : string) :
  (m_objectMaterials sm = [] -> SetShaderMaterial indeterminate sm tg = Some [])
  /\ (m_objectMaterials sm <> [] -> m_pShaderManager sm = false ->
      SetShaderMaterial indeterminate sm tg = None)
  /\ (m_objectMaterials sm <> [] -> m_pShaderManager sm = true ->
      forall p, find_preset sm tg = Some p ->
      SetShaderMaterial indeterminate sm tg = Some (material_block p))
  /\ (m_objectMaterials sm <> [] -> m_pShaderManager sm = true ->
      find_preset sm tg = None ->
      SetShaderMaterial indeterminate sm tg
      = Some (material_block indeterminate)).
Proof.
  rewrite SetShaderMaterial_block.
  destruct (m_objectMaterials sm) as [|q l] eqn:E.
  - repeat split; congruence.
  - split; [discriminate|]. split; [now intros _ ->|].
    split; [now intros _ -> p ->|]. now intros _ -> ->.
Qed.

Lemma SetShaderMaterial_cases_witness :
  SetShaderMaterial steel fresh_manager "gold" = Some []
  /\ SetShaderMaterial steel prepared_manager "gold"
     = Some (material_block gold)
  /\ SetShaderMaterial steel prepared_manager "velvet"
     = Some (material_block steel)
  /\ SetShaderMaterial steel
       (MkSceneManager false [] 0 [gold]) "gold" = None.
Proof.
  split; [apply (SetShaderMaterial_cases steel fresh_manager "gold");
          reflexivity|].
  split; [apply (SetShaderMaterial_cases steel prepared_manager "gold");
          [discriminate | reflexivity | reflexivity]|].
  split; [apply (SetShaderMaterial_cases steel prepared_manager "velvet");
          [discriminate | reflexivity | reflexivity]|].
  apply (SetShaderMaterial_cases steel (MkSceneManager false [] 0 [gold])
           "gold"); [discriminate | reflexivity].
Defined.

Ltac set_tag :=
  repeat first [apply list_elem_of_here | apply list_elem_of_further].

Section Indeterminate.

Lemma emit_seq_cong (a a' b b' : Emit) :
  a = a' -> b = b' -> emit_seq a b = emit_seq a' b'.
Proof. now intros -> ->. Qed.

Lemma SetShaderMaterial_known i1 i2 sm tg :
  m_objectMaterials sm = [] \/ find_preset sm tg <> None ->
  SetShaderMaterial i1 sm tg = SetShaderMaterial i2 sm tg.
Proof.
  intros H. rewrite !SetShaderMaterial_block.
  destruct (m_objectMaterials sm) as [|q l] eqn:E; [reflexivity|].
  destruct H as [H|H]; [discriminate|].
  destruct (find_preset sm tg); [reflexivity | now elim H].
Qed.

Lemma handle_loop_known i1 i2 sm cx r cy sr sl cup n todo : forall i,
  m_objectMaterials sm = [] \/ find_preset sm "plastic" <> None ->
  handle_loop i1 sm cx r cy sr sl cup n todo i
  = handle_loop i2 sm cx r cy sr sl cup n todo i.
Proof.
  induction todo as [|todo IH]; intros i H; [reflexivity|].
  cbn [handle_loop]. apply emit_seq_cong; [|now apply IH].
  unfold handle_segment.
  repeat (apply emit_seq_cong;
          [first [apply SetShaderMaterial_known; exact H | reflexivity]|]).
  reflexivity.
Qed.

End Indeterminate.

(** X9. When the library is empty, or holds a preset for each of the five
    material tags the scene uses (as it does after [SetupMaterials]), the
    commands of a frame do not depend on the uninitialised local of
    [SetShaderMaterial]. *)
Theorem RenderScene_ignores_indeterminate
    (i1 i2 : OBJECT_MATERIAL) (sm : SceneManager) :
  m_objectMaterials sm = []
  \/ Forall (fun tg => find_preset sm tg <> None) scene_material_tags ->
  RenderScene i1 sm = RenderScene i2 sm.
Proof.
  intros H.
  assert (Hk : forall tg, tg ∈ scene_material_tags ->
               m_objectMaterials sm = [] \/ find_preset sm tg <> None).
  { intros tg Hin. destruct H as [H|H]; [now left | right].
    rewrite Forall_forall in H. now apply H. }
  assert (Hb : m_objectMaterials sm = [] \/ find_preset sm "burntsand" <> None)
    by (apply Hk; unfold scene_material_tags; set_tag).
  assert (Hd : m_objectMaterials sm = [] \/ find_preset sm "darkplastic" <> None)
    by (apply Hk; unfold scene_material_tags; set_tag).
  assert (Hg : m_objectMaterials sm = [] \/ find_preset sm "gold" <> None)
    by (apply Hk; unfold scene_material_tags; set_tag).
  assert (Hs : m_objectMaterials sm = [] \/ find_preset sm "steel" <> None)
    by (apply Hk; unfold scene_material_tags; set_tag).
  assert (Hp : m_objectMaterials sm = [] \/ find_preset sm "plastic" <> None)
    by (apply Hk; unfold scene_material_tags; set_tag).
  unfold RenderScene. cbv zeta.
  repeat (apply emit_seq_cong;
          [first [ apply SetShaderMaterial_known; assumption
                 | apply handle_loop_known; assumption
                 | reflexivity ]|]).
  reflexivity.
Qed.

Lemma RenderScene_ignores_indeterminate_witness :
  RenderScene steel prepared_manager = RenderScene gold prepared_manager
  /\ RenderScene steel fresh_manager = RenderScene gold fresh_manager.
Proof.
  split.
  - apply RenderScene_ignores_indeterminate. right.
    repeat constructor; discriminate.
  - apply RenderScene_ignores_indeterminate. left. reflexivity.
Defined.

(** *** Uniforms across frames *)

Section Replay.

Lemma replay_app cmds1 cmds2 : forall u : Uniforms,
  replay u (cmds1 ++ cmds2)
  = replay u cmds1 ++ replay (final_uniforms u cmds1) cmds2.
Proof.
  induction cmds1 as [|[name v|mesh] cmds1 IH]; intros u; cbn;
    [reflexivity | apply IH | now rewrite IH].
Qed.

Lemma final_uniforms_app cmds1 cmds2 : forall u : Uniforms,
  final_uniforms u (cmds1 ++ cmds2)
  = final_uniforms (final_uniforms u cmds1) cmds2.
Proof.
  induction cmds1 as [|[name v|mesh] cmds1 IH]; intros u; cbn;
    [reflexivity | apply IH | apply IH].
Qed.

Lemma writes_app name p cmds1 cmds2 :
  writes name p (cmds1 ++ cmds2) = writes name p cmds1 || writes name p cmds2.
Proof.
  induction cmds1 as [|[n v|mesh] cmds1 IH]; cbn; [reflexivity | | exact IH].
  now rewrite IH, orb_assoc.
Qed.

(** A uniform the stream does not write keeps its value: at every draw
    and at the end. *)
Lemma unwritten_final name cmds : forall u : Uniforms,
  writes name any_value cmds = false ->
  final_uniforms u cmds name = u name.
Proof.
  induction cmds as [|[n v|mesh] cmds IH]; intros u Hw; cbn in *;
    [reflexivity | | now apply IH].
  apply orb_false_iff in Hw as [Hn Hw]. rewrite IH by exact Hw.
  unfold set_uniform. rewrite andb_true_r in Hn.
  rewrite String.eqb_sym. now rewrite Hn.
Qed.

Lemma unwritten_at_draws name cmds : forall u : Uniforms,
  writes name any_value cmds = false ->
  Forall (fun d => snd d name = u name) (replay u cmds).
Proof.
  induction cmds as [|[n v|mesh] cmds IH]; intros u Hw; cbn in *.
  - constructor.
  - apply orb_false_iff in Hw as [Hn Hw]. rewrite andb_true_r in Hn.
    specialize (IH (set_uniform n v u) Hw).
    eapply Forall_impl; [exact IH|]. intros d Hd. rewrite Hd.
    unfold set_uniform. rewrite String.eqb_sym. now rewrite Hn.
  - constructor; [reflexivity | now apply IH].
Qed.

Lemma writes_frames name p cmds n :
  writes name p cmds = false -> writes name p (frames n cmds) = false.
Proof.
  intros H. induction n as [|n IH]; [reflexivity|].
  cbn [frames]. now rewrite writes_app, H, IH.
Qed.

End Replay.

(** X10. [RenderScene] writes none of the thirteen uniforms that
    [SetupLights] sets. So once the lights are set up, every draw of every
    later frame sees them as [SetupLights] left them; in particular
    [bUseLighting] is 1 at every draw. *)
Theorem lights_survive_frames
    (indeterminate : OBJECT_MATERIAL) (sm : SceneManager) (u0 : Uniforms)
    (n : nat) :
  m_pShaderManager sm = true ->
  exists lights cmds,
    SetupLights sm = Some lights
    /\ RenderScene indeterminate sm = Some cmds
    /\ length lights = 13%nat
    /\ (forall name v, SetUniform name v ∈ lights ->
          writes name any_value cmds = false
          /\ Forall (fun d => snd d name = Some v)
                    (replay u0 (lights ++ frames n cmds)))
    /\ Forall (fun d => snd d "bUseLighting" = Some (UInt 1))
              (replay u0 (lights ++ frames n cmds)).
Proof.
  intros Hshader.
  assert (Hmain : exists lights cmds,
    SetupLights sm = Some lights
    /\ RenderScene indeterminate sm = Some cmds
    /\ length lights = 13%nat
    /\ (forall name v, SetUniform name v ∈ lights ->
          writes name any_value cmds = false
          /\ final_uniforms u0 lights name = Some v)).
  { destruct sm as [shader textures loaded materials].
    cbn [m_pShaderManager] in Hshader. subst shader.
    destruct materials as [|m0 materials];
      (eexists; eexists; split; [reflexivity|]; split; [reflexivity|];
       split; [reflexivity|]);
      intros name v Hin;
      repeat (apply elem_of_cons in Hin as [Hin|Hin];
              [injection Hin as -> ->; split; lazy; reflexivity|]);
      now apply elem_of_nil in Hin. }
  destruct Hmain as (lights & cmds & Hl & Hc & Hlen & Hall).
  exists lights, cmds. split; [exact Hl|]. split; [exact Hc|].
  split; [exact Hlen|].
  assert (Hgen : forall name v, SetUniform name v ∈ lights ->
            writes name any_value cmds = false
            /\ Forall (fun d => snd d name = Some v)
                      (replay u0 (lights ++ frames n cmds))).
  { intros name v Hin. destruct (Hall name v Hin) as [Hw Hfinal].
    split; [exact Hw|]. rewrite replay_app. apply Forall_app. split.
    - revert Hl. unfold SetupLights, through_shader. rewrite Hshader.
      intros [= <-]. constructor.
    - rewrite <- Hfinal. apply unwritten_at_draws. now apply writes_frames. }
  split; [exact Hgen|].
  apply Hgen. revert Hl. unfold SetupLights, through_shader. rewrite Hshader.
  intros [= <-]. cbn. set_tag.
Qed.

Lemma lights_survive_frames_witness :
  exists lights cmds,
    SetupLights prepared_manager = Some lights
    /\ RenderScene steel prepared_manager = Some cmds
    /\ Forall (fun d => snd d "bUseLighting" = Some (UInt 1))
              (replay no_uniforms (lights ++ frames 2 cmds)).
Proof.
  destruct (lights_survive_frames steel prepared_manager no_uniforms 2 eq_refl)
    as (lights & cmds & Hl & Hc & _ & _ & Hon).
  exists lights, cmds. auto.
Defined.

(** X11. In a frame every draw call has its own [model] matrix: between
    two draw calls, and before the first, [SetTransformations] has written
    the uniform, so no primitive is drawn with the transform of the one
    before it. *)
Theorem RenderScene_sets_model_for_every_draw
    (indeterminate : OBJECT_MATERIAL) (sm : SceneManager) :
  m_pShaderManager sm = true ->
  exists cmds,
    RenderScene indeterminate sm = Some cmds
    /\ models_fresh false cmds = true.
Proof.
  destruct sm as [shader textures loaded materials]. cbn [m_pShaderManager].
  intros ->.
  destruct materials as [|m0 materials];
    (eexists; split; [reflexivity|]; lazy; reflexivity).
Qed.

Lemma RenderScene_sets_model_for_every_draw_witness :
  exists cmds,
    RenderScene steel prepared_manager = Some cmds
    /\ models_fresh false cmds = true.
Proof.
  apply (RenderScene_sets_model_for_every_draw steel prepared_manager).
  reflexivity.
Defined.

(** *** The cup handle *)

Section Handle.

Lemma degrees_radians d : degrees (radians d) = d.
Proof. unfold degrees, radians. field. apply PI_neq0. Qed.

Lemma replay_no_draws cmds : forall u : Uniforms,
  draws_of cmds = [] -> replay u cmds = [].
Proof.
  induction cmds as [|[name v|mesh] cmds IH]; intros u H; cbn in *;
    [reflexivity | now apply IH | discriminate].
Qed.

Lemma draws_of_app cmds1 cmds2 :
  draws_of (cmds1 ++ cmds2) = draws_of cmds1 ++ draws_of cmds2.
Proof.
  induction cmds1 as [|[name v|mesh] cmds1 IH]; cbn;
    [reflexivity | exact IH | now rewrite IH].
Qed.

Lemma SetShaderMaterial_writes_materials_only indeterminate sm tg :
  m_pShaderManager sm = true ->
  exists l, SetShaderMaterial indeterminate sm tg = Some l
            /\ writes "model" any_value l = false
            /\ draws_of l = [].
Proof.
  intros Hshader. rewrite SetShaderMaterial_block, Hshader.
  destruct (m_objectMaterials sm); eexists; (split; [reflexivity|]);
    split; reflexivity.
Qed.

(** One pass of the loop body: the model matrix of segment [i], writes
    that leave it alone, and one cylinder. *)
Lemma handle_segment_cmds indeterminate sm cx r cy sr sl cup n i :
  m_pShaderManager sm = true ->
  exists tail,
    handle_segment indeterminate sm cx r cy sr sl cup n i
    = Some (SetUniform "model"
              (UMat4 (model_matrix (Vec3 sr sl sr) 0 0 (segment_angle n i)
                                   (segment_centre cx r cy cup n i)))
            :: tail ++ [Draw CylinderMesh])
    /\ writes "model" any_value tail = false
    /\ draws_of tail = [].
Proof.
  intros Hshader.
  destruct (SetShaderMaterial_writes_materials_only indeterminate sm "plastic"
              Hshader) as (l & Hl & Hw & Hd).
  exists ([SetUniform "bUseTexture" (UInt 1);
           SetUniform "objectTexture" (USampler (FindTextureSlot sm "plastic"));
           SetUniform "UVscale" (UVec2 (Vec2 1.0 1.0))] ++ l).
  split; [|split].
  - unfold handle_segment, SetTransformations, SetShaderTexture,
      SetTextureUVScale, DrawCylinderMesh.
    rewrite Hshader, Hl. cbv zeta. rewrite degrees_radians.
    cbn [emit_seq setMat4Value setIntValue setSampler2DValue setVec2Value app
         g_ModelName g_UseTextureName g_TextureValueName].
    reflexivity.
  - rewrite writes_app, Hw. reflexivity.
  - rewrite draws_of_app, Hd. reflexivity.
Qed.

Lemma handle_loop_replay indeterminate sm cx r cy sr sl cup n todo :
  m_pShaderManager sm = true ->
  forall i0 (u : Uniforms),
  exists cmds,
    handle_loop indeterminate sm cx r cy sr sl cup n todo i0 = Some cmds
    /\ draws_of cmds = repeat CylinderMesh todo
    /\ forall k, (k < todo)%nat ->
         exists uk : Uniforms,
           replay u cmds !! k = Some (CylinderMesh, uk)
           /\ uk "model"
              = Some (UMat4 (model_matrix (Vec3 sr sl sr) 0 0
                               (segment_angle n (i0 + Z.of_nat k))
                               (segment_centre cx r cy cup n
                                               (i0 + Z.of_nat k)))).
Proof.
  intros Hshader. induction todo as [|todo IH]; intros i0 u.
  - exists []. split; [reflexivity|]. split; [reflexivity|]. lia.
  - destruct (handle_segment_cmds indeterminate sm cx r cy sr sl cup n i0
                Hshader) as (tail & Hseg & Hw & Hd).
    set (M := UMat4 _) in Hseg.
    set (seg := SetUniform "model" M :: tail ++ [Draw CylinderMesh]) in *.
    destruct (IH (i0 + 1)%Z (final_uniforms u seg)) as (rest & Hrest & Hdr & Hk).
    exists (seg ++ rest). cbn [handle_loop]. rewrite Hseg, Hrest.
    split; [reflexivity|]. split.
    + rewrite draws_of_app, Hdr. subst seg. cbn [draws_of].
      rewrite draws_of_app, Hd. reflexivity.
    + assert (Hone : replay u seg
                     = [(CylinderMesh,
                         final_uniforms (set_uniform "model" M u) tail)]).
      { subst seg. cbn [replay]. rewrite replay_app.
        rewrite replay_no_draws by exact Hd. reflexivity. }
      intros [|k] Hlt.
      * eexists. rewrite replay_app, Hone. split; [reflexivity|].
        rewrite unwritten_final by exact Hw.
        replace (i0 + Z.of_nat 0)%Z with i0 by lia. reflexivity.
      * destruct (Hk k ltac:(lia)) as (uk & Hlook & Hmodel).
        exists uk. rewrite replay_app, Hone. cbn [app lookup list_lookup].
        split; [exact Hlook|]. rewrite Hmodel.
        replace (i0 + 1 + Z.of_nat k)%Z with (i0 + Z.of_nat (S k))%Z by lia.
        reflexivity.
Qed.

Lemma segment_on_arc cx r cy cup n i :
  let c := segment_centre cx r cy cup n i in
  (vx c - cx) * (vx c - cx) + (vy c - cy) * (vy c - cy) = r * r
  /\ vz c = vz cup.
Proof.
  cbv [segment_centre vx vy vz]. split; [|reflexivity].
  pose proof (sin2_cos2 (radians (segment_angle n i))) as H.
  unfold Rsqr in H.
  replace (cx + r * cos (radians (segment_angle n i)) - cx)
    with (r * cos (radians (segment_angle n i))) by ring.
  replace (cy + r * sin (radians (segment_angle n i)) - cy)
    with (r * sin (radians (segment_angle n i))) by ring.
  replace (r * cos (radians (segment_angle n i))
             * (r * cos (radians (segment_angle n i)))
           + r * sin (radians (segment_angle n i))
             * (r * sin (radians (segment_angle n i))))
    with (r * r * (sin (radians (segment_angle n i))
                     * sin (radians (segment_angle n i))
                   + cos (radians (segment_angle n i))
                     * cos (radians (segment_angle n i)))) by ring.
  rewrite H. ring.
Qed.

End Handle.

(** X12. With a shader manager, the handle loop run for [todo] passes from
    index [i0] draws [todo] cylinders. The k-th of them is segment
    [i0 + k]: it is rotated about Z by its arc angle
    -90 + 180 (i0 + k) / (n - 1) degrees (the conversion to radians and
    back cancels) and centred on the arc, at distance [handleRadius] from
    the arc centre in the X-Y plane and at the depth of the cup. *)
Theorem handle_loop_draws_the_arc
    (indeterminate : OBJECT_MATERIAL) (sm : SceneManager)
    (handleCenterX handleRadius mugCenterY segmentRadius segmentLength : R)
    (cupPos : vec3) (handleSegments : Z) (todo : nat) (i0 : Z) :
  m_pShaderManager sm = true -> handleSegments <> 1%Z ->
  exists cmds,
    handle_loop indeterminate sm handleCenterX handleRadius mugCenterY
                segmentRadius segmentLength cupPos handleSegments todo i0
    = Some cmds
    /\ draws_of cmds = repeat CylinderMesh todo
    /\ forall k, (k < todo)%nat ->
         exists (uk : Uniforms) (centre : vec3),
           replay no_uniforms cmds !! k = Some (CylinderMesh, uk)
           /\ uk "model"
              = Some (UMat4 (model_matrix
                               (Vec3 segmentRadius segmentLength segmentRadius)
                               0 0
                               (-90 + IZR (i0 + Z.of_nat k)
                                        / IZR (handleSegments - 1) * 180)
                               centre))
           /\ draw_position cmds k = Some centre
           /\ (vx centre - handleCenterX) * (vx centre - handleCenterX)
              + (vy centre - mugCenterY) * (vy centre - mugCenterY)
              = handleRadius * handleRadius
           /\ vz centre = vz cupPos.
Proof.
  intros Hshader _.
  destruct (handle_loop_replay indeterminate sm handleCenterX handleRadius
              mugCenterY segmentRadius segmentLength cupPos handleSegments
              todo Hshader i0 no_uniforms) as (cmds & Hcmds & Hdraws & Hk).
  exists cmds. split; [exact Hcmds|]. split; [exact Hdraws|].
  intros k Hlt. destruct (Hk k Hlt) as (uk & Hlook & Hmodel).
  exists uk, (segment_centre handleCenterX handleRadius mugCenterY cupPos
                handleSegments (i0 + Z.of_nat k)).
  split; [exact Hlook|]. split.
  - rewrite Hmodel. unfold segment_angle.
    replace (-90.0) with (-90) by lra. replace 180.0 with 180 by lra.
    reflexivity.
  - split; [exact (draw_position_at _ _ _ _ _ _ _ _ _ Hlook Hmodel)|].
    apply segment_on_arc.
Qed.

Lemma handle_loop_draws_the_arc_witness :
  exists cmds,
    handle_loop steel prepared_manager 5 1 0 0.07 0.13 (Vec3 4.5 0 0.3) 7 7 0
    = Some cmds
    /\ draws_of cmds = repeat CylinderMesh 7.
Proof.
  destruct (handle_loop_draws_the_arc steel prepared_manager 5 1 0 0.07 0.13
              (Vec3 4.5 0 0.3) 7 7 0 eq_refl ltac:(discriminate))
    as (cmds & Hcmds & Hdraws & _).
  exists cmds. auto.
Defined.

(** X13. The matrix [SetTransformations] builds is affine: it keeps the
    fourth coordinate of every vector. Without rotation it scales a point
    and then translates it. With an X-rotation alone it sends the unit
    point of the Y axis to the translation plus the Y-scale times
    (0, cos, sin) of the angle: an X-rotation tilts a segment in the Y-Z
    plane and never moves its far end along X. *)
Theorem model_matrix_places_points
    (scaleXYZ positionXYZ : vec3) (rx ry rz : R) (v : vec4) (x y z : R) :
  qw (mat4_mulv (model_matrix scaleXYZ rx ry rz positionXYZ) v) = qw v
  /\ mat4_mulv (model_matrix scaleXYZ 0 0 0 positionXYZ) (Vec4 x y z 1)
     = Vec4 (vx scaleXYZ * x + vx positionXYZ)
            (vy scaleXYZ * y + vy positionXYZ)
            (vz scaleXYZ * z + vz positionXYZ) 1
  /\ mat4_mulv (model_matrix scaleXYZ rx 0 0 positionXYZ) (Vec4 0 1 0 1)
     = Vec4 (vx positionXYZ)
            (vy positionXYZ + vy scaleXYZ * cos (rx * (PI / 180)))
            (vz positionXYZ + vy scaleXYZ * sin (rx * (PI / 180))) 1.
Proof.
  split; [|split].
  - rewrite model_matrix_TRS. destruct v. glm_unfold. ring.
  - rewrite model_matrix_no_rotation. vec_ring.
  - rewrite model_matrix_TRS, radians_0, rot_y_0, rot_z_0.
    rewrite !mat4_mul_identity_r. unfold radians. vec_ring.
Qed.

(** *** What the events leave alone *)

Section Keeps.

Context {A : Type} (obs : ViewState -> A).

Lemma keeps_then p q : keeps obs p -> keeps obs q -> keeps obs (then_ p q).
Proof. intros Hp Hq s. now rewrite then_fst, Hq, Hp. Qed.

Lemma keeps_when c p : keeps obs p -> keeps obs (when c p).
Proof. intros Hp s. unfold when. destruct (c s); [apply Hp | reflexivity]. Qed.

Lemma keeps_skip : keeps obs skip.
Proof. intros s. reflexivity. Qed.

Lemma keeps_ran a : keeps obs (ran a).
Proof. intros s. reflexivity. Qed.

Lemma keeps_modify f : (forall s, obs (f s) = obs s) -> keeps obs (modify f).
Proof. intros H s. apply H. Qed.

End Keeps.

Create HintDb keeps.
#[local] Hint Resolve keeps_then keeps_when keeps_skip keeps_ran : keeps.
#[local] Hint Extern 1 (keeps _ (modify _)) =>
  (apply keeps_modify; intros; reflexivity) : keeps.
#[local] Hint Extern 1 (keeps _ (move _)) =>
  (apply keeps_modify; intros; reflexivity) : keeps.
#[local] Hint Extern 1 (keeps _ (move_back _)) =>
  (apply keeps_modify; intros; reflexivity) : keeps.
#[local] Hint Extern 1 (keeps _ (pose _ _ _)) =>
  (apply keeps_modify; intros; reflexivity) : keeps.
(** The movement block, whose speed is read from the state it runs on. *)
Ltac keeps_local :=
  let s := fresh "s" in
  intros s; cbv beta zeta;
  match goal with
  | |- ?obs (fst (?p s)) = _ =>
      let Hp := fresh "Hp" in
      assert (Hp : keeps obs p) by auto 20 with keeps; exact (Hp s)
  end.

Section CameraInvariants.

Lemma ProcessKeyboardEvents_keeps_lens k : keeps lens_of (ProcessKeyboardEvents k).
Proof.
  unfold ProcessKeyboardEvents.
  apply keeps_then; [auto with keeps|].
  apply keeps_then; [keeps_local | auto 40 with keeps].
Qed.

Lemma Mouse_keeps_lens x y s :
  lens_of (Mouse_Position_Callback x y s) = lens_of s.
Proof.
  unfold Mouse_Position_Callback, lens_of, recalculate_front, clamp_pitch.
  destruct (mouse_offsets x y s) as [xo yo]. cbn.
  repeat match goal with |- context [if ?c then _ else _] => destruct c end;
    reflexivity.
Qed.

Lemma clamp_speed_range v : 1 <= clamp_speed v <= 20.
Proof.
  unfold clamp_speed. destruct (Rlt_dec v 1).
  - destruct (Rgt_dec 1 20); lra.
  - destruct (Rgt_dec v 20); lra.
Qed.

Lemma clamp_speed_mid v : 1 <= v <= 20 -> clamp_speed v = v.
Proof.
  unfold clamp_speed. intros H. destruct (Rlt_dec v 1); [lra|].
  destruct (Rgt_dec v 20); lra.
Qed.

Lemma clamp_speed_high v : 20 <= v -> clamp_speed v = 20.
Proof.
  unfold clamp_speed. intros H. destruct (Rlt_dec v 1); [lra|].
  destruct (Rgt_dec v 20); lra.
Qed.

Lemma clamp_speed_low v : v <= 1 -> clamp_speed v = 1.
Proof.
  unfold clamp_speed. intros H. destruct (Rlt_dec v 1).
  - destruct (Rgt_dec 1 20); lra.
  - destruct (Rgt_dec v 20); lra.
Qed.

Lemma Scroll_speed x y s :
  gCameraSpeed (Scroll_Callback x y s) = clamp_speed (gCameraSpeed s + y).
Proof.
  unfold Scroll_Callback, clamp_speed. cbn.
  destruct (Rlt_dec (gCameraSpeed s + y) 1.0), (Rlt_dec (gCameraSpeed s + y) 1);
    try lra; cbn.
  - destruct (Rgt_dec 1.0 20.0), (Rgt_dec 1 20); try lra; cbn; lra.
  - destruct (Rgt_dec (gCameraSpeed s + y) 20.0),
      (Rgt_dec (gCameraSpeed s + y) 20); try lra; cbn; lra.
Qed.

Lemma Scroll_rest x y s :
  g_pCamera (Scroll_Callback x y s) = g_pCamera s
  /\ bOrthographicProjection (Scroll_Callback x y s) = bOrthographicProjection s.
Proof.
  unfold Scroll_Callback.
  repeat match goal with |- context [if ?c then _ else _] => destruct c end;
    split; reflexivity.
Qed.

Lemma lens_of_eq s s' :
  lens_of s' = lens_of s ->
  Zoom (g_pCamera s') = Zoom (g_pCamera s)
  /\ Up (g_pCamera s') = Up (g_pCamera s)
  /\ gCameraSpeed s' = gCameraSpeed s.
Proof. unfold lens_of. intros H. injection H. auto. Qed.

(** Zoom and up vector never change; the speed stays within its clamp. *)
Lemma deliver_lens e s :
  let s' := fst (deliver e s) in
  Zoom (g_pCamera s') = Zoom (g_pCamera s)
  /\ Up (g_pCamera s') = Up (g_pCamera s)
  /\ (1 <= gCameraSpeed s <= 20 -> 1 <= gCameraSpeed s' <= 20).
Proof.
  destruct e as [x y|x y|t k]; cbn [deliver].
  - destruct (lens_of_eq _ _ (Mouse_keeps_lens x y s)) as (H1 & H2 & H3).
    cbn [modify fst]. split; [exact H1|]. split; [exact H2|]. now rewrite H3.
  - cbn [modify fst]. destruct (Scroll_rest x y s) as [-> _].
    rewrite Scroll_speed.
    split; [reflexivity|]. split; [reflexivity|].
    intros _. apply clamp_speed_range.
  - unfold PrepareSceneView. cbv zeta. rewrite then_fst.
    destruct (lens_of_eq _ _ (ProcessKeyboardEvents_keeps_lens k
               (fst (modify (fun s0 => set_clock (t - gLastFrame s0) t s0) s))))
      as (H1 & H2 & H3).
    rewrite H1, H2, H3. cbn [modify fst]. auto.
Qed.

End CameraInvariants.

(** X14. Whatever events the controller receives after construction, the
    field of view stays 80 degrees, the up vector stays (0, 1, 0) and the
    camera speed stays within [1, 20]: scrolling changes the speed and
    never the zoom, and no key or mouse event touches any of the three. *)
Theorem lens_is_invariant (new_Camera : Camera) (evs : list Event) :
  let s := fst (run evs (ViewManager new_Camera)) in
  Zoom (g_pCamera s) = 80
  /\ Up (g_pCamera s) = Vec3 0 1 0
  /\ 1 <= gCameraSpeed s <= 20.
Proof.
  cbv zeta.
  assert (Hgen : forall evs s0,
            Zoom (g_pCamera s0) = 80 -> Up (g_pCamera s0) = Vec3 0 1 0 ->
            1 <= gCameraSpeed s0 <= 20 ->
            Zoom (g_pCamera (fst (run evs s0))) = 80
            /\ Up (g_pCamera (fst (run evs s0))) = Vec3 0 1 0
            /\ 1 <= gCameraSpeed (fst (run evs s0)) <= 20).
  { clear. induction evs as [|e rest IH]; intros s0 Hz Hu Hs; [now auto|].
    rewrite run_fst. destruct (deliver_lens e s0) as (Ez & Eu & Es).
    apply IH; [now rewrite Ez | now rewrite Eu | now apply Es]. }
  apply Hgen; cbn; [reflexivity | f_equal; lra | lra].
Qed.

(** X15. After a scroll event the speed is the clamp to [1, 20] of the
    old speed plus the vertical offset, and camera and projection flag
    are untouched. Over a run of scroll events from a speed within the
    range, offsets that are all non-negative and total at least 19 leave
    the speed at exactly 20, and offsets that are all non-positive and
    total at most -19 leave it at exactly 1. *)
Theorem scroll_speed_saturates
    (s : ViewState) (x y : R) (ys : list R) :
  let s1 := Scroll_Callback x y s in
  let final := gCameraSpeed (fst (run (scrolls ys) s)) in
  1 <= gCameraSpeed s1 <= 20
  /\ (1 <= gCameraSpeed s + y <= 20 -> gCameraSpeed s1 = gCameraSpeed s + y)
  /\ g_pCamera s1 = g_pCamera s
  /\ bOrthographicProjection s1 = bOrthographicProjection s
  /\ (1 <= gCameraSpeed s <= 20 -> Forall (fun d => 0 <= d) ys ->
      19 <= Rsum ys -> final = 20)
  /\ (1 <= gCameraSpeed s <= 20 -> Forall (fun d => d <= 0) ys ->
      Rsum ys <= -19 -> final = 1).
Proof.
  cbv zeta. rewrite Scroll_speed.
  split; [apply clamp_speed_range|]. split; [apply clamp_speed_mid|].
  destruct (Scroll_rest x y s) as [Hc Hf]. split; [exact Hc|]. split; [exact Hf|].
  assert (Hfold : forall ys s0,
            gCameraSpeed (fst (run (scrolls ys) s0))
            = fold_left speed_step ys (gCameraSpeed s0)).
  { clear. induction ys as [|d ys IH]; intros s0; [reflexivity|].
    unfold scrolls; fold (scrolls ys). rewrite map_cons, run_fst.
    cbn [deliver modify fst fold_left]. rewrite IH, Scroll_speed. reflexivity. }
  rewrite Hfold. split.
  - intros Hs Hpos Hsum.
    assert (Hreach : 20 <= gCameraSpeed s + Rsum ys) by lra.
    clear Hsum. revert Hs Hreach. generalize (gCameraSpeed s).
    induction Hpos as [|d l Hd Hl IH]; intros v Hv Hreach;
      cbn [fold_left Rsum fold_right] in *; [lra|].
    pose proof (Rsum_nonneg l Hl) as Hl0. unfold Rsum in Hl0.
    apply IH; [apply clamp_speed_range|]. unfold speed_step, Rsum in *.
    destruct (Rle_dec 20 (v + d)).
    + rewrite clamp_speed_high by lra. lra.
    + rewrite clamp_speed_mid by lra. lra.
  - intros Hs Hneg Hsum.
    assert (Hreach : gCameraSpeed s + Rsum ys <= 1) by lra.
    clear Hsum. revert Hs Hreach. generalize (gCameraSpeed s).
    induction Hneg as [|d l Hd Hl IH]; intros v Hv Hreach;
      cbn [fold_left Rsum fold_right] in *; [lra|].
    pose proof (Rsum_nonpos l Hl) as Hl0. unfold Rsum in Hl0.
    apply IH; [apply clamp_speed_range|]. unfold speed_step, Rsum in *.
    destruct (Rle_dec (v + d) 1).
    + rewrite clamp_speed_low by lra. lra.
    + rewrite clamp_speed_mid by lra. lra.
Qed.

Lemma scroll_speed_saturates_witness :
  gCameraSpeed (fst (run (scrolls [5; 5; 5; 5])
                         (ViewManager sample_camera))) = 20
  /\ gCameraSpeed (fst (run (scrolls [-10; -10])
                            (ViewManager sample_camera))) = 1.
Proof.
  split.
  - apply (proj1 (proj2 (proj2 (proj2 (proj2
             (scroll_speed_saturates (ViewManager sample_camera) 0 0
                                     [5; 5; 5; 5])))))).
    + cbn. lra.
    + repeat constructor; lra.
    + cbn. lra.
  - apply (proj2 (proj2 (proj2 (proj2 (proj2
             (scroll_speed_saturates (ViewManager sample_camera) 0 0
                                     [-10; -10])))))).
    + cbn. lra.
    + repeat constructor; lra.
    + cbn. lra.
Defined.

(** *** Every preset key is edge-triggered *)

Section LatchOn.

Context (a : Action).

Lemma runs_of_app l1 l2 :
  runs_of a (l1 ++ l2) = (runs_of a l1 + runs_of a l2)%nat.
Proof. unfold runs_of. now rewrite List.filter_app, length_app. Qed.

Lemma tracks_on_then p q f g :
  tracks_on a p f -> tracks_on a q g ->
  tracks_on a (then_ p q)
    (fun b => (fst (g (fst (f b))), (snd (f b) + snd (g (fst (f b))))%nat)).
Proof.
  intros Hp Hq s. rewrite then_fst, then_snd, runs_of_app.
  destruct (Hp s) as [H1 H2]. destruct (Hq (fst (p s))) as [H3 H4].
  cbn [fst snd]. now rewrite H3, H4, H2, H1.
Qed.

Lemma tracks_on_ext p f g :
  (forall b, f b = g b) -> tracks_on a p f -> tracks_on a p g.
Proof. intros E H s. rewrite <- E. apply H. Qed.

Lemma quiet_on_then p q : quiet_on a p -> quiet_on a q -> quiet_on a (then_ p q).
Proof.
  intros Hp Hq.
  apply (tracks_on_ext _ _ _ (fun _ => eq_refl) (tracks_on_then _ _ _ _ Hp Hq)).
Qed.

Lemma quiet_on_then_tracks p q f :
  quiet_on a p -> tracks_on a q f -> tracks_on a (then_ p q) f.
Proof.
  intros Hp Hq. refine (tracks_on_ext _ _ _ _ (tracks_on_then _ _ _ _ Hp Hq)).
  intros b. cbn [fst snd]. now destruct (f b).
Qed.

Lemma tracks_on_then_quiet p q f :
  tracks_on a p f -> quiet_on a q -> tracks_on a (then_ p q) f.
Proof.
  intros Hp Hq. refine (tracks_on_ext _ _ _ _ (tracks_on_then _ _ _ _ Hp Hq)).
  intros b. cbn [fst snd]. destruct (f b); cbn [fst snd]. f_equal. lia.
Qed.

Lemma quiet_on_modify f :
  (forall s, latch_of a (f s) = latch_of a s) -> quiet_on a (modify f).
Proof. intros H s. split; [apply H | reflexivity]. Qed.

Lemma quiet_on_skip : quiet_on a skip.
Proof. intros s. split; reflexivity. Qed.

Lemma quiet_on_ran b : same_action a b = false -> quiet_on a (ran b).
Proof. intros H s. unfold ran, runs_of. simpl. now rewrite H. Qed.

Lemma quiet_on_when c p : quiet_on a p -> quiet_on a (when c p).
Proof.
  intros H s. unfold when. destruct (c s); [apply H | apply quiet_on_skip].
Qed.

End LatchOn.

Create HintDb latch_on.
#[local] Hint Resolve quiet_on_then quiet_on_when quiet_on_skip : latch_on.
#[local] Hint Extern 1 (quiet_on _ (modify _)) =>
  (apply quiet_on_modify; intros; reflexivity) : latch_on.
#[local] Hint Extern 1 (quiet_on _ (move _)) =>
  (apply quiet_on_modify; intros; reflexivity) : latch_on.
#[local] Hint Extern 1 (quiet_on _ (move_back _)) =>
  (apply quiet_on_modify; intros; reflexivity) : latch_on.
#[local] Hint Extern 1 (quiet_on _ (pose _ _ _)) =>
  (apply quiet_on_modify; intros; reflexivity) : latch_on.
#[local] Hint Extern 1 (quiet_on _ (ran _)) =>
  (apply quiet_on_ran; reflexivity) : latch_on.

(** Peel the statements in front of the block of the action at hand; the
    movement block reads its speed from the state it runs on. *)
Ltac peel_quiet :=
  repeat (apply quiet_on_then_tracks;
          [ first [ solve [auto 20 with latch_on]
                  | let s := fresh "s" in
                    intros s; cbv beta zeta;
                    match goal with
                    | |- latch_of ?a (fst (?p s)) = _ /\ _ =>
                        let Hq := fresh "Hq" in
                        assert (Hq : quiet_on a p) by auto 20 with latch_on;
                        exact (Hq s)
                    end ] |]).

Ltac block_cases k :=
  let s := fresh "s" in
  let E := fresh "E" in
  intros s;
  unfold latch_frame, then_, when, modify, ran, pose, on_camera, skip;
  cbn [latch_of key_of];
  match goal with
  | |- context [?key k && negb (?latch s)] =>
      destruct (key k), (latch s) eqn:E; cbn; rewrite ?E; split; reflexivity
  end.

Section FramesOn.

Lemma ProcessKeyboardEvents_tracks_on a k :
  tracks_on a (ProcessKeyboardEvents k) (latch_frame (key_of a k)).
Proof.
  unfold ProcessKeyboardEvents.
  destruct a; peel_quiet;
    first [ block_cases k
          | let s := fresh "s" in
            intros s; rewrite <- then_assoc;
            apply tracks_on_then_quiet; [block_cases k | auto 30 with latch_on] ].
Qed.

Lemma deliver_tracks_on a e :
  tracks_on a (deliver e)
    (match e with
     | Frame _ k => latch_frame (key_of a k)
     | _ => fun b => (b, O)
     end).
Proof.
  destruct e as [x y|x y|t k]; cbn [deliver].
  - apply quiet_on_modify. intros s. unfold Mouse_Position_Callback.
    destruct (mouse_offsets x y s). now destruct a.
  - apply quiet_on_modify. intros s. unfold Scroll_Callback.
    repeat match goal with |- context [if ?c then _ else _] => destruct c end;
      now destruct a.
  - unfold PrepareSceneView. apply quiet_on_then_tracks.
    + apply quiet_on_modify. intros s. now destruct a.
    + apply ProcessKeyboardEvents_tracks_on.
Qed.

Lemma held_key_is_silent a evs : forall s,
  latch_of a s = true -> forallb (holds_key a) evs = true ->
  runs_of a (snd (run evs s)) = O /\ latch_of a (fst (run evs s)) = true.
Proof.
  induction evs as [|e rest IH]; intros s Hs Hheld; [now split|].
  cbn [forallb] in Hheld. apply andb_true_iff in Hheld as [He Hrest].
  rewrite run_fst, run_snd, runs_of_app.
  destruct (deliver_tracks_on a e s) as [H1 H2]. rewrite Hs in H1, H2.
  assert (Hs1 : latch_of a (fst (deliver e s)) = true).
  { rewrite H1. destruct e; cbn in *; auto. }
  destruct (IH _ Hs1 Hrest) as [-> ->]. split; [|reflexivity].
  rewrite H2. destruct e; cbn in *; try reflexivity. now rewrite He.
Qed.

End FramesOn.

(** X16. Each of the five one-shot blocks (P, O, 1, 2, 3) is
    edge-triggered by its own latch. In any frame the block runs exactly
    when its key is down and its latch is clear, and the latch afterwards
    is the state of the key. So a key that goes down on a clear latch and
    stays down, for any number of frames, runs its block exactly once, and
    the block cannot run again before a frame in which the key is up. *)
Theorem preset_keys_fire_once
    (a : Action) (s : ViewState) (t : R) (k : Keys) (held later : list Event) :
  latch_of a s = false -> key_of a k = true ->
  forallb (holds_key a) held = true ->
  let pressed := run (Frame t k :: held) s in
  runs_of a (snd (deliver (Frame t k) s)) = 1%nat
  /\ runs_of a (snd pressed) = 1%nat
  /\ latch_of a (fst pressed) = true
  /\ (runs_of a (snd (run later (fst pressed))) <> O ->
      forallb (holds_key a) later = false)
  /\ (forall s' t' k',
        latch_of a (fst (deliver (Frame t' k') s')) = key_of a k'
        /\ runs_of a (snd (deliver (Frame t' k') s'))
           = if key_of a k' && negb (latch_of a s') then 1%nat else 0%nat).
Proof.
  intros Hs Hk Hheld pressed. subst pressed.
  rewrite run_fst, run_snd, runs_of_app.
  destruct (deliver_tracks_on a (Frame t k) s) as [H1 H2].
  rewrite Hs, Hk in H1, H2. unfold latch_frame in H1, H2.
  cbn [fst snd andb negb] in H1, H2.
  destruct (held_key_is_silent a held _ H1 Hheld) as [H3 H4].
  rewrite H2, H3. split; [reflexivity|]. split; [reflexivity|].
  split; [exact H4|]. split.
  - intros Hfire. destruct (forallb (holds_key a) later) eqn:Hl; [|reflexivity].
    destruct (held_key_is_silent a later _ H4 Hl) as [H5 _]. congruence.
  - intros s' t' k'. apply (deliver_tracks_on a (Frame t' k') s').
Qed.

Lemma preset_keys_fire_once_witness :
  let top := MkKeys false false false false false false false false false
                    false true false in
  let pressed := run [Frame 1 top; Frame 2 top; Scroll 0 1; Frame 3 top]
                     (ViewManager sample_camera) in
  runs_of TopView (snd pressed) = 1%nat
  /\ latch_of TopView (fst pressed) = true.
Proof.
  intros top pressed.
  destruct (preset_keys_fire_once TopView (ViewManager sample_camera) 1 top
              [Frame 2 top; Scroll 0 1; Frame 3 top] []
              eq_refl eq_refl eq_refl) as (_ & Honce & Hlatch & _).
  split; [exact Honce | exact Hlatch].
Defined.

(** *** The pose after a frame *)

Lemma posed_view a s s' : view_of s' = view_of s -> posed a s -> posed a s'.
Proof.
  unfold view_of, posed. intros H. injection H as Hc Hb. now rewrite Hc, Hb.
Qed.

Lemma presets_then k p q l1 l2 :
  presets k p l1 -> presets k q l2 ->
  (forall a, In a l2 -> ~ In a l1) ->
  presets k (then_ p q) (l1 ++ l2).
Proof.
  intros Hp Hq Hdis s.
  destruct (Hp s) as (Hp1 & Hp2 & Hp3).
  destruct (Hq (fst (p s))) as (Hq1 & Hq2 & Hq3).
  rewrite then_fst, then_snd.
  assert (Hl2 : fired k (fst (p s)) l2 = fired k s l2).
  { apply List.filter_ext_in. intros a Ha. now rewrite Hp2 by now apply Hdis. }
  split; [|split].
  - unfold fired in *. now rewrite List.filter_app, Hp1, Hq1, Hl2.
  - intros a Ha. rewrite Hq2, Hp2; [reflexivity| |];
      intros Hin; apply Ha, in_or_app; auto.
  - rewrite last_app. destruct (last (snd (q (fst (p s))))) as [a|]; [exact Hq3|].
    destruct (last (snd (p s))) as [a|].
    + now apply (posed_view a (fst (p s))).
    + now rewrite Hq3.
Qed.

Lemma presets_ext k p q l :
  (forall s, p s = q s) -> presets k p l -> presets k q l.
Proof. intros E H s. rewrite <- E. apply H. Qed.

(** A block grouped with the release test that follows it. *)
Lemma presets_cons k a blk rel rest l :
  presets k (then_ blk rel) [a] -> presets k rest l -> ~ In a l ->
  presets k (then_ blk (then_ rel rest)) (a :: l).
Proof.
  intros H1 H2 Hnew.
  apply (presets_ext k (then_ (then_ blk rel) rest)); [apply then_assoc|].
  apply (presets_then k _ _ [a] l H1 H2).
  intros b Hb [<-|[]]. contradiction.
Qed.

Ltac preset_block k :=
  let s := fresh "s" in
  let E := fresh "E" in
  let b := fresh "b" in
  let Hb := fresh "Hb" in
  intros s;
  unfold fired, then_, when, modify, ran, pose, on_camera, skip;
  cbn [List.filter latch_of key_of];
  match goal with
  | |- context [?key k && negb (?latch s)] =>
      destruct (key k), (latch s) eqn:E; cbn; rewrite ?E;
      (split; [reflexivity|
        split; [intros b Hb; destruct b; solve [reflexivity | now (exfalso; apply Hb; left)] |
                first [reflexivity | repeat split]]])
  end.

Lemma heading_of_view s s' :
  view_of s' = view_of s -> heading_of s' = heading_of s.
Proof.
  unfold view_of, heading_of. intros H. injection H as Hc Hb. now rewrite Hc, Hb.
Qed.

Lemma fired_latches k s s' l :
  (forall a, latch_of a s' = latch_of a s) -> fired k s' l = fired k s l.
Proof. intros H. apply List.filter_ext. intros a. now rewrite H. Qed.

(** A frame of the keyboard poll: the blocks that run, and the view it
    leaves. *)
Lemma ProcessKeyboardEvents_frame k s :
  snd (ProcessKeyboardEvents k s) = fired k s all_actions
  /\ match last (fired k s all_actions) with
     | Some a => posed a (fst (ProcessKeyboardEvents k s))
     | None =>
         heading_of (fst (ProcessKeyboardEvents k s)) = heading_of s
         /\ Position (g_pCamera (fst (ProcessKeyboardEvents k s)))
            = vec3_add (Position (g_pCamera s))
                (vec3_scale (gCameraSpeed s * gDeltaTime s)
                   (heading_keys k (g_pCamera s)))
     end.
Proof.
  unfold ProcessKeyboardEvents.
  match goal with
  | |- context [then_ ?esc (then_ ?mv ?tail) s] =>
      rewrite (then_snd esc (then_ mv tail) s), (then_fst esc (then_ mv tail) s);
      rewrite (then_snd mv tail _), (then_fst mv tail _);
      set (s1 := fst (mv (fst (esc s))));
      assert (Hpre : snd (esc s) = []
                     /\ snd (mv (fst (esc s))) = []
                     /\ heading_of s1 = heading_of s
                     /\ Position (g_pCamera s1)
                        = vec3_add (Position (g_pCamera s))
                            (vec3_scale (gCameraSpeed s * gDeltaTime s)
                               (heading_keys k (g_pCamera s)))
                     /\ forall a, latch_of a s1 = latch_of a s);
      [|assert (Ht : presets k tail all_actions);
        [|destruct (Ht s1) as (H1 & _ & H3)]]
  end.
  - subst s1.
    destruct s as [[[px py pz] [fx fy fz] [ux uy uz] yaw pitch zoom]
                   lastX lastY first dt lastFrame speed orth
                   lp lo l0 l1 l2 close].
    unfold heading_keys, axis, then_, when, modify, move, move_back,
      on_camera, skip.
    destruct (KEY_ESCAPE k), (KEY_W k), (KEY_S k), (KEY_A k), (KEY_D k),
      (KEY_Q k), (KEY_E k); cbn;
      (split; [reflexivity|split; [reflexivity|split; [reflexivity|
       split; [cbv [vec3_add vec3_sub vec3_scale vx vy vz]; f_equal; ring
              |intros a; destruct a; reflexivity]]]]).
  - repeat (apply presets_cons;
            [preset_block k| |cbn; intuition discriminate]).
    preset_block k.
  - destruct Hpre as (-> & -> & Hh & Hpos & Hl). cbn [app].
    rewrite (fired_latches k s s1) in H1 by exact Hl. rewrite H1 in H3.
    split; [exact H1|].
    destruct (last (fired k s all_actions)); [exact H3|].
    split; [now rewrite (heading_of_view _ _ H3)|].
    rewrite <- Hpos. unfold view_of in H3. now injection H3 as -> _.
Qed.

Lemma PrepareSceneView_frame t k s :
  snd (PrepareSceneView t k s) = fired k s all_actions
  /\ match last (fired k s all_actions) with
     | Some a => posed a (fst (PrepareSceneView t k s))
     | None =>
         heading_of (fst (PrepareSceneView t k s)) = heading_of s
         /\ Position (g_pCamera (fst (PrepareSceneView t k s)))
            = vec3_add (Position (g_pCamera s))
                (vec3_scale (gCameraSpeed s * (t - gLastFrame s))
                   (heading_keys k (g_pCamera s)))
     end.
Proof.
  unfold PrepareSceneView.
  rewrite then_snd, then_fst. cbn [modify fst snd app].
  set (s1 := set_clock _ _ s).
  destruct (ProcessKeyboardEvents_frame k s1) as [H1 H2].
  assert (Hd : fired k s1 all_actions = fired k s all_actions)
    by (apply fired_latches; intros a; now destruct a).
  rewrite Hd in H1, H2. split; [exact H1|].
  destruct (last (fired k s all_actions)); exact H2.
Qed.

(** X17. In a frame the one-shot blocks that run are exactly those whose
    key is down on a clear latch, in program order P, O, 1, 2, 3, and the
    last of them decides the view: the projection flag, position, yaw,
    pitch and front vector after the frame are the ones that block
    assigns, whatever the movement keys and the earlier blocks did in the
    same frame. A frame in which no block runs leaves yaw, pitch, front
    vector and projection flag as they were. *)
Theorem last_preset_of_a_frame_decides_the_view
    (s : ViewState) (t : R) (k : Keys) :
  let due := fired k s all_actions in
  let after := fst (deliver (Frame t k) s) in
  snd (deliver (Frame t k) s) = due
  /\ match last due with
     | Some a => posed a after
     | None => heading_of after = heading_of s
     end.
Proof.
  cbv zeta. cbn [deliver].
  destruct (PrepareSceneView_frame t k s) as [H1 H2]. split; [exact H1|].
  destruct (last (fired k s all_actions)); [exact H2|apply H2].
Qed.

Lemma heading_of_eq s s' :
  heading_of s' = heading_of s ->
  Yaw (g_pCamera s') = Yaw (g_pCamera s)
  /\ Pitch (g_pCamera s') = Pitch (g_pCamera s)
  /\ Front (g_pCamera s') = Front (g_pCamera s)
  /\ bOrthographicProjection s' = bOrthographicProjection s.
Proof. unfold heading_of. intros H. injection H. auto. Qed.

Lemma mouse_offsets_snd x y s :
  snd (mouse_offsets x y s)
  = if gFirstMouse s then 0 else (gLastY s - y) * 0.1.
Proof.
  unfold mouse_offsets. destruct (gFirstMouse s); cbn; [lra|reflexivity].
Qed.

Lemma mouse_offsets_fst x y s :
  fst (mouse_offsets x y s)
  = if gFirstMouse s then 0 else (x - gLastX s) * 0.1.
Proof.
  unfold mouse_offsets. destruct (gFirstMouse s); cbn; [lra|reflexivity].
Qed.

(** X18. The top-view preset (key 2) sets the pitch to -89.9 degrees,
    outside the range [-89, 89] that the mouse handler keeps. The next
    mouse event brings the pitch back into the range, and unless the cursor
    has moved up by more than 9 pixels it sets the pitch to exactly -89:
    the view turns by 0.9 degrees even when the cursor has not moved. *)
Theorem top_view_pitch_is_outside_the_clamp
    (s : ViewState) (t : R) (k : Keys) (x y : R) :
  last (fired k s all_actions) = Some TopView ->
  let s1 := fst (deliver (Frame t k) s) in
  let s2 := Mouse_Position_Callback x y s1 in
  Pitch (g_pCamera s1) = -89.9
  /\ -89 <= Pitch (g_pCamera s2) <= 89
  /\ ((gFirstMouse s1 = false -> gLastY s1 - y <= 9) ->
      Pitch (g_pCamera s2) = -89
      /\ Front (g_pCamera s2) = front_of (Yaw (g_pCamera s2)) (-89)).
Proof.
  intros Hlast s1 s2. subst s1 s2. cbn [deliver].
  destruct (PrepareSceneView_frame t k s) as [_ H]. rewrite Hlast in H.
  destruct H as (_ & _ & _ & Hp & _). cbn [pitch_of] in Hp.
  split; [exact Hp|]. rewrite Mouse_Pitch. split; [apply clampR_bounds|].
  intros Hy.
  assert (HP : clampR (Pitch (g_pCamera (fst (PrepareSceneView t k s)))
                       + snd (mouse_offsets x y (fst (PrepareSceneView t k s))))
               = -89).
  { apply clampR_low. rewrite Hp, mouse_offsets_snd.
    destruct (gFirstMouse (fst (PrepareSceneView t k s))); [lra|].
    specialize (Hy eq_refl). lra. }
  split; [exact HP|].
  rewrite (Mouse_front x y), Mouse_Pitch. now rewrite HP.
Qed.

Lemma top_view_pitch_is_outside_the_clamp_witness :
  let top := MkKeys false false false false false false false false false
                    false true false in
  let s1 := fst (deliver (Frame 1 top) (ViewManager sample_camera)) in
  Pitch (g_pCamera s1) = -89.9
  /\ Pitch (g_pCamera (Mouse_Position_Callback 500 400 s1)) = -89.
Proof.
  intros top s1.
  destruct (top_view_pitch_is_outside_the_clamp
              (ViewManager sample_camera) 1 top 500 400 eq_refl)
    as (H1 & _ & H3).
  split; [exact H1|]. apply H3. intros H. discriminate H.
Defined.

(** *** Yaw and the cursor *)

Lemma PrepareSceneView_keeps_cursor t k :
  keeps cursor_of (PrepareSceneView t k).
Proof.
  unfold PrepareSceneView, ProcessKeyboardEvents.
  apply keeps_then; [auto with keeps|].
  apply keeps_then; [auto with keeps|].
  apply keeps_then; [keeps_local | auto 40 with keeps].
Qed.

Lemma cursor_x_cons e evs x0 :
  cursor_x (e :: evs) x0
  = cursor_x evs (match e with MouseMove x' _ => x' | _ => x0 end).
Proof. reflexivity. Qed.

(** X19. Unlike the pitch, the yaw is neither clamped nor wrapped, and it
    follows the cursor: over any run of events in which no one-shot block
    runs, started after the first mouse event, the yaw changes by 0.1
    degree per pixel between the cursor column before the run and the
    column of the last mouse event, whatever path the cursor took; frames
    and scroll events in between do not touch it. *)
Theorem yaw_follows_the_cursor (evs : list Event) (s : ViewState) :
  gFirstMouse s = false -> snd (run evs s) = [] ->
  let s' := fst (run evs s) in
  gLastX s' = cursor_x evs (gLastX s)
  /\ Yaw (g_pCamera s') = Yaw (g_pCamera s) + 0.1 * (gLastX s' - gLastX s).
Proof.
  revert s. induction evs as [|e rest IH]; intros s Hm Hidle; cbv zeta.
  - cbn. split; [reflexivity|lra].
  - rewrite run_snd in Hidle. apply app_eq_nil in Hidle as [He Hrest].
    rewrite run_fst, cursor_x_cons.
    assert (Hstep : gFirstMouse (fst (deliver e s)) = false
                    /\ gLastX (fst (deliver e s))
                       = match e with MouseMove x' _ => x' | _ => gLastX s end
                    /\ Yaw (g_pCamera (fst (deliver e s)))
                       = Yaw (g_pCamera s)
                         + 0.1 * (gLastX (fst (deliver e s)) - gLastX s)).
    { destruct e as [x y|x y|t k]; cbn [deliver].
      - cbn [modify fst]. unfold Mouse_Position_Callback.
        pose proof (mouse_offsets_fst x y s) as Hx. rewrite Hm in Hx.
        destruct (mouse_offsets x y s) as [xo yo]. cbn [fst] in Hx. subst xo.
        unfold clamp_pitch. cbn.
        repeat match goal with |- context [if ?c then _ else _] => destruct c end;
          cbn; (split; [reflexivity|split; [reflexivity|lra]]).
      - cbn [modify fst]. unfold Scroll_Callback.
        repeat match goal with |- context [if ?c then _ else _] => destruct c end;
          cbn; (split; [exact Hm|split; [reflexivity|lra]]).
      - pose proof (PrepareSceneView_keeps_cursor t k s) as Hc.
        unfold cursor_of in Hc. injection Hc as Hx Hf.
        destruct (PrepareSceneView_frame t k s) as [Hlog Hview].
        cbn [deliver] in He. rewrite He in Hlog. rewrite <- Hlog in Hview.
        cbn [last] in Hview.
        destruct (heading_of_eq _ _ (proj1 Hview)) as (Hyaw & _).
        rewrite Hf, Hx, Hyaw. split; [exact Hm|split; [reflexivity|lra]]. }
    destruct Hstep as (Hm1 & Hx1 & Hy1).
    destruct (IH _ Hm1 Hrest) as [Hx2 Hy2]. cbv zeta in Hx2, Hy2.
    split; [now rewrite Hx2, Hx1|]. rewrite Hy2, Hy1. lra.
Qed.

Lemma yaw_follows_the_cursor_witness :
  let s := Mouse_Position_Callback 500 400 (ViewManager sample_camera) in
  let evs := [MouseMove 600 400; Scroll 0 1; Frame 1 no_keys;
              MouseMove 450 380] in
  Yaw (g_pCamera (fst (run evs s)))
  = Yaw (g_pCamera s) + 0.1 * (gLastX (fst (run evs s)) - gLastX s).
Proof.
  intros s evs. exact (proj2 (yaw_follows_the_cursor evs s eq_refl eq_refl)).
Defined.

(** *** Movement, projection and the close request *)

(** X20. In a frame in which no one-shot block runs, the camera moves,
    over the reals, by speed times the time since the previous frame along
    the direction the movement keys ask for: W/S along the front vector,
    D/A along normalize(front x up), Q/E along the up vector, opposite
    keys cancelling. *)
Theorem movement_of_a_frame (s : ViewState) (t : R) (k : Keys) :
  fired k s all_actions = [] ->
  Position (g_pCamera (fst (deliver (Frame t k) s)))
  = vec3_add (Position (g_pCamera s))
      (vec3_scale (gCameraSpeed s * (t - gLastFrame s))
         (heading_keys k (g_pCamera s))).
Proof.
  intros Hidle. cbn [deliver].
  destruct (PrepareSceneView_frame t k s) as [_ H]. rewrite Hidle in H.
  apply H.
Qed.

Lemma movement_of_a_frame_witness :
  let forward := MkKeys false true false false false false false false false
                        false false false in
  let s := Mouse_Position_Callback 500 400 (ViewManager sample_camera) in
  Position (g_pCamera (fst (deliver (Frame 2 forward) s)))
  = vec3_add (Position (g_pCamera s))
      (vec3_scale (gCameraSpeed s * (2 - gLastFrame s))
         (heading_keys forward (g_pCamera s))).
Proof.
  intros forward s. exact (movement_of_a_frame s 2 forward eq_refl).
Defined.

Lemma projection_of_ortho s :
  bOrthographicProjection s = true ->
  projection_of s = ortho (-12.5) 12.5 (-10) 10 0.1 100.
Proof.
  intros H. unfold projection_of. rewrite H. cbn [negb]. cbv zeta.
  unfold WINDOW_WIDTH, WINDOW_HEIGHT. f_equal; lra.
Qed.

(** X21. With the orthographic flag set, the projection of
    [PrepareSceneView] maps the view-space point (x, y, z) to the clip
    point (x / 12.5, y / 10, -(2 z + 100.1) / 99.9, 1), so the points that
    survive clipping are those of the box |x| <= 12.5, |y| <= 10,
    -100 <= z <= -0.1: the box is 25 by 20 units whatever the camera's zoom
    or distance. *)
Theorem orthographic_view_volume (s : ViewState) (x y z : R) :
  bOrthographicProjection s = true ->
  let clip := mat4_mulv (projection_of s) (point4 (Vec3 x y z)) in
  clip = Vec4 (x / 12.5) (y / 10) (- (2 * z + 100.1) / 99.9) 1
  /\ (in_clip_cube clip <->
      -12.5 <= x <= 12.5 /\ -10 <= y <= 10 /\ -100 <= z <= -0.1).
Proof.
  intros H clip. subst clip. rewrite (projection_of_ortho s H).
  assert (E : mat4_mulv (ortho (-12.5) 12.5 (-10) 10 0.1 100)
                (point4 (Vec3 x y z))
              = Vec4 (x / 12.5) (y / 10) (- (2 * z + 100.1) / 99.9) 1).
  { cbv [mat4_mulv ortho point4 vec4_add vec4_scale col0 col1 col2 col3
         qx qy qz qw vx vy vz].
    f_equal; lra. }
  rewrite E. split; [reflexivity|].
  unfold in_clip_cube. cbn [qx qy qz]. split; intros (Hx & Hy & Hz); lra.
Qed.

Lemma orthographic_view_volume_witness :
  let top := MkKeys false false false false false false false false false
                    false true false in
  let s := fst (deliver (Frame 1 top) (ViewManager sample_camera)) in
  mat4_mulv (projection_of s) (point4 (Vec3 12.5 (-10) (-100)))
  = Vec4 (12.5 / 12.5) (-10 / 10) (- (2 * -100 + 100.1) / 99.9) 1.
Proof.
  intros top s.
  exact (proj1 (orthographic_view_volume s 12.5 (-10) (-100) eq_refl)).
Defined.

Lemma deliver_close e s :
  windowShouldClose (fst (deliver e s))
  = windowShouldClose s || escape_down e.
Proof.
  destruct e as [x y|x y|t k]; cbn [deliver escape_down].
  - rewrite orb_false_r. cbn [modify fst]. unfold Mouse_Position_Callback.
    now destruct (mouse_offsets x y s).
  - rewrite orb_false_r. cbn [modify fst]. unfold Scroll_Callback.
    repeat match goal with |- context [if ?c then _ else _] => destruct c end;
      reflexivity.
  - unfold PrepareSceneView, ProcessKeyboardEvents.
    rewrite then_fst. cbn [modify fst]. rewrite then_fst.
    match goal with
    | |- windowShouldClose (fst (then_ ?mv ?tail ?s1)) = _ =>
        assert (Hk : keeps windowShouldClose (then_ mv tail))
          by (apply keeps_then; [keeps_local | auto 40 with keeps]);
        rewrite (Hk s1)
    end.
    unfold when, modify, skip. destruct (KEY_ESCAPE k); cbn.
    + now rewrite orb_true_r.
    + now rewrite orb_false_r.
Qed.

(** X22. The close request is sticky and has one source: after any run of
    events the window is asked to close exactly when it already was or
    Escape was down in one of the frames. Nothing clears the request. *)
Theorem close_request_is_sticky (evs : list Event) (s : ViewState) :
  windowShouldClose (fst (run evs s))
  = windowShouldClose s || existsb escape_down evs.
Proof.
  revert s. induction evs as [|e rest IH]; intros s.
  - cbn. now rewrite orb_false_r.
  - rewrite run_fst, IH, deliver_close. cbn [existsb]. now rewrite orb_assoc.
Qed.

(** *** The textures of a frame *)

(** X23. With a shader manager, the sampler writes of a frame are, in
    order, the slots [FindTextureSlot] returns for the tags [RenderScene]
    asks for, nothing else writes the sampler, and when each of the five
    tags is registered every one of them is a valid index into the
    registered entries. *)
Theorem frame_samplers_are_registry_slots
    (indeterminate : OBJECT_MATERIAL) (sm : SceneManager) :
  m_pShaderManager sm = true ->
  exists cmds,
    RenderScene indeterminate sm = Some cmds
    /\ sampler_writes cmds = FindTextureSlot sm <$> scene_texture_uses
    /\ (Forall (fun tg => tg ∈ (tag <$> registered sm)) scene_texture_uses ->
        Forall (fun slot => (0 <= slot < Z.of_nat (length (registered sm)))%Z)
               (sampler_writes cmds)).
Proof.
  intros Hsh.
  assert (Hrun : exists cmds,
             RenderScene indeterminate sm = Some cmds
             /\ sampler_writes cmds = FindTextureSlot sm <$> scene_texture_uses).
  { destruct sm as [shader textures loaded materials].
    cbn [m_pShaderManager] in Hsh. subst shader.
    destruct materials as [|m0 materials];
      (eexists; split; [reflexivity|]; lazy; reflexivity). }
  destruct Hrun as (cmds & Hcmds & Hs). exists cmds.
  split; [exact Hcmds|]. split; [exact Hs|].
  rewrite Hs. intros Hall. apply Forall_fmap.
  eapply Forall_impl; [exact Hall|]. intros tg Hin. cbn.
  destruct (first_occurrence _ _ Hin) as (k & e & Hk & He & Hfirst).
  destruct (texture_lookup_first _ _ _ _ Hk He Hfirst) as [-> _].
  apply lookup_lt_Some in Hk. lia.
Qed.

Lemma frame_samplers_are_registry_slots_witness :
  exists cmds,
    RenderScene steel prepared_manager = Some cmds
    /\ sampler_writes cmds
       = [2; 0; 4; 3; 4; 3; 0; 1; 4; 0; 3; 0; 3; 3; 3; 3; 3; 3; 3; 4; 3; 1]%Z.
Proof.
  destruct (frame_samplers_are_registry_slots steel prepared_manager eq_refl)
    as (cmds & Hcmds & Hs & _).
  exists cmds. split; [exact Hcmds|]. rewrite Hs. reflexivity.
Defined.

(** X24. [PrepareScene] drops the results of its five texture loads.
    Started on an empty registry, it leaves each tag whose image decoded in
    the slot that counts the decoded images before it, under its texture
    name, and each tag whose image did not decode unregistered, so that
    [FindTextureSlot] and [FindTextureID] return -1 for it and the tags
    after it sit one slot lower. The library then holds the five presets,
    one for each material tag the scene uses. *)
Theorem PrepareScene_texture_slots
    (i1 i2 i3 i4 i5 : ImageLoad) (sm0 sm : SceneManager)
    (lights : list GLCommand) :
  m_loadedTextures sm0 = 0%Z ->
  PrepareScene i1 i2 i3 i4 i5 sm0 = Some (sm, lights) ->
  (forall j c,
     scene_loads i1 i2 i3 i4 i5 !! j = Some c ->
     FindTextureSlot sm (snd c)
     = (if decodable (fst c)
        then Z.of_nat (length (accepted (take j (scene_loads i1 i2 i3 i4 i5))))
        else -1)%Z
     /\ FindTextureID sm (snd c)
        = (if decodable (fst c) then textureID (fst c) else -1)%Z)
  /\ m_objectMaterials sm = [steel; plastic; darkplastic; gold; burntsand]
  /\ Forall (fun tg => find_preset sm tg <> None) scene_material_tags.
Proof.
  intros Hzero Hprep. unfold PrepareScene, LoadSceneTextures in Hprep.
  destruct (SetupLights sm0) as [l0|]; [|discriminate].
  fold (scene_loads i1 i2 i3 i4 i5) in Hprep.
  destruct (create_all (scene_loads i1 i2 i3 i4 i5) sm0) as [[oks sm1]|] eqn:Hrun;
    [|discriminate].
  injection Hprep as <- _.
  destruct (create_all_accepted _ _ _ _ Hrun) as (_ & Hreg & _).
  assert (Hempty : registered sm0 = [])
    by (unfold registered; now rewrite Hzero).
  rewrite Hempty in Hreg. cbn [app] in Hreg.
  split; [|split; [reflexivity|]].
  - intros j c Hj. unfold FindTextureSlot, FindTextureID.
    change (registered (SetupMaterials sm1)) with (registered sm1).
    rewrite Hreg.
    assert (Hnd : NoDup (snd <$> scene_loads i1 i2 i3 i4 i5))
      by distinct_strings.
    destruct (accepted_lookup _ j c 0%Z Hnd Hj) as [-> ->].
    split; [now destruct (decodable (fst c)) | reflexivity].
  - unfold scene_material_tags. repeat constructor; discriminate.
Qed.

Lemma PrepareScene_texture_slots_witness :
  exists sm lights,
    PrepareScene (rgb_image 1) (MkImageLoad None 0) (rgb_image 3)
                 (rgb_image 4) (rgb_image 5) fresh_manager
    = Some (sm, lights)
    /\ FindTextureSlot sm "gold" = (-1)%Z
    /\ FindTextureSlot sm "wood" = 1%Z.
Proof.
  eexists _, _. split; [reflexivity|].
  destruct (PrepareScene_texture_slots (rgb_image 1) (MkImageLoad None 0)
              (rgb_image 3) (rgb_image 4) (rgb_image 5) fresh_manager _ _
              eq_refl eq_refl) as (Hslots & _).
  split.
  - exact (proj1 (Hslots 1%nat _ eq_refl)).
  - exact (proj1 (Hslots 2%nat _ eq_refl)).
Defined.

(** *** The frame, row by row *)

Lemma vec3_eq x x' y y' z z' :
  x = x' -> y = y' -> z = z' -> Vec3 x y z = Vec3 x' y' z'.
Proof. now intros -> -> ->. Qed.

Lemma row_cons_eq (m : Mesh) s s' rx rx' ry ry' rz rz' p p'
    (l l' : list (Mesh * option UValue)) :
  s = s' -> rx = rx' -> ry = ry' -> rz = rz' -> p = p' -> l = l' ->
  (m, Some (UMat4 (model_matrix s rx ry rz p))) :: l
  = (m, Some (UMat4 (model_matrix s' rx' ry' rz' p'))) :: l'.
Proof. now intros -> -> -> -> -> ->. Qed.

Ltac same_real :=
  first [ reflexivity | lra | (rewrite degrees_radians; first [reflexivity | lra]) ].

Ltac same_rows :=
  repeat (apply row_cons_eq;
          [ apply vec3_eq; same_real | same_real | same_real | same_real
          | apply vec3_eq; same_real | ]);
  reflexivity.

Lemma RenderScene_rows indeterminate sm :
  m_pShaderManager sm = true ->
  exists cmds,
    RenderScene indeterminate sm = Some cmds
    /\ forall u0 : Uniforms, drawn_models u0 cmds = row_draw <$> scene_list.
Proof.
  destruct sm as [shader textures loaded materials]. cbn [m_pShaderManager].
  intros ->.
  destruct materials as [|m0 materials];
    (eexists; split; [reflexivity|]; intros u0;
     lazy -[model_matrix Rplus Rminus Rmult Rdiv Ropp Rinv IZR sin cos
            radians degrees PI];
     same_rows).
Qed.

(** C3. Whenever [RenderScene] can run (the shader manager is there, or
    there is no material to push through it), one call issues exactly 25
    draw calls, the 18 fixed rows and the 7 handle segments, in the order
    of the scene list. With a shader manager each draw call is the one of
    its row: the k-th draw has the primitive of row k and the [model]
    matrix built from the scale, the rotation angles and the position of
    row k, whatever the uniforms held before the frame. *)
Theorem RenderScene_draws_the_scene_list
    (indeterminate : OBJECT_MATERIAL) (sm : SceneManager) :
  m_pShaderManager sm = true \/ m_objectMaterials sm = [] ->
  exists cmds,
    RenderScene indeterminate sm = Some cmds
    /\ draws_of cmds = scene_meshes
    /\ length (draws_of cmds) = 25%nat
    /\ length scene_meshes = (18 + 7)%nat
    /\ draws_of cmds = row_mesh <$> scene_list
    /\ (m_pShaderManager sm = true ->
        forall u0 : Uniforms,
          drawn_models u0 cmds = row_draw <$> scene_list).
Proof.
  intros Hrun.
  destruct (m_pShaderManager sm) eqn:Hshader.
  - destruct (RenderScene_frame indeterminate sm Hshader)
      as (cmds & Hcmds & Hdraws & _).
    destruct (RenderScene_rows indeterminate sm Hshader)
      as (cmds' & Hcmds' & Hrows).
    assert (cmds' = cmds) by congruence. subst cmds'.
    exists cmds. rewrite Hdraws. auto 10.
  - destruct Hrun as [Hrun|Hempty]; [discriminate|].
    exists (map Draw scene_meshes).
    rewrite (RenderScene_without_shader _ _ Hshader Hempty), draws_of_map_Draw.
    split; [reflexivity|]. split; [reflexivity|]. split; [reflexivity|].
    split; [reflexivity|]. split; [reflexivity|]. discriminate.
Qed.

Lemma RenderScene_draws_the_scene_list_witness :
  exists cmds,
    RenderScene steel prepared_manager = Some cmds
    /\ draws_of cmds = scene_meshes
    /\ length (draws_of cmds) = 25%nat
    /\ drawn_models no_uniforms cmds !! 11%nat
       = Some (BoxMesh,
               Some (UMat4 (model_matrix (Vec3 7 0.13 4.5) 0 0 0
                                         (Vec3 0 (-0.035) 0))))
    /\ drawn_models no_uniforms cmds !! 22%nat
       = Some (BoxMesh,
               Some (UMat4 (model_matrix (Vec3 0.50 2.17 1.62) 0 0 (-8)
                                         (Vec3 5.9 0.375 1.0)))).
Proof.
  destruct (RenderScene_draws_the_scene_list steel prepared_manager
              (or_introl eq_refl))
    as (cmds & Hcmds & Hdraws & Hlen & _ & _ & Hrows).
  exists cmds. rewrite (Hrows eq_refl no_uniforms).
  split; [exact Hcmds|]. split; [exact Hdraws|]. split; [exact Hlen|].
  split; reflexivity.
Defined.

(** *** The pitch at any point after construction *)

Lemma Scroll_first_mouse x y s :
  gFirstMouse (Scroll_Callback x y s) = gFirstMouse s.
Proof.
  unfold Scroll_Callback.
  repeat match goal with |- context [if ?c then _ else _] => destruct c end;
    reflexivity.
Qed.

Lemma deliver_pitch_settled e s :
  pitch_settled s -> pitch_settled (fst (deliver e s)).
Proof.
  intros Hs. destruct e as [x y|x y|t k]; cbn [deliver].
  - right. cbn [modify fst]. rewrite Mouse_Pitch.
    pose proof (clampR_bounds (Pitch (g_pCamera s) + snd (mouse_offsets x y s))).
    lra.
  - cbn [modify fst]. unfold pitch_settled.
    rewrite Scroll_first_mouse. now destruct (Scroll_rest x y s) as [-> _].
  - pose proof (PrepareSceneView_keeps_cursor t k s) as Hc.
    unfold cursor_of in Hc. injection Hc as _ Hf.
    destruct (PrepareSceneView_frame t k s) as [_ Hview].
    unfold pitch_settled. rewrite Hf.
    destruct (last (fired k s all_actions)) as [a|].
    + right. destruct Hview as (_ & _ & _ & -> & _).
      destruct a; cbn [pitch_of]; lra.
    + destruct (heading_of_eq _ _ (proj1 Hview)) as (_ & -> & _).
      exact Hs.
Qed.

Lemma run_pitch_settled evs : forall s,
  pitch_settled s -> pitch_settled (fst (run evs s)).
Proof.
  induction evs as [|e rest IH]; intros s Hs; [exact Hs|].
  rewrite run_fst. now apply IH, deliver_pitch_settled.
Qed.

Lemma pitch_saturates_up_from incs p :
  Forall (fun d => 0 <= d) incs -> -9911 <= p -> Rsum incs = 10000 ->
  fold_left pitch_step incs p = 89.
Proof.
  intros Hpos Hp Hsum.
  destruct incs as [|d l]; [cbn in Hsum; lra|].
  inversion Hpos as [|? ? Hd Hl]; subst. cbn [fold_left].
  cbn [Rsum fold_right] in Hsum. fold (Rsum l) in Hsum.
  pose proof (Rsum_nonneg l Hl) as Hl0.
  pose proof (clampR_bounds (p + d)) as Hb.
  destruct l as [|d' l'].
  - cbn in *. unfold pitch_step. apply clampR_high. lra.
  - apply pitch_saturates_up;
      [exact Hl | discriminate | unfold pitch_step; lra |].
    unfold pitch_step.
    destruct (Rle_dec 89 (p + d)) as [Hge|Hlt];
      [rewrite clampR_high by lra; lra|].
    destruct (Rle_dec (p + d) (-89)) as [Hle|Hgt];
      [rewrite clampR_low by lra; lra|].
    rewrite clampR_mid by lra. lra.
Qed.

Lemma pitch_saturates_down_from incs p :
  Forall (fun d => d <= 0) incs -> p <= 9911 -> Rsum incs = -10000 ->
  fold_left pitch_step incs p = -89.
Proof.
  intros Hneg Hp Hsum.
  destruct incs as [|d l]; [cbn in Hsum; lra|].
  inversion Hneg as [|? ? Hd Hl]; subst. cbn [fold_left].
  cbn [Rsum fold_right] in Hsum. fold (Rsum l) in Hsum.
  pose proof (Rsum_nonpos l Hl) as Hl0.
  pose proof (clampR_bounds (p + d)) as Hb.
  destruct l as [|d' l'].
  - cbn in *. unfold pitch_step. apply clampR_low. lra.
  - apply pitch_saturates_down;
      [exact Hl | discriminate | unfold pitch_step; lra |].
    unfold pitch_step.
    destruct (Rle_dec 89 (p + d)) as [Hge|Hlt];
      [rewrite clampR_high by lra; lra|].
    destruct (Rle_dec (p + d) (-89)) as [Hle|Hgt];
      [rewrite clampR_low by lra; lra|].
    rewrite clampR_mid by lra. lra.
Qed.

Lemma settled_saturates_up ps s :
  pitch_settled s ->
  Forall (fun d => 0 <= d) (pitch_increments (mouse_moves ps) s) ->
  Rsum (pitch_increments (mouse_moves ps) s) = 10000 ->
  Pitch (g_pCamera (fst (run (mouse_moves ps) s))) = 89.
Proof.
  intros Hs Hpos Hsum. rewrite run_mouse_pitch.
  destruct Hs as [Hfirst|Hp]; [|apply pitch_saturates_up_from; auto; lra].
  pose proof (Rsum_nonzero_nonempty _ _ Hsum ltac:(lra)) as Hne.
  destruct ps as [|[x0 y0] ps']; [now elim Hne|].
  unfold mouse_moves in *; fold (mouse_moves ps') in *.
  rewrite map_cons in *. cbn [pitch_increments fst snd fold_left] in *.
  rewrite (first_mouse_increment _ _ _ Hfirst) in *.
  inversion Hpos as [|? ? _ Hrest]; subst. cbn [Rsum fold_right] in Hsum.
  pose proof (clampR_bounds (Pitch (g_pCamera s) + 0)) as Hb.
  apply pitch_saturates_up_from;
    [exact Hrest | unfold pitch_step; lra | unfold Rsum; lra].
Qed.

Lemma settled_saturates_down ps s :
  pitch_settled s ->
  Forall (fun d => d <= 0) (pitch_increments (mouse_moves ps) s) ->
  Rsum (pitch_increments (mouse_moves ps) s) = -10000 ->
  Pitch (g_pCamera (fst (run (mouse_moves ps) s))) = -89.
Proof.
  intros Hs Hneg Hsum. rewrite run_mouse_pitch.
  destruct Hs as [Hfirst|Hp]; [|apply pitch_saturates_down_from; auto; lra].
  pose proof (Rsum_nonzero_nonempty _ _ Hsum ltac:(lra)) as Hne.
  destruct ps as [|[x0 y0] ps']; [now elim Hne|].
  unfold mouse_moves in *; fold (mouse_moves ps') in *.
  rewrite map_cons in *. cbn [pitch_increments fst snd fold_left] in *.
  rewrite (first_mouse_increment _ _ _ Hfirst) in *.
  inversion Hneg as [|? ? _ Hrest]; subst. cbn [Rsum fold_right] in Hsum.
  pose proof (clampR_bounds (Pitch (g_pCamera s) + 0)) as Hb.
  apply pitch_saturates_down_from;
    [exact Hrest | unfold pitch_step; lra | unfold Rsum; lra].
Qed.

Lemma climb_increments :
  pitch_increments (mouse_moves climb)
                   (fst (run to_top_view (ViewManager sample_camera)))
  = [(0 - -40000) * 0.1; (-40000 - -100000) * 0.1].
Proof. reflexivity. Qed.

(** C8, as the code has it. After every mouse-move event the pitch lies in
    [-89, 89]. At any point after construction, whatever events came
    before, a run of mouse moves whose pitch increments are all
    non-negative and total +10000 leaves the pitch at exactly 89, and a run
    whose increments are all non-positive and total -10000 leaves it at
    exactly -89. *)
Theorem pitch_clamp_saturates
    (new_Camera : Camera) (history : list Event) (s0 : ViewState)
    (x y : R) (ps : list (R * R)) :
  let s := fst (run history (ViewManager new_Camera)) in
  let incs := pitch_increments (mouse_moves ps) s in
  let final := Pitch (g_pCamera (fst (run (mouse_moves ps) s))) in
  (-89 <= Pitch (g_pCamera (Mouse_Position_Callback x y s0)) <= 89)
  /\ (Forall (fun d => 0 <= d) incs -> Rsum incs = 10000 -> final = 89)
  /\ (Forall (fun d => d <= 0) incs -> Rsum incs = -10000 -> final = -89).
Proof.
  intros s incs final.
  assert (Hs : pitch_settled s)
    by (apply run_pitch_settled; left; reflexivity).
  split; [|split].
  - rewrite Mouse_Pitch. apply clampR_bounds.
  - now apply settled_saturates_up.
  - now apply settled_saturates_down.
Qed.

Lemma pitch_clamp_saturates_witness :
  Pitch (g_pCamera (fst (run to_top_view (ViewManager sample_camera))))
  = -89.9
  /\ gFirstMouse (fst (run to_top_view (ViewManager sample_camera))) = false
  /\ Rsum (pitch_increments (mouse_moves climb)
             (fst (run to_top_view (ViewManager sample_camera)))) = 10000
  /\ Pitch (g_pCamera
              (fst (run (mouse_moves climb)
                        (fst (run to_top_view (ViewManager sample_camera))))))
     = 89
  /\ Rsum (pitch_increments (mouse_moves steady_down)
                            (ViewManager sample_camera)) = -10000
  /\ Pitch (g_pCamera (fst (run (mouse_moves steady_down)
                                (ViewManager sample_camera)))) = -89.
Proof.
  assert (Hup : Rsum (pitch_increments (mouse_moves climb)
                        (fst (run to_top_view (ViewManager sample_camera))))
                = 10000).
  { rewrite climb_increments. simpl. lra. }
  assert (Hdown : Rsum (pitch_increments (mouse_moves steady_down)
                                         (ViewManager sample_camera))
                  = -10000).
  { rewrite steady_down_increments. simpl. lra. }
  split; [reflexivity|]. split; [reflexivity|].
  split; [exact Hup|]. split; [|split; [exact Hdown|]].
  - apply (proj1 (proj2 (pitch_clamp_saturates sample_camera to_top_view
                           (ViewManager sample_camera) 0 0 climb))).
    + rewrite climb_increments. repeat constructor; lra.
    + exact Hup.
  - apply (proj2 (proj2 (pitch_clamp_saturates sample_camera []
                           (ViewManager sample_camera) 0 0 steady_down))).
    + cbn [run skip fst]. rewrite steady_down_increments.
      repeat constructor; lra.
    + exact Hdown.
Defined.
